(** * go-camo: the glob trie of [pkg/htrie] and the signature codec

    A shallow embedding of [pkg/htrie/glob_path_node.go] and the
    properties of its insertion ([addPath]) and query ([checkPath],
    [globConsume]) functions, followed by a model of the signature codec.

    Go pointers to [globPathNode] are indices into a store of nodes; the
    functions of the source are written in a small state monad over that
    store, so that aliasing (the [oneShot] pointer duplicates an entry of
    the [subtrees] map) and mutation are those of the program.

    A Go [byte] is an 8-bit integer, here a [Z]; a Go [string] is indexed
    by byte, here a [list Z].

    Part I is the program, Part II the vocabulary of the statements,
    Part III the invariant of the trie and the properties of single
    insertions and queries, Part IV what [checkPath] accepts as a whole
    ([globMatch]) and what [addPath] does to the store. *)

From Stdlib Require Import ZArith Lia String Ascii.
From stdpp Require Import base option list gmap fin_maps.

Local Open Scope Z_scope.

(** * Part I: the program *)

(** A Go [byte] is an 8-bit integer, here a [Z]; a Go [string] is indexed
    by byte, here a [list Z]. *)

Definition bytes (s : string) : list Z :=
  List.map (fun a => Z.of_nat (nat_of_ascii a)) (list_ascii_of_string s).

(** [const globChar byte = 1] *)
Definition globChar : Z := 1.

(** The byte ['*'] *)
Definition star : Z := 42.

(** A pointer to a node is its index in the store. *)
Notation ptr := nat.

(** [type globPathNode struct].  A nil map is [None]; a nil pointer is
    [None].  The map holds pointers to nodes: the only writer of the map,
    [addPath], stores the result of [newGlobPathNode], never nil. *)
Record globPathNode := GlobPathNode {
  subtrees : option (gmap Z nat);
  oneShot : option ptr;
  isGlob : bool;
  canMatch : bool;
  hasGlobChild : bool;
  nodeChar : Z;
  icase : bool
}.

Definition set_subtrees (m : option (gmap Z nat)) (n : globPathNode) :=
  GlobPathNode m (oneShot n) (isGlob n) (canMatch n) (hasGlobChild n) (nodeChar n) (icase n).

Definition set_oneShot (o : option ptr) (n : globPathNode) :=
  GlobPathNode (subtrees n) o (isGlob n) (canMatch n) (hasGlobChild n) (nodeChar n) (icase n).

Definition set_isGlob (b : bool) (n : globPathNode) :=
  GlobPathNode (subtrees n) (oneShot n) b (canMatch n) (hasGlobChild n) (nodeChar n) (icase n).

Definition set_canMatch (b : bool) (n : globPathNode) :=
  GlobPathNode (subtrees n) (oneShot n) (isGlob n) b (hasGlobChild n) (nodeChar n) (icase n).

Definition set_hasGlobChild (b : bool) (n : globPathNode) :=
  GlobPathNode (subtrees n) (oneShot n) (isGlob n) (canMatch n) b (nodeChar n) (icase n).

Definition set_nodeChar (c : Z) (n : globPathNode) :=
  GlobPathNode (subtrees n) (oneShot n) (isGlob n) (canMatch n) (hasGlobChild n) c (icase n).

Notation heap := (list globPathNode).

(** The outcome of running a piece of the program: a value, a run-time
    panic (nil dereference, index out of range, write to a nil map), or
    the exhaustion of the fuel that bounds the recursion of the model. *)
Inductive res (A : Type) : Type :=
| Done (a : A)
| Panic
| OutOfFuel.

Arguments Done {A} a.

Arguments Panic {A}.

Arguments OutOfFuel {A}.

Definition M (A : Type) : Type := heap -> res (A * heap).

Definition ret {A} (a : A) : M A := fun h => Done (a, h).

Definition bind {A B} (m : M A) (k : A -> M B) : M B :=
  fun h =>
    match m h with
    | Done (a, h') => k a h'
    | Panic => Panic
    | OutOfFuel => OutOfFuel
    end.

Notation "x <- m ;; k" := (bind m (fun x => k))
  (at level 100, m at next level, right associativity).

Notation "m ;;; k" := (bind m (fun _ => k))
  (at level 100, right associativity).

Definition panic {A} : M A := fun _ => Panic.

Definition outOfFuel {A} : M A := fun _ => OutOfFuel.

(** [*p] *)
Definition load (p : ptr) : M globPathNode :=
  fun h => match h !! p with Some n => Done (n, h) | None => Panic end.

(** [*p = n] *)
Definition store (p : ptr) (n : globPathNode) : M unit :=
  fun h => match h !! p with Some _ => Done (tt, <[p:=n]> h) | None => Panic end.

(** [p.field = v] *)
Definition modify (p : ptr) (f : globPathNode -> globPathNode) : M unit :=
  n <- load p ;; store p (f n).

(** [&globPathNode{...}]: a fresh address *)
Definition alloc (n : globPathNode) : M ptr :=
  fun h => Done (length h, h ++ [n]).

(** [s[i]], which panics out of range *)
Definition byteAt (s : list Z) (i : Z) : M Z :=
  if i <? 0 then panic
  else match s !! Z.to_nat i with Some b => ret b | None => panic end.

(** [m[c]] on a possibly nil map: reading a nil map finds nothing *)
Definition lookupChild (n : globPathNode) (c : Z) : option ptr :=
  match subtrees n with Some m => m !! c | None => None end.

(** [if gpn.icase && 'A' <= part && part <= 'Z' { part = part + 32 }] *)
Definition foldCase (ic : bool) (part : Z) : Z :=
  if ic && (65 <=? part) && (part <=? 90) then (part + 32) mod 256 else part.

(** [func newGlobPathNode(icase bool) *globPathNode] *)
Definition newGlobPathNode (ic : bool) : M ptr :=
  alloc (GlobPathNode (Some ∅) None false false false 0 ic).

(** The error value of [addPath] *)
Definition error := string.

Definition errNilSubtrees : error := "got nil <gpn>.subtrees in receiver"%string.

(** One iteration of the loop of [addPath] on the byte [b = s[i]];
    returns the new [curnode]. *)
Definition addPath_step (gpn curnode : ptr) (b : Z) : M ptr :=
  g <- load gpn ;;
  let part := foldCase (icase g) b in
  let c := if part =? star then globChar else part in
  cur <- load curnode ;;
  match subtrees cur with
  | None =>
      (* subt[c] == nil holds on a nil map, and the assignment panics *)
      panic
  | Some subt =>
      vs <- match subt !! c with
            | Some v => ret (v, subt)
            | None =>
                g' <- load gpn ;;
                v <- newGlobPathNode (icase g') ;;
                modify curnode (set_subtrees (Some (<[c:=v]> subt))) ;;;
                ret (v, <[c:=v]> subt)
            end ;;
      let '(v, subt') := vs in
      modify v (set_nodeChar part) ;;;
      modify curnode (set_oneShot (if (size subt' =? 1)%nat then Some v else None)) ;;;
      (if part =? star
       then modify curnode (set_hasGlobChild true) ;;; modify v (set_isGlob true)
       else ret tt) ;;;
      ret v
  end.

(** [for i := 0; i < mlen; i++] with [mlen = len(s)] *)
Fixpoint addPath_loop (gpn curnode : ptr) (s : list Z) : M ptr :=
  match s with
  | [] => ret curnode
  | b :: s' => v <- addPath_step gpn curnode b ;; addPath_loop gpn v s'
  end.

(** [func (gpn *globPathNode) addPath(s string) error] *)
Definition addPath (gpn : ptr) (s : list Z) : M (option error) :=
  g <- load gpn ;;
  match subtrees g with
  | None => ret (Some errNilSubtrees)
  | Some _ =>
      curnode <- addPath_loop gpn gpn s ;;
      modify curnode (set_canMatch true) ;;;
      ret None
  end.

(** [checkPath] and [globConsume] call each other; each function and
    each of the two [for] loops is one function of the model, and every
    call spends one unit of fuel. *)
Fixpoint checkPath (fuel : nat) (gpn : ptr) (s : list Z) (index mlen : Z)
    {struct fuel} : M bool :=
  match fuel with
  | O => outOfFuel
  | S fuel => checkPath_loop fuel gpn gpn s index mlen
  end
with checkPath_loop (fuel : nat) (gpn curnode : ptr) (s : list Z) (i mlen : Z)
    {struct fuel} : M bool :=
  match fuel with
  | O => outOfFuel
  | S fuel =>
      if i <? mlen then
        b <- byteAt s i ;;
        g <- load gpn ;;
        let part := foldCase (icase g) b in
        cur <- load curnode ;;
        hit <- (if hasGlobChild cur then
                  match lookupChild cur globChar with
                  | Some v => globConsume fuel v s i mlen
                  | None => ret false
                  end
                else ret false) ;;
        if hit then ret true
        else
          cur <- load curnode ;;
          match oneShot cur with
          | Some o =>
              on <- load o ;;
              if nodeChar on =? globChar then ret false
              else if nodeChar on =? part
                   then checkPath_loop fuel gpn o s (i + 1) mlen
                   else ret false
          | None =>
              match lookupChild cur part with
              | Some v => checkPath_loop fuel gpn v s (i + 1) mlen
              | None => ret false
              end
          end
      else
        cur <- load curnode ;;
        ret (canMatch cur || isGlob cur)
  end
with globConsume (fuel : nat) (gpn : ptr) (s : list Z) (index mlen : Z)
    {struct fuel} : M bool :=
  match fuel with
  | O => outOfFuel
  | S fuel =>
      g <- load gpn ;;
      if canMatch g then ret true
      else
        let oneShotLookahead := bool_decide (oneShot g ≠ None) in
        globConsume_loop fuel gpn s index mlen oneShotLookahead oneShotLookahead
  end
with globConsume_loop (fuel : nat) (gpn : ptr) (s : list Z) (i mlen : Z)
    (oneShotLookahead oneShotStep : bool) {struct fuel} : M bool :=
  match fuel with
  | O => outOfFuel
  | S fuel =>
      if i <? mlen then
        b <- byteAt s i ;;
        g <- load gpn ;;
        let part := foldCase (icase g) b in
        let rest (oneShotStep : bool) : M bool :=
          cur <- load gpn ;;
          hit <- match lookupChild cur part with
                 | Some v => checkPath fuel v s (i + 1) mlen
                 | None => ret false
                 end ;;
          if hit then ret true
          else if i =? mlen - 1 then
            cur <- load gpn ;;
            ret (canMatch cur)
          else
            globConsume_loop fuel gpn s (i + 1) mlen oneShotLookahead
              (if oneShotLookahead then true else oneShotStep)
        in
        if oneShotStep then
          cur <- load gpn ;;
          match oneShot cur with
          | None => panic
          | Some o =>
              on <- load o ;;
              if negb (part =? nodeChar on)
              then globConsume_loop fuel gpn s (i + 1) mlen oneShotLookahead oneShotStep
              else rest false
          end
        else rest oneShotStep
      else ret false
  end.

(** The queries without the single-child fast path: every step is a keyed
    lookup in [subtrees]. *)
Fixpoint checkPath_keyed (fuel : nat) (gpn : ptr) (s : list Z) (index mlen : Z)
    {struct fuel} : M bool :=
  match fuel with
  | O => outOfFuel
  | S fuel => checkPath_keyed_loop fuel gpn gpn s index mlen
  end
with checkPath_keyed_loop (fuel : nat) (gpn curnode : ptr) (s : list Z) (i mlen : Z)
    {struct fuel} : M bool :=
  match fuel with
  | O => outOfFuel
  | S fuel =>
      if i <? mlen then
        b <- byteAt s i ;;
        g <- load gpn ;;
        let part := foldCase (icase g) b in
        cur <- load curnode ;;
        hit <- (if hasGlobChild cur then
                  match lookupChild cur globChar with
                  | Some v => globConsume_keyed fuel v s i mlen
                  | None => ret false
                  end
                else ret false) ;;
        if hit then ret true
        else
          cur <- load curnode ;;
          match lookupChild cur part with
          | Some v => checkPath_keyed_loop fuel gpn v s (i + 1) mlen
          | None => ret false
          end
      else
        cur <- load curnode ;;
        ret (canMatch cur || isGlob cur)
  end
with globConsume_keyed (fuel : nat) (gpn : ptr) (s : list Z) (index mlen : Z)
    {struct fuel} : M bool :=
  match fuel with
  | O => outOfFuel
  | S fuel =>
      g <- load gpn ;;
      if canMatch g then ret true
      else globConsume_keyed_loop fuel gpn s index mlen
  end
with globConsume_keyed_loop (fuel : nat) (gpn : ptr) (s : list Z) (i mlen : Z)
    {struct fuel} : M bool :=
  match fuel with
  | O => outOfFuel
  | S fuel =>
      if i <? mlen then
        b <- byteAt s i ;;
        g <- load gpn ;;
        let part := foldCase (icase g) b in
        cur <- load gpn ;;
        hit <- match lookupChild cur part with
               | Some v => checkPath_keyed fuel v s (i + 1) mlen
               | None => ret false
               end ;;
        if hit then ret true
        else if i =? mlen - 1 then
          cur <- load gpn ;;
          ret (canMatch cur)
        else globConsume_keyed_loop fuel gpn s (i + 1) mlen
      else ret false
  end.

(** A test program: make a trie, insert the patterns, query the candidate
    with the function [check]. *)
Fixpoint addPaths (r : ptr) (ps : list (list Z)) : M unit :=
  match ps with
  | [] => ret tt
  | p :: ps => addPath r p ;;; addPaths r ps
  end.

Definition makeTrie (ic : bool) (ps : list (list Z)) : M ptr :=
  r <- newGlobPathNode ic ;; addPaths r ps ;;; ret r.

Definition fuelFor (s : list Z) : nat := 4 * length s + 4.

Definition queryWith (check : nat -> ptr -> list Z -> Z -> Z -> M bool)
    (ic : bool) (ps : list (list Z)) (cand : list Z) : option bool :=
  match (r <- makeTrie ic ps ;;
         check (fuelFor cand) r cand 0 (Z.of_nat (length cand))) [] with
  | Done (b, _) => Some b
  | _ => None
  end.

Definition trieOf (ic : bool) (ps : list (list Z)) : heap :=
  match makeTrie ic ps [] with
  | Done (_, h) => h
  | _ => []
  end.

(** * Part II: the vocabulary of the proofs *)

(** A program that leaves the store as it is *)
Definition readonly {A} (m : M A) : Prop :=
  forall h a h', m h = Done (a, h') -> h' = h.

(** A program that does not run out of fuel *)
Definition terminates {A} (m : M A) : Prop := forall h, m h <> OutOfFuel.

(** The fuel that the four functions need at distance [mlen - i] from the
    end of the candidate. *)
Definition dist (i mlen : Z) : nat := Z.to_nat (mlen - i).

(** The key under which [addPath] files the byte [b] of a pattern *)
Definition keyOf (ic : bool) (b : Z) : Z :=
  let part := foldCase ic b in
  if part =? star then globChar else part.

Definition keys (ic : bool) (s : list Z) : list Z := List.map (keyOf ic) s.

(** Keyed descent from [p] along [t] *)
Fixpoint walk (h : heap) (p : ptr) (t : list Z) : option ptr :=
  match t with
  | [] => Some p
  | c :: t' =>
      match h !! p with
      | Some n =>
          match lookupChild n c with
          | Some q => walk h q t'
          | None => None
          end
      | None => None
      end
  end.

(** [t] leads from [r] to a node marked [canMatch] *)
Definition accepted (h : heap) (r : ptr) (t : list Z) : Prop :=
  exists q n, walk h r t = Some q /\ h !! q = Some n /\ canMatch n = true.

(** The [oneShot] pointer of a node against its [subtrees] map *)
Definition oneShot_ok (n : globPathNode) : Prop :=
  match subtrees n with
  | Some m =>
      match oneShot n with
      | Some q => exists c, m = {[c := q]}
      | None => size m <> 1%nat
      end
  | None => False
  end.

(** The invariant of a trie rooted at [r] whose nodes fill the store.
    [name p] is the sequence of keys from the root to [p]: the trie owns
    its nodes, there is no sharing and there are no cycles. *)
Record wf (ic : bool) (r : ptr) (name : ptr -> list Z) (h : heap) : Prop := {
  wf_root : (r < length h)%nat;
  wf_root_name : name r = [];
  wf_icase : forall p n, h !! p = Some n -> icase n = ic;
  wf_oneShot : forall p n, h !! p = Some n -> oneShot_ok n;
  wf_edge : forall p n c q, h !! p = Some n -> lookupChild n c = Some q ->
      (q < length h)%nat /\ name q = name p ++ [c];
  wf_nodeChar : forall p n c q nq, h !! p = Some n -> lookupChild n c = Some q ->
      h !! q = Some nq -> c <> globChar -> nodeChar nq = c;
  wf_reach : forall p, (p < length h)%nat -> walk h r (name p) = Some p
}.

(** No wildcard was ever inserted *)
Definition noglob (h : heap) : Prop :=
  forall p n, h !! p = Some n ->
    hasGlobChild n = false /\ isGlob n = false /\ lookupChild n globChar = None.

(** Every pointer held by a node points into the store *)
Definition closed (h : heap) : Prop :=
  forall p n, h !! p = Some n ->
    (forall c q, lookupChild n c = Some q -> (q < length h)%nat) /\
    (forall o, oneShot n = Some o -> (o < length h)%nat).

(** A trie made by [newGlobPathNode] and grown by successful calls of
    [addPath], with the patterns inserted so far. *)
Inductive built (ic : bool) : ptr -> heap -> list (list Z) -> Prop :=
| built_new r h :
    newGlobPathNode ic [] = Done (r, h) -> built ic r h []
| built_add r h h' ps s :
    built ic r h ps -> addPath r s h = Done (None, h') ->
    built ic r h' (ps ++ [s]).

Definition freshNode (ic : bool) : globPathNode :=
  GlobPathNode (Some ∅) None false false false 0 ic.

Definition edge (h : heap) (p : ptr) (c : Z) (q : ptr) : Prop :=
  exists n, h !! p = Some n /\ lookupChild n c = Some q.

(** A byte of a pattern that is neither the wildcard nor the sentinel *)
Definition plain (ic : bool) (b : Z) : Prop :=
  foldCase ic b <> star /\ foldCase ic b <> globChar.

(** A program that returns and leaves the store as it is *)
Definition runs {A} (h : heap) (m : M A) : Prop := exists a, m h = Done (a, h).

Definition has_oneShot (h : heap) (p : ptr) : Prop :=
  exists n o, h !! p = Some n /\ oneShot n = Some o.

(** The flag at the end of the keyed descent along [t] *)
Definition walkMatch (h : heap) (p : ptr) (t : list Z) : bool :=
  match walk h p t with
  | Some q => match h !! q with Some n => canMatch n | None => false end
  | None => false
  end.

(** Two strings that differ only in the case of ASCII letters *)
Definition sameCase (s s' : list Z) : Prop :=
  List.map (foldCase true) s = List.map (foldCase true) s'.

Definition all_icase (h : heap) : Prop :=
  forall p n, h !! p = Some n -> icase n = true.

(** Flags and edges that an insertion leaves in place *)
Definition grows (h h' : heap) : Prop :=
  forall p n, h !! p = Some n ->
    exists n', h' !! p = Some n' /\
      (canMatch n = true -> canMatch n' = true) /\
      (hasGlobChild n = true -> hasGlobChild n' = true) /\
      (forall c q, lookupChild n c = Some q -> lookupChild n' c = Some q).

(** [t] leads from [r] to a node with a wildcard child that ends a
    pattern *)
Definition globAccepted (h : heap) (r : ptr) (t : list Z) : Prop :=
  exists q n g ng, walk h r t = Some q /\ h !! q = Some n /\
    hasGlobChild n = true /\ lookupChild n globChar = Some g /\
    h !! g = Some ng /\ canMatch ng = true.

(** A byte of printable ASCII other than ['*'] *)
Definition literal (b : Z) : Prop := 32 <= b <= 126 /\ b <> star.

#[global] Instance literal_dec b : Decision (literal b).
Proof. unfold literal. apply _. Defined.

#[global] Instance plain_dec ic b : Decision (plain ic b).
Proof. unfold plain. apply _. Defined.

(** ** Wildcards, matching and insertion *)

(** A node flagged [hasGlobChild] has a child under [globChar], and that
    child is flagged [isGlob]. *)
Definition globFlags (h : heap) : Prop :=
  forall p n, h !! p = Some n -> hasGlobChild n = true ->
    exists g ng, lookupChild n globChar = Some g /\ h !! g = Some ng /\ isGlob ng = true.

(** The child under [globChar] is a wildcard: its parent is flagged
    [hasGlobChild], it is flagged [isGlob] and it carries ['*']. *)
Definition globKey (h : heap) : Prop :=
  forall p n g ng, h !! p = Some n -> lookupChild n globChar = Some g ->
    h !! g = Some ng ->
    hasGlobChild n = true /\ isGlob ng = true /\ nodeChar ng = star.

(** A pattern without the sentinel byte *)
Definition noSentinel (s : list Z) : Prop := Forall (fun b => b <> globChar) s.

(** [t] leads from [r] to a node flagged [hasGlobChild] *)
Definition globAt (h : heap) (r : ptr) (t : list Z) : Prop :=
  exists q n, walk h r t = Some q /\ h !! q = Some n /\ hasGlobChild n = true.

(** The pattern [p] hangs below [cur]: its keys lead to a node that ends a
    pattern, and the parent of every wildcard is flagged. *)
Fixpoint patternAt (ic : bool) (h : heap) (cur : ptr) (p : list Z) : Prop :=
  match p with
  | [] => exists n, h !! cur = Some n /\ canMatch n = true
  | b :: p' =>
      exists n v, h !! cur = Some n /\ lookupChild n (keyOf ic b) = Some v /\
        (b = star -> hasGlobChild n = true) /\ patternAt ic h v p'
  end.

(** What a pattern matches: a byte other than ['*'] and the sentinel
    stands for itself, up to case in a case-insensitive trie; a ['*'] at
    the end stands for one byte or more; a ['*'] before a byte that is not
    a ['*'] stands for any bytes, none included; a ['*'] before a ['*']
    matches nothing. *)
Inductive globMatches (ic : bool) : list Z -> list Z -> Prop :=
| gm_nil : globMatches ic [] []
| gm_byte b p c s :
    b <> star -> b <> globChar -> foldCase ic b = foldCase ic c ->
    globMatches ic p s -> globMatches ic (b :: p) (c :: s)
| gm_star_end x : x <> [] -> globMatches ic [star] x
| gm_star b p x s :
    b <> star -> globMatches ic (b :: p) s ->
    globMatches ic (star :: b :: p) (x ++ s).

(** The same as a function: the candidates are tried against the pattern
    byte by byte, every suffix of the candidate being tried after a
    ['*']. *)
Fixpoint globMatch (ic : bool) (p s : list Z) : bool :=
  match p with
  | [] => match s with [] => true | _ :: _ => false end
  | b :: p' =>
      if b =? star then
        match p' with
        | [] => match s with [] => false | _ :: _ => true end
        | b' :: _ =>
            if b' =? star then false
            else existsb (fun k => globMatch ic p' (drop k s)) (seq 0 (S (length s)))
        end
      else if b =? globChar then false
      else
        match s with
        | c :: s' => (foldCase ic b =? foldCase ic c) && globMatch ic p' s'
        | [] => false
        end
  end.

(** Every wildcard node ends a pattern. *)
Definition globLeaf (h : heap) : Prop :=
  forall p n, h !! p = Some n -> isGlob n = true -> canMatch n = true.

(** A pattern without the sentinel byte whose only ['*'], if any, is its
    last byte *)
Definition trailingOnly (s : list Z) : Prop :=
  Forall (fun b => b <> globChar) s /\ Forall (fun b => b <> star) (removelast s).

(** The descent of [checkPath] in a trie whose wildcards all end a pattern:
    a node with a wildcard child accepts whatever is left of the candidate,
    if anything is left. *)
Fixpoint trieMatch (h : heap) (cur : ptr) (t : list Z) : bool :=
  match h !! cur with
  | None => false
  | Some n =>
      match t with
      | [] => canMatch n
      | c :: t' =>
          hasGlobChild n ||
          match lookupChild n c with
          | Some v => trieMatch h v t'
          | None => false
          end
      end
  end.

(** A node flagged [isGlob] is the child of a node under [globChar]. *)
Definition globParent (h : heap) : Prop :=
  forall q nq, h !! q = Some nq -> isGlob nq = true ->
    exists p np, h !! p = Some np /\ lookupChild np globChar = Some q.

(** Some pattern that hangs below [cur] matches [t] *)
Definition covers (ic : bool) (h : heap) (cur : ptr) (t : list Z) : Prop :=
  exists p, patternAt ic h cur p /\ globMatches ic p t.

(** The same for a wildcard node, the wildcard counted in *)
Definition coversGlob (ic : bool) (h : heap) (G : ptr) (t : list Z) : Prop :=
  exists p, patternAt ic h G p /\ globMatches ic (star :: p) t.

(** The nodes and flags that [addPath] writes for [s] from [cur] are in
    place, and the path ends at [q]. *)
Fixpoint inserted (ic : bool) (h : heap) (cur : ptr) (s : list Z) (q : ptr) : Prop :=
  match s with
  | [] => cur = q
  | b :: s' =>
      exists ncur m v nv,
        h !! cur = Some ncur /\ subtrees ncur = Some m /\
        m !! keyOf ic b = Some v /\
        oneShot ncur = (if (size m =? 1)%nat then Some v else None) /\
        h !! v = Some nv /\ nodeChar nv = foldCase ic b /\
        (foldCase ic b = star -> hasGlobChild ncur = true /\ isGlob nv = true) /\
        v <> cur /\ inserted ic h v s' q
  end.

(** ** The signature codec *)

Section CodecModel.

(** Modelled from the spec: the keyed message authentication code, from
    the key and the message to the tag; the codec is not under src/. *)
Variable mac : list Z -> list Z -> list Z.

(** Modelled from the spec: the URL-safe encoding of the target URL and
    its decoder, which fails on a malformed encoding. *)
Variable enc : list Z -> list Z.
Variable dec : list Z -> option (list Z).

(** Modelled from the spec: the signed token, an ordered pair of the
    authentication tag and the encoded target URL. *)
Record token := Token { tokTag : list Z; tokBody : list Z }.

Inductive decodeError := MalformedToken | InvalidSignature.

(** Modelled from the spec: comparison of two tags in constant time, all
    bytes read whatever the outcome. *)
Definition ctEq (a b : list Z) : bool :=
  (length a =? length b)%nat &&
  (fold_left (fun acc xy => Z.lor acc (Z.lxor (fst xy) (snd xy))) (combine a b) 0 =? 0).

(** Modelled from the spec: [encode(key, targetURL) -> token], the tag
    computed over the key and the encoded URL bytes. *)
Definition encode (key url : list Z) : token :=
  let body := enc url in Token (mac key body) body.

(** Modelled from the spec: [decode(key, token) -> targetURL | error];
    a malformed encoding is rejected before the tags are compared. *)
Definition decode (key : list Z) (t : token) : decodeError + list Z :=
  match dec (tokBody t) with
  | None => inl MalformedToken
  | Some url =>
      if ctEq (tokTag t) (mac key (tokBody t)) then inr url
      else inl InvalidSignature
  end.

End CodecModel.

(** An instance: base16 in lower case over bytes. *)
Definition hexDigit (n : Z) : Z := if n <? 10 then 48 + n else 87 + n.

Definition unhexDigit (c : Z) : option Z :=
  if (48 <=? c) && (c <=? 57) then Some (c - 48)
  else if (97 <=? c) && (c <=? 102) then Some (c - 87)
  else None.

Fixpoint hexEncode (u : list Z) : list Z :=
  match u with
  | [] => []
  | b :: u => hexDigit (b / 16) :: hexDigit (b mod 16) :: hexEncode u
  end.

Fixpoint hexDecode (t : list Z) : option (list Z) :=
  match t with
  | [] => Some []
  | c1 :: c2 :: t' =>
      match unhexDigit c1, unhexDigit c2, hexDecode t' with
      | Some hi, Some lo, Some u => Some (16 * hi + lo :: u)
      | _, _, _ => None
      end
  | _ => None
  end.



(** * Part III: the proofs *)

(** ** Reasoning about the monad *)

Lemma bind_Done {A B} (m : M A) (k : A -> M B) h r :
  bind m k h = Done r <-> exists a h', m h = Done (a, h') /\ k a h' = Done r.
Proof.
  unfold bind. destruct (m h) as [[a h']| |]; split.
  - intros H. eauto.
  - intros (a0 & h0 & E & H). inversion E; subst. exact H.
  - discriminate.
  - intros (a0 & h0 & E & _). discriminate.
  - discriminate.
  - intros (a0 & h0 & E & _). discriminate.
Qed.

Lemma bind_run {A B} (m : M A) (k : A -> M B) h a h' :
  m h = Done (a, h') -> bind m k h = k a h'.
Proof. unfold bind. intros ->. reflexivity. Qed.

Lemma load_run h p n : h !! p = Some n -> load p h = Done (n, h).
Proof. unfold load. intros ->. reflexivity. Qed.

Lemma load_Done h p n h' : load p h = Done (n, h') -> h' = h /\ h !! p = Some n.
Proof. unfold load. destruct (h !! p); intros E; inversion E; subst; auto. Qed.

Lemma modify_run h p n f :
  h !! p = Some n -> modify p f h = Done (tt, <[p := f n]> h).
Proof. intros E. unfold modify, bind, load, store. rewrite E. simpl. rewrite E. reflexivity. Qed.

Lemma byteAt_run s i b h :
  0 <= i -> s !! Z.to_nat i = Some b -> byteAt s i h = Done (b, h).
Proof.
  intros Hi E. unfold byteAt. destruct (Z.ltb_spec i 0); [lia|]. rewrite E. reflexivity.
Qed.

(** ** Queries leave the store as it is *)

Lemma readonly_ret {A} (a : A) : readonly (ret a).
Proof. intros h a' h' E. inversion E. reflexivity. Qed.

Lemma readonly_panic {A} : readonly (@panic A).
Proof. intros h a h' E. discriminate. Qed.

Lemma readonly_timeout {A} : readonly (@outOfFuel A).
Proof. intros h a h' E. discriminate. Qed.

Lemma readonly_load p : readonly (load p).
Proof. intros h a h' E. apply load_Done in E. tauto. Qed.

Lemma readonly_byteAt s i : readonly (byteAt s i).
Proof.
  unfold byteAt. destruct (i <? 0); [apply readonly_panic|].
  destruct (s !! Z.to_nat i); [apply readonly_ret | apply readonly_panic].
Qed.

Lemma readonly_bind {A B} (m : M A) (k : A -> M B) :
  readonly m -> (forall a, readonly (k a)) -> readonly (bind m k).
Proof.
  intros Hm Hk h b h' E. apply bind_Done in E as (a & h1 & E1 & E2).
  apply Hm in E1. subst h1. eapply Hk; eauto.
Qed.

Create HintDb ro.

#[local] Hint Resolve readonly_ret readonly_panic readonly_timeout readonly_load
  readonly_byteAt : ro.

Ltac ro_step :=
  match goal with
  | |- readonly (bind _ _) => apply readonly_bind; [| intros ?]
  | |- readonly (if ?b then _ else _) => destruct b
  | |- readonly (match ?o with Some _ => _ | None => _ end) => destruct o
  | |- readonly _ => solve [auto with ro]
  end.

Lemma queries_keep_store fuel :
  (forall gpn s i mlen, readonly (checkPath fuel gpn s i mlen)) /\
  (forall gpn cur s i mlen, readonly (checkPath_loop fuel gpn cur s i mlen)) /\
  (forall gpn s i mlen, readonly (globConsume fuel gpn s i mlen)) /\
  (forall gpn s i mlen la st, readonly (globConsume_loop fuel gpn s i mlen la st)).
Proof.
  induction fuel as [|fuel (IH1 & IH2 & IH3 & IH4)].
  - repeat split; intros; simpl; auto with ro.
  - repeat split; intros; simpl.
    + apply IH2.
    + repeat ro_step; auto.
    + repeat ro_step; auto.
    + repeat ro_step; auto.
Qed.

(** ** Queries do not run out of fuel *)

Lemma terminates_ret {A} (a : A) : terminates (ret a).
Proof. intros h. discriminate. Qed.

Lemma terminates_panic {A} : terminates (@panic A).
Proof. intros h. discriminate. Qed.

Lemma terminates_load p : terminates (load p).
Proof. intros h. unfold load. destruct (h !! p); discriminate. Qed.

Lemma terminates_byteAt s i : terminates (byteAt s i).
Proof.
  unfold byteAt. destruct (i <? 0); [apply terminates_panic|].
  destruct (s !! Z.to_nat i); [apply terminates_ret | apply terminates_panic].
Qed.

Lemma terminates_bind {A B} (m : M A) (k : A -> M B) :
  terminates m -> (forall a, terminates (k a)) -> terminates (bind m k).
Proof.
  intros Hm Hk h. unfold bind. specialize (Hm h).
  destruct (m h) as [[a h']| |]; [apply Hk | discriminate | congruence].
Qed.

Create HintDb tm.

#[local] Hint Resolve terminates_ret terminates_panic terminates_load
  terminates_byteAt : tm.

Ltac tm_step :=
  match goal with
  | |- terminates (bind _ _) => apply terminates_bind; [| intros ?]
  | |- terminates (if ?b then _ else _) => destruct b eqn:?
  | |- terminates (match ?o with Some _ => _ | None => _ end) => destruct o
  | |- terminates _ => solve [auto with tm]
  end.

Lemma queries_fuel_bound fuel :
  (forall gpn s i mlen, (4 * dist i mlen + 4 <= fuel)%nat ->
     terminates (checkPath fuel gpn s i mlen)) /\
  (forall gpn cur s i mlen, (4 * dist i mlen + 3 <= fuel)%nat ->
     terminates (checkPath_loop fuel gpn cur s i mlen)) /\
  (forall gpn s i mlen, (4 * dist i mlen + 2 <= fuel)%nat ->
     terminates (globConsume fuel gpn s i mlen)) /\
  (forall gpn s i mlen la st, (4 * dist i mlen + 1 <= fuel)%nat ->
     terminates (globConsume_loop fuel gpn s i mlen la st)).
Proof.
  unfold dist. induction fuel as [|fuel (IH1 & IH2 & IH3 & IH4)].
  - repeat split; intros; lia.
  - repeat split; intros; simpl.
    + apply IH2. lia.
    + repeat tm_step; try (apply IH3; lia); apply IH2; lia.
    + repeat tm_step. apply IH4. lia.
    + repeat tm_step; try (apply IH1; lia); apply IH4; lia.
Qed.

(** ** Keyed descent *)

Lemma walk_cons h p c t :
  walk h p (c :: t) =
  match h !! p with
  | Some n => match lookupChild n c with Some q => walk h q t | None => None end
  | None => None
  end.
Proof. reflexivity. Qed.

Lemma walk_app h p t1 t2 :
  walk h p (t1 ++ t2) = match walk h p t1 with Some q => walk h q t2 | None => None end.
Proof.
  revert p. induction t1 as [|c t1 IH]; intros p; [reflexivity|].
  rewrite <- app_comm_cons, !walk_cons.
  destruct (h !! p) as [n|]; [|reflexivity].
  destruct (lookupChild n c); [apply IH | reflexivity].
Qed.

Lemma walk_name ic r name h p t q :
  wf ic r name h -> (p < length h)%nat -> walk h p t = Some q ->
  (q < length h)%nat /\ name q = name p ++ t.
Proof.
  intros W. revert p. induction t as [|c t IH]; intros p Hp E.
  - inversion E; subst. rewrite List.app_nil_r. auto.
  - rewrite walk_cons in E.
    destruct (h !! p) as [n|] eqn:En; [|discriminate].
    destruct (lookupChild n c) as [q'|] eqn:Ec; [|discriminate].
    destruct (wf_edge _ _ _ _ W _ _ _ _ En Ec) as [Hq' Hn].
    destruct (IH _ Hq' E) as [Hq Hnq]. split; [exact Hq|].
    rewrite Hnq, Hn, <- app_assoc. reflexivity.
Qed.

(** ** One iteration of [addPath] *)

Lemma modify_spec h p n f :
  h !! p = Some n ->
  exists h', modify p f h = Done (tt, h') /\ length h' = length h /\
    h' !! p = Some (f n) /\ (forall q, q <> p -> h' !! q = h !! q).
Proof.
  intros E. exists (<[p := f n]> h). split; [apply modify_run; exact E|].
  pose proof (lookup_lt_Some _ _ _ E) as Hp.
  split; [apply length_insert|]. split; [apply list_lookup_insert_eq; exact Hp|].
  intros q Hq. apply list_lookup_insert_ne. congruence.
Qed.

Lemma step_tail h cur v ncur nv part o :
  h !! cur = Some ncur -> h !! v = Some nv -> v <> cur ->
  exists h',
    (modify v (set_nodeChar part) ;;;
     modify cur (set_oneShot o) ;;;
     (if part =? star
      then modify cur (set_hasGlobChild true) ;;; modify v (set_isGlob true)
      else ret tt) ;;;
     ret v) h = Done (v, h') /\
    length h' = length h /\
    h' !! cur = Some (GlobPathNode (subtrees ncur) o (isGlob ncur) (canMatch ncur)
                        (hasGlobChild ncur || (part =? star))
                        (nodeChar ncur) (icase ncur)) /\
    h' !! v = Some (GlobPathNode (subtrees nv) (oneShot nv)
                      (isGlob nv || (part =? star)) (canMatch nv)
                      (hasGlobChild nv) part (icase nv)) /\
    (forall p, p <> cur -> p <> v -> h' !! p = h !! p).
Proof.
  intros Ecur Ev Hne.
  destruct (modify_spec h v nv (set_nodeChar part) Ev) as (h1 & R1 & L1 & P1 & O1).
  rewrite (bind_run _ _ _ _ _ R1).
  assert (Ecur1 : h1 !! cur = Some ncur) by (rewrite O1; auto).
  destruct (modify_spec h1 cur ncur (set_oneShot o) Ecur1) as (h2 & R2 & L2 & P2 & O2).
  rewrite (bind_run _ _ _ _ _ R2).
  assert (Ev2 : h2 !! v = Some (set_nodeChar part nv)) by (rewrite O2; auto).
  destruct (part =? star) eqn:Est.
  - destruct (modify_spec h2 cur _ (set_hasGlobChild true) P2) as (h3 & R3 & L3 & P3 & O3).
    assert (Ev3 : h3 !! v = Some (set_nodeChar part nv)) by (rewrite O3; auto).
    destruct (modify_spec h3 v _ (set_isGlob true) Ev3) as (h4 & R4 & L4 & P4 & O4).
    exists h4. unfold bind at 1. unfold bind at 1. rewrite R3, R4. simpl.
    split; [reflexivity|]. split; [congruence|].
    split; [rewrite O4, P3 by auto; unfold set_hasGlobChild, set_oneShot; simpl;
            rewrite orb_true_r; reflexivity|].
    split; [rewrite P4; unfold set_isGlob, set_nodeChar; simpl;
            rewrite orb_true_r; reflexivity|].
    intros p Hp1 Hp2. rewrite O4, O3, O2, O1 by auto. reflexivity.
  - exists h2. split; [reflexivity|]. split; [congruence|].
    split; [rewrite P2; unfold set_oneShot; simpl; rewrite orb_false_r; reflexivity|].
    split; [rewrite Ev2; unfold set_nodeChar; simpl; rewrite orb_false_r; reflexivity|].
    intros p Hp1 Hp2. rewrite O2, O1 by auto. reflexivity.
Qed.

Lemma addPath_step_effect ic r name h cur ncur subt b :
  wf ic r name h -> h !! cur = Some ncur -> subtrees ncur = Some subt ->
  let part := foldCase ic b in
  let c := keyOf ic b in
  exists v h',
    addPath_step r cur b h = Done (v, h') /\
    v <> cur /\
    ((subt !! c = Some v /\ length h' = length h) \/
     (subt !! c = None /\ v = length h /\ length h' = S (length h))) /\
    h' !! cur = Some (GlobPathNode (Some (<[c:=v]> subt))
                        (if (size (<[c:=v]> subt) =? 1)%nat then Some v else None)
                        (isGlob ncur) (canMatch ncur)
                        (hasGlobChild ncur || (part =? star))
                        (nodeChar ncur) (icase ncur)) /\
    h' !! v = Some (let nv := default (freshNode ic) (h !! v) in
                    GlobPathNode (subtrees nv) (oneShot nv)
                      (isGlob nv || (part =? star)) (canMatch nv)
                      (hasGlobChild nv) part (icase nv)) /\
    (forall p, p <> cur -> p <> v -> h' !! p = h !! p).
Proof.
  intros W Ecur Esub part c.
  destruct (lookup_lt_is_Some_2 h r (wf_root _ _ _ _ W)) as [g Eg].
  pose proof (wf_icase _ _ _ _ W _ _ Eg) as Hic.
  unfold addPath_step.
  rewrite (bind_run _ _ _ _ _ (load_run _ _ _ Eg)). rewrite Hic.
  rewrite (bind_run _ _ _ _ _ (load_run _ _ _ Ecur)). rewrite Esub.
  fold part. change (if part =? star then globChar else part) with c.
  destruct (subt !! c) as [v|] eqn:Ev.
  - (* the child exists *)
    assert (Hedge : lookupChild ncur c = Some v) by (unfold lookupChild; rewrite Esub; exact Ev).
    destruct (wf_edge _ _ _ _ W _ _ _ _ Ecur Hedge) as [Hv Hname].
    assert (Hne : v <> cur).
    { intros ->. apply (f_equal length) in Hname. rewrite length_app in Hname. simpl in Hname. lia. }
    destruct (lookup_lt_is_Some_2 h v Hv) as [nv Env].
    exists v.
    rewrite (bind_run _ _ _ _ _ (eq_refl : ret (v, subt) h = Done ((v, subt), h))).
    destruct (step_tail h cur v ncur nv part
                (if (size subt =? 1)%nat then Some v else None) Ecur Env Hne)
      as (h' & R & L & Pc & Pv & O).
    exists h'. split; [exact R|]. split; [exact Hne|]. split; [left; auto|].
    rewrite (insert_id subt c v Ev), Env. simpl. rewrite <- Esub. auto.
  - (* a new child *)
    set (v := length h).
    set (h0 := h ++ [freshNode ic]).
    pose proof (lookup_lt_Some _ _ _ Ecur) as Hcur.
    assert (Hne : v <> cur) by (unfold v; lia).
    assert (Ecur0 : h0 !! cur = Some ncur) by (unfold h0; rewrite lookup_app_l; auto).
    assert (Ev0 : h0 !! v = Some (freshNode ic)).
    { unfold h0, v. rewrite lookup_app_r by lia. rewrite Nat.sub_diag. reflexivity. }
    destruct (modify_spec h0 cur ncur (set_subtrees (Some (<[c:=v]> subt))) Ecur0)
      as (h1 & R1 & L1 & P1 & O1).
    assert (Ev1 : h1 !! v = Some (freshNode ic)) by (rewrite O1; auto).
    destruct (step_tail h1 cur v _ _ part
                (if (size (<[c:=v]> subt) =? 1)%nat then Some v else None) P1 Ev1 Hne)
      as (h' & R & L & Pc & Pv & O).
    exists v, h'. split.
    { match goal with
      | |- bind ?m _ _ = _ =>
          assert (Hin : m h = Done ((v, <[c:=v]> subt), h1))
      end.
      { rewrite (bind_run _ _ _ _ _ (load_run _ _ _ Eg)). rewrite Hic.
        unfold newGlobPathNode, alloc. unfold bind at 1. fold v.
        fold (freshNode ic). fold h0.
        rewrite (bind_run _ _ _ _ _ R1). reflexivity. }
      rewrite (bind_run _ _ _ _ _ Hin). exact R. }
    split; [exact Hne|]. split.
    { right. split; [reflexivity|]. split; [reflexivity|].
      rewrite L, L1. unfold h0. rewrite length_app. simpl. lia. }
    split; [exact Pc|]. split.
    { rewrite Pv. assert (Hnone : h !! v = None) by (apply lookup_ge_None_2; unfold v; lia).
      rewrite Hnone. reflexivity. }
    intros p Hp1 Hp2. rewrite O, O1 by auto. unfold h0.
    destruct (decide (p < length h)%nat) as [Hlt|Hge].
    + rewrite lookup_app_l by lia. reflexivity.
    + rewrite (lookup_ge_None_2 h p) by lia. apply lookup_ge_None_2.
      rewrite length_app. simpl. unfold v in Hp2. lia.
Qed.

(** ** An iteration of [addPath] keeps the invariant *)

Lemma size_insert_1 (m : gmap Z nat) c v :
  size (<[c:=v]> m) = 1%nat -> <[c:=v]> m = {[c:=v]}.
Proof.
  intros Hs. rewrite <- insert_delete_eq in Hs |- *.
  rewrite map_size_insert_None in Hs by apply lookup_delete_eq.
  assert (delete c m = ∅) as -> by (apply map_size_empty_inv; lia).
  apply insert_empty.
Qed.

Lemma walk_mono h h' p t q :
  (forall p c q, edge h p c q -> edge h' p c q) ->
  walk h p t = Some q -> walk h' p t = Some q.
Proof.
  intros Hm. revert p. induction t as [|c t IH]; intros p E; [exact E|].
  rewrite walk_cons in E |- *.
  destruct (h !! p) as [n|] eqn:En; [|discriminate].
  destruct (lookupChild n c) as [q'|] eqn:Ec; [|discriminate].
  destruct (Hm p c q') as (n' & En' & Ec'); [exists n; auto|].
  rewrite En', Ec'. apply IH. exact E.
Qed.

Lemma keyOf_not_glob ic b : keyOf ic b <> globChar -> keyOf ic b = foldCase ic b.
Proof.
  unfold keyOf. destruct (foldCase ic b =? star); congruence.
Qed.

Lemma addPath_step_wf ic r name h cur b :
  wf ic r name h -> (cur < length h)%nat ->
  exists v h' name',
    addPath_step r cur b h = Done (v, h') /\
    wf ic r name' h' /\
    (length h <= length h')%nat /\
    (v < length h')%nat /\
    (forall p, (p < length h)%nat -> name' p = name p) /\
    name' v = name cur ++ [keyOf ic b] /\
    (forall p n, h !! p = Some n ->
       exists n', h' !! p = Some n' /\ canMatch n' = canMatch n) /\
    (forall p n', h' !! p = Some n' -> (length h <= p)%nat -> canMatch n' = false) /\
    (noglob h -> foldCase ic b <> star -> foldCase ic b <> globChar -> noglob h').
Proof.
  intros W Hcur.
  destruct (lookup_lt_is_Some_2 h cur Hcur) as [ncur Ecur].
  pose proof (wf_oneShot _ _ _ _ W _ _ Ecur) as Hos.
  unfold oneShot_ok in Hos. destruct (subtrees ncur) as [subt|] eqn:Esub; [|contradiction].
  destruct (addPath_step_effect ic r name h cur ncur subt b W Ecur Esub)
    as (v & h' & R & Hne & Hcase & Pc & Pv & O).
  set (part := foldCase ic b) in *. set (c := keyOf ic b) in *.
  set (name' := fun p => if decide (p = v) then name cur ++ [c] else name p).
  assert (Hlen : (length h <= length h')%nat) by (destruct Hcase as [[_ ?]|(_ & _ & ?)]; lia).
  assert (Hv' : (v < length h')%nat) by (apply lookup_lt_Some in Pv; exact Pv).
  assert (Hold : forall p, (p < length h)%nat -> name' p = name p).
  { intros p Hp. unfold name'. destruct (decide (p = v)) as [->|]; [|reflexivity].
    destruct Hcase as [[Ev _]|(_ & -> & _)]; [|lia].
    symmetry. eapply (wf_edge _ _ _ _ W); [exact Ecur|].
    unfold lookupChild. rewrite Esub. exact Ev. }
  assert (Hnv : name' v = name cur ++ [c]).
  { unfold name'. destruct (decide (v = v)); [reflexivity|congruence]. }
  assert (Hvcases : (exists nv, h !! v = Some nv /\ subt !! c = Some v) \/
                    (h !! v = None /\ v = length h /\ subt !! c = None)).
  { destruct Hcase as [[Ev _]|(Ev & -> & _)].
    - left. assert (Hvl : (v < length h)%nat).
      { eapply (wf_edge _ _ _ _ W); [exact Ecur|]. unfold lookupChild. rewrite Esub. exact Ev. }
      destruct (lookup_lt_is_Some_2 h v Hvl) as [nv Env]. eauto.
    - right. split; [apply lookup_ge_None_2; lia|]. auto. }
  (* nodes of the new store *)
  assert (Hnodes : forall p n', h' !! p = Some n' ->
            (p = cur /\ subtrees n' = Some (<[c:=v]> subt) /\
               oneShot n' = (if (size (<[c:=v]> subt) =? 1)%nat then Some v else None) /\
               isGlob n' = isGlob ncur /\ canMatch n' = canMatch ncur /\
               hasGlobChild n' = hasGlobChild ncur || (part =? star) /\
               nodeChar n' = nodeChar ncur /\ icase n' = icase ncur) \/
            (p = v /\ exists nv, (h !! v = Some nv \/ (h !! v = None /\ nv = freshNode ic)) /\
               subtrees n' = subtrees nv /\ oneShot n' = oneShot nv /\
               isGlob n' = isGlob nv || (part =? star) /\ canMatch n' = canMatch nv /\
               hasGlobChild n' = hasGlobChild nv /\ nodeChar n' = part /\
               icase n' = icase nv) \/
            (p <> cur /\ p <> v /\ h !! p = Some n')).
  { intros p n' E. destruct (decide (p = cur)) as [->|Hpc].
    - left. rewrite Pc in E. inversion E; subst n'. simpl. tauto.
    - destruct (decide (p = v)) as [->|Hpv].
      + right; left. split; [reflexivity|]. rewrite Pv in E. inversion E; subst n'.
        destruct (h !! v) as [nv|] eqn:Env.
        * exists nv. simpl. tauto.
        * exists (freshNode ic). simpl. tauto.
      + right; right. rewrite O in E by auto. auto. }
  (* edges of the new store *)
  assert (Hedge_inv : forall p c' q, edge h' p c' q ->
            (p = cur /\ c' = c /\ q = v) \/ edge h p c' q).
  { intros p c' q (n' & En' & Ec').
    destruct (Hnodes _ _ En') as [(-> & Hs & _)|[(-> & nv & Hnv' & Hs & _)|(Hp1 & Hp2 & Eh)]].
    - unfold lookupChild in Ec'. rewrite Hs in Ec'.
      destruct (decide (c' = c)) as [->|Hc].
      + rewrite lookup_insert_eq in Ec'. inversion Ec'. auto.
      + rewrite lookup_insert_ne in Ec' by congruence. right. exists ncur. split; [exact Ecur|].
        unfold lookupChild. rewrite Esub. exact Ec'.
    - right. destruct Hnv' as [Env|[_ ->]].
      + exists nv. split; [exact Env|]. unfold lookupChild in *. rewrite <- Hs. exact Ec'.
      + unfold lookupChild in Ec'. rewrite Hs in Ec'. simpl in Ec'.
        rewrite lookup_empty in Ec'. discriminate.
    - right. exists n'. auto. }
  assert (Hedge_new : edge h' cur c v).
  { eexists. split; [exact Pc|]. unfold lookupChild. simpl. apply lookup_insert_eq. }
  assert (Hedge_mono : forall p c' q, edge h p c' q -> edge h' p c' q).
  { intros p c' q (n & En & Ec).
    destruct (decide (p = cur)) as [->|Hpc].
    - rewrite Ecur in En. inversion En; subst n.
      eexists. split; [exact Pc|]. unfold lookupChild in *. simpl. rewrite Esub in Ec.
      destruct (decide (c' = c)) as [->|Hc].
      + destruct Hvcases as [(nv & _ & Ev)|(_ & _ & Ev)]; rewrite Ev in Ec; [|discriminate].
        inversion Ec; subst. apply lookup_insert_eq.
      + rewrite lookup_insert_ne by congruence. exact Ec.
    - destruct (decide (p = v)) as [->|Hpv].
      + eexists. split; [exact Pv|]. rewrite En. exact Ec.
      + exists n. rewrite O by auto. auto. }
  assert (Hrv : r <> v).
  { intros <-. destruct Hvcases as [(nv & _ & Ev)|(_ & -> & _)].
    - assert (Hn : name r = name cur ++ [c]).
      { eapply (wf_edge _ _ _ _ W); [exact Ecur|]. unfold lookupChild. rewrite Esub. exact Ev. }
      rewrite (wf_root_name _ _ _ _ W) in Hn. destruct (name cur); discriminate.
    - pose proof (wf_root _ _ _ _ W). lia. }
  exists v, h', name'. split; [exact R|]. split.
  { constructor.
    - pose proof (wf_root _ _ _ _ W). lia.
    - unfold name'. destruct (decide (r = v)); [contradiction|]. apply (wf_root_name _ _ _ _ W).
    - intros p n' E.
      destruct (Hnodes _ _ E) as [(-> & H1)|[(-> & nv & Hnv' & H1)|(Hp1 & Hp2 & Eh)]].
      + destruct H1 as (_ & _ & _ & _ & _ & _ & ->). apply (wf_icase _ _ _ _ W _ _ Ecur).
      + destruct H1 as (_ & _ & _ & _ & _ & _ & ->). destruct Hnv' as [Env|[_ ->]].
        * apply (wf_icase _ _ _ _ W _ _ Env).
        * reflexivity.
      + apply (wf_icase _ _ _ _ W _ _ Eh).
    - intros p n' E. unfold oneShot_ok.
      destruct (Hnodes _ _ E) as [(-> & H1)|[(-> & nv & Hnv' & H1)|(Hp1 & Hp2 & Eh)]].
      + destruct H1 as (-> & -> & _).
        destruct (Nat.eqb_spec (size (<[c:=v]> subt)) 1) as [Hs|Hs]; [|exact Hs].
        exists c. apply size_insert_1. exact Hs.
      + destruct H1 as (-> & -> & _). destruct Hnv' as [Env|[_ ->]].
        * apply (wf_oneShot _ _ _ _ W _ _ Env).
        * simpl. rewrite map_size_empty. lia.
      + apply (wf_oneShot _ _ _ _ W _ _ Eh).
    - intros p n' c' q E Ec.
      destruct (Hedge_inv p c' q) as [(-> & -> & ->)|(n & En & Ecn)]; [exists n'; auto| |].
      + split; [exact Hv'|]. rewrite Hnv, (Hold cur Hcur). reflexivity.
      + destruct (wf_edge _ _ _ _ W _ _ _ _ En Ecn) as [Hq Hn].
        split; [lia|]. rewrite (Hold q Hq), (Hold p (lookup_lt_Some _ _ _ En)). exact Hn.
    - intros p n' c' q nq' E Ec Eq Hc'.
      assert (Hkey : q = v -> c' = c).
      { intros ->. destruct (Hedge_inv p c' v) as [(_ & -> & _)|(n & En & Ecn)];
          [exists n'; auto|reflexivity|].
        destruct (wf_edge _ _ _ _ W _ _ _ _ En Ecn) as [Hq Hn].
        destruct Hvcases as [(nv & _ & Ev)|(_ & -> & _)]; [|lia].
        assert (Hn2 : name v = name cur ++ [c]).
        { eapply (wf_edge _ _ _ _ W); [exact Ecur|]. unfold lookupChild. rewrite Esub. exact Ev. }
        rewrite Hn2 in Hn. apply app_inj_tail in Hn. destruct Hn as [_ Hn]. congruence. }
      destruct (Hnodes _ _ Eq) as [(-> & H1)|[(-> & nv & Hnv' & H1)|(Hq1 & Hq2 & Eh)]].
      + destruct H1 as (_ & _ & _ & _ & _ & -> & _).
        destruct (Hedge_inv p c' cur) as [(_ & _ & Hx)|(n & En & Ecn)]; [exists n'; auto|congruence|].
        apply (wf_nodeChar _ _ _ _ W _ _ _ _ _ En Ecn Ecur Hc').
      + destruct H1 as (_ & _ & _ & _ & _ & -> & _).
        rewrite (Hkey eq_refl) in Hc' |- *. symmetry. apply keyOf_not_glob. exact Hc'.
      + destruct (Hedge_inv p c' q) as [(_ & _ & Hx)|(n & En & Ecn)]; [exists n'; auto|congruence|].
        apply (wf_nodeChar _ _ _ _ W _ _ _ _ _ En Ecn Eh Hc').
    - intros p Hp. destruct (decide (p < length h)%nat) as [Hlt|Hge].
      + rewrite (Hold p Hlt). apply (walk_mono h h'); [exact Hedge_mono|].
        apply (wf_reach _ _ _ _ W). exact Hlt.
      + assert (p = v) as ->.
        { destruct Hcase as [[_ Hl]|(_ & -> & Hl)]; lia. }
        rewrite Hnv, walk_app.
        rewrite (walk_mono h h' r (name cur) cur Hedge_mono (wf_reach _ _ _ _ W cur Hcur)).
        rewrite walk_cons. destruct Hedge_new as (n & -> & ->). reflexivity. }
  split; [exact Hlen|]. split; [exact Hv'|]. split; [exact Hold|]. split; [exact Hnv|].
  split.
  { intros p n En. destruct (decide (p = cur)) as [->|Hpc].
    - rewrite Ecur in En. inversion En; subst n. eexists. split; [exact Pc|]. reflexivity.
    - destruct (decide (p = v)) as [->|Hpv].
      + eexists. split; [exact Pv|]. rewrite En. reflexivity.
      + exists n. rewrite O by auto. auto. }
  split.
  { intros p n' E Hp.
    destruct (Hnodes _ _ E) as [(-> & H1)|[(-> & nv & Hnv' & H1)|(Hp1 & Hp2 & Eh)]].
    - lia.
    - destruct H1 as (_ & _ & _ & -> & _). destruct Hnv' as [Env|[_ ->]]; [|reflexivity].
      apply lookup_lt_Some in Env. lia.
    - apply lookup_lt_Some in Eh. lia. }
  intros Hng Hstar Hglob.
  assert (Hps : (part =? star) = false) by (apply Z.eqb_neq; exact Hstar).
  assert (Hcp : c = part) by (unfold c, keyOf; fold part; rewrite Hps; reflexivity).
  intros p n' E.
  destruct (Hnodes _ _ E) as [(-> & H1)|[(-> & nv & Hnv' & H1)|(Hp1 & Hp2 & Eh)]].
  - destruct H1 as (Hs & _ & -> & _ & -> & _).
    destruct (Hng _ _ Ecur) as (-> & -> & Hl). rewrite Hps. split; [reflexivity|].
    split; [reflexivity|]. unfold lookupChild in *. rewrite Hs. rewrite Esub in Hl.
    rewrite lookup_insert_ne; [exact Hl|]. rewrite Hcp. exact Hglob.
  - destruct H1 as (Hs & _ & -> & _ & -> & _). rewrite Hps. unfold lookupChild. rewrite Hs.
    destruct Hnv' as [Env|[_ ->]].
    + destruct (Hng _ _ Env) as (-> & -> & Hl). unfold lookupChild in Hl. auto.
    + simpl. auto.
  - apply (Hng _ _ Eh).
Qed.

(** ** [addPath] keeps the invariant *)

Lemma addPath_loop_wf ic r s : forall name h cur,
  wf ic r name h -> (cur < length h)%nat ->
  exists q h' name',
    addPath_loop r cur s h = Done (q, h') /\
    wf ic r name' h' /\
    (length h <= length h')%nat /\
    (q < length h')%nat /\
    (forall p, (p < length h)%nat -> name' p = name p) /\
    name' q = name cur ++ keys ic s /\
    (forall p n, h !! p = Some n ->
       exists n', h' !! p = Some n' /\ canMatch n' = canMatch n) /\
    (forall p n', h' !! p = Some n' -> (length h <= p)%nat -> canMatch n' = false) /\
    (noglob h -> Forall (plain ic) s -> noglob h').
Proof.
  induction s as [|b s IH]; intros name h cur W Hcur.
  - exists cur, h, name. simpl. rewrite List.app_nil_r.
    split; [reflexivity|]. split; [exact W|]. split; [lia|]. split; [exact Hcur|].
    split; [reflexivity|]. split; [reflexivity|]. split; [intros p n E; eauto|].
    split; [|auto]. intros p n' E Hp. apply lookup_lt_Some in E. lia.
  - destruct (addPath_step_wf ic r name h cur b W Hcur)
      as (v & h1 & name1 & R1 & W1 & L1 & Hv1 & Hold1 & Hn1 & Hcm1 & Hnew1 & Hng1).
    destruct (IH name1 h1 v W1 Hv1)
      as (q & h2 & name2 & R2 & W2 & L2 & Hq2 & Hold2 & Hn2 & Hcm2 & Hnew2 & Hng2).
    exists q, h2, name2. split.
    { simpl. rewrite (bind_run _ _ _ _ _ R1). exact R2. }
    split; [exact W2|]. split; [lia|]. split; [exact Hq2|]. split.
    { intros p Hp. rewrite Hold2 by lia. apply Hold1. exact Hp. }
    split.
    { rewrite Hn2, Hn1. simpl. rewrite <- app_assoc. reflexivity. }
    split.
    { intros p n E. destruct (Hcm1 _ _ E) as (n1 & E1 & C1).
      destruct (Hcm2 _ _ E1) as (n2 & E2 & C2). exists n2. split; [exact E2|congruence]. }
    split.
    { intros p n' E Hp. destruct (decide (length h1 <= p)%nat) as [Hge|Hlt].
      - apply (Hnew2 _ _ E Hge).
      - destruct (lookup_lt_is_Some_2 h1 p ltac:(lia)) as [n1 E1].
        destruct (Hcm2 _ _ E1) as (n2 & E2 & C2). rewrite E in E2. inversion E2; subst n2.
        rewrite C2. apply (Hnew1 _ _ E1 Hp). }
    intros Hng Hall. apply Forall_cons in Hall. destruct Hall as [[Hb1 Hb2] Hall'].
    apply Hng2; [apply Hng1; auto|exact Hall'].
Qed.

Lemma accepted_name ic r name h t :
  wf ic r name h ->
  accepted h r t <->
  exists q n, h !! q = Some n /\ name q = t /\ canMatch n = true.
Proof.
  intros W. split.
  - intros (q & n & Hw & En & Hc). exists q, n. split; [exact En|]. split; [|exact Hc].
    destruct (walk_name ic r name h r t q W (wf_root _ _ _ _ W) Hw) as [_ Hn].
    rewrite Hn, (wf_root_name _ _ _ _ W). reflexivity.
  - intros (q & n & En & Hn & Hc). exists q, n. split; [|auto].
    rewrite <- Hn. apply (wf_reach _ _ _ _ W). apply lookup_lt_Some in En. exact En.
Qed.

(** Writing only the flags of a node keeps the invariants. *)
Lemma wf_set_canMatch ic r name h q n :
  wf ic r name h -> h !! q = Some n ->
  wf ic r name (<[q := set_canMatch true n]> h).
Proof.
  intros W Eq.
  pose proof (lookup_lt_Some _ _ _ Eq) as Hq.
  assert (Hn : forall p n', <[q := set_canMatch true n]> h !! p = Some n' ->
            exists n0, h !! p = Some n0 /\ subtrees n' = subtrees n0 /\
              oneShot n' = oneShot n0 /\ nodeChar n' = nodeChar n0 /\ icase n' = icase n0).
  { intros p n' E. destruct (decide (p = q)) as [->|Hpq].
    - rewrite list_lookup_insert_eq in E by exact Hq. inversion E; subst n'.
      exists n. simpl. auto.
    - rewrite list_lookup_insert_ne in E by congruence. exists n'. auto. }
  assert (Hwalk : forall t p, walk (<[q := set_canMatch true n]> h) p t = walk h p t).
  { induction t as [|c t IHt]; intros p; [reflexivity|]. rewrite !walk_cons.
    destruct (decide (p = q)) as [->|Hpq].
    - rewrite list_lookup_insert_eq by exact Hq. rewrite Eq.
      unfold lookupChild. simpl. destruct (subtrees n) as [m|]; [|reflexivity].
      destruct (m !! c); [apply IHt|reflexivity].
    - rewrite list_lookup_insert_ne by congruence. destruct (h !! p) as [n0|]; [|reflexivity].
      destruct (lookupChild n0 c); [apply IHt|reflexivity]. }
  constructor.
  - rewrite length_insert. apply (wf_root _ _ _ _ W).
  - apply (wf_root_name _ _ _ _ W).
  - intros p n' E. destruct (Hn _ _ E) as (n0 & E0 & _ & _ & _ & ->).
    apply (wf_icase _ _ _ _ W _ _ E0).
  - intros p n' E. destruct (Hn _ _ E) as (n0 & E0 & Hs & Ho & _).
    unfold oneShot_ok. rewrite Hs, Ho. apply (wf_oneShot _ _ _ _ W _ _ E0).
  - intros p n' c x E Ec. destruct (Hn _ _ E) as (n0 & E0 & Hs & _).
    rewrite length_insert. apply (wf_edge _ _ _ _ W _ _ _ _ E0).
    unfold lookupChild in *. rewrite <- Hs. exact Ec.
  - intros p n' c x nx E Ec Ex Hc. destruct (Hn _ _ E) as (n0 & E0 & Hs & _).
    destruct (Hn _ _ Ex) as (nx0 & Ex0 & _ & _ & -> & _).
    apply (wf_nodeChar _ _ _ _ W p n0 c x nx0 E0); auto.
    unfold lookupChild in *. rewrite <- Hs. exact Ec.
  - intros p Hp. rewrite length_insert in Hp. rewrite Hwalk. apply (wf_reach _ _ _ _ W _ Hp).
Qed.

Lemma addPath_wf ic r name h s :
  wf ic r name h ->
  exists h' name',
    addPath r s h = Done (None, h') /\
    wf ic r name' h' /\
    (length h <= length h')%nat /\
    (forall t, accepted h' r t <-> accepted h r t \/ t = keys ic s) /\
    (forall p n, h !! p = Some n -> canMatch n = true ->
       exists n', h' !! p = Some n' /\ canMatch n' = true) /\
    (noglob h -> Forall (plain ic) s -> noglob h').
Proof.
  intros W.
  pose proof (wf_root _ _ _ _ W) as Hr.
  destruct (lookup_lt_is_Some_2 h r Hr) as [g Eg].
  pose proof (wf_oneShot _ _ _ _ W _ _ Eg) as Hos. unfold oneShot_ok in Hos.
  destruct (subtrees g) as [m|] eqn:Em; [|contradiction].
  destruct (addPath_loop_wf ic r s name h r W Hr)
    as (q & h1 & name1 & R1 & W1 & L1 & Hq1 & Hold1 & Hn1 & Hcm1 & Hnew1 & Hng1).
  destruct (lookup_lt_is_Some_2 h1 q Hq1) as [nq Enq].
  set (h2 := <[q := set_canMatch true nq]> h1).
  pose proof (wf_set_canMatch ic r name1 h1 q nq W1 Enq) as W2. fold h2 in W2.
  exists h2, name1. split.
  { unfold addPath. rewrite (bind_run _ _ _ _ _ (load_run _ _ _ Eg)), Em.
    rewrite (bind_run _ _ _ _ _ R1). rewrite (bind_run _ _ _ _ _ (modify_run _ _ _ _ Enq)).
    reflexivity. }
  split; [exact W2|]. split; [unfold h2; rewrite length_insert; exact L1|].
  rewrite (wf_root_name _ _ _ _ W) in Hn1. simpl in Hn1.
  split.
  { intros t. rewrite (accepted_name ic r name1 h2 t W2), (accepted_name ic r name h t W).
    split.
    - intros (p & n' & En' & Hnm & Hc). destruct (decide (p = q)) as [->|Hpq].
      + right. congruence.
      + left. unfold h2 in En'. rewrite list_lookup_insert_ne in En' by congruence.
        destruct (decide (length h <= p)%nat) as [Hge|Hlt].
        * rewrite (Hnew1 _ _ En' Hge) in Hc. discriminate.
        * destruct (lookup_lt_is_Some_2 h p ltac:(lia)) as [n En].
          destruct (Hcm1 _ _ En) as (n1 & En1 & C1). rewrite En' in En1. inversion En1; subst n1.
          exists p, n. split; [exact En|]. split; [rewrite <- Hold1 by lia; exact Hnm|congruence].
    - intros [(p & n & En & Hnm & Hc)| ->].
      + destruct (Hcm1 _ _ En) as (n1 & En1 & C1).
        pose proof (lookup_lt_Some _ _ _ En) as Hp.
        destruct (decide (p = q)) as [->|Hpq].
        * exists q, (set_canMatch true nq). unfold h2.
          rewrite list_lookup_insert_eq by exact Hq1. split; [reflexivity|].
          split; [rewrite Hold1 by lia; exact Hnm|reflexivity].
        * exists p, n1. unfold h2. rewrite list_lookup_insert_ne by congruence.
          split; [exact En1|]. split; [rewrite Hold1 by lia; exact Hnm|congruence].
      + exists q, (set_canMatch true nq). unfold h2.
        rewrite list_lookup_insert_eq by exact Hq1. auto. }
  split.
  { intros p n En Hc. destruct (Hcm1 _ _ En) as (n1 & En1 & C1).
    destruct (decide (p = q)) as [->|Hpq].
    - exists (set_canMatch true nq). unfold h2.
      rewrite list_lookup_insert_eq by exact Hq1. auto.
    - exists n1. unfold h2. rewrite list_lookup_insert_ne by congruence.
      split; [exact En1|congruence]. }
  intros Hng Hall. pose proof (Hng1 Hng Hall) as Hng'.
  intros p n' E. unfold h2 in E. destruct (decide (p = q)) as [->|Hpq].
  - rewrite list_lookup_insert_eq in E by exact Hq1. inversion E; subst n'.
    apply (Hng' _ _ Enq).
  - rewrite list_lookup_insert_ne in E by congruence. apply (Hng' _ _ E).
Qed.

Lemma wf_new ic :
  wf ic 0%nat (fun _ => []) [freshNode ic].
Proof.
  constructor.
  - simpl. lia.
  - reflexivity.
  - intros [|p] n E; [|discriminate]. inversion E. reflexivity.
  - intros [|p] n E; [|discriminate]. inversion E. unfold oneShot_ok. simpl.
    rewrite map_size_empty. lia.
  - intros [|p] n c q E Ec; [|discriminate]. inversion E; subst n.
    unfold lookupChild in Ec. simpl in Ec. rewrite lookup_empty in Ec. discriminate.
  - intros [|p] n c q nq E Ec; [|discriminate]. inversion E; subst n.
    unfold lookupChild in Ec. simpl in Ec. rewrite lookup_empty in Ec. discriminate.
  - intros [|p] Hp; [reflexivity|simpl in Hp; lia].
Qed.

Lemma built_wf ic r h ps :
  built ic r h ps ->
  exists name,
    wf ic r name h /\
    (forall t, accepted h r t <-> t ∈ List.map (keys ic) ps) /\
    (Forall (Forall (plain ic)) ps -> noglob h).
Proof.
  induction 1 as [r h Hnew|r h h' ps s Hb (name & W & Hacc & Hng) Hadd].
  - unfold newGlobPathNode, alloc in Hnew. inversion Hnew; subst. simpl.
    exists (fun _ => []). split; [apply wf_new|]. split.
    + intros t. split.
      * intros (q & n & Hw & En & Hc). destruct q as [|q]; [|discriminate].
        inversion En; subst n. discriminate.
      * intros Hin. inversion Hin.
    + intros _ [|p] n E; [|discriminate]. inversion E. simpl. auto.
  - destruct (addPath_wf ic r name h s W) as (h2 & name2 & R & W2 & L & Hacc2 & _ & Hng2).
    rewrite R in Hadd. inversion Hadd; subst h2.
    exists name2. split; [exact W2|]. split.
    + intros t. rewrite Hacc2, Hacc, List.map_app, elem_of_app. simpl.
      rewrite list_elem_of_singleton. reflexivity.
    + intros Hall. apply Forall_app in Hall. destruct Hall as [H1 H2].
      inversion H2; subst. apply Hng2; auto.
Qed.

Lemma built_addPath ic r h ps s :
  built ic r h ps -> exists h', addPath r s h = Done (None, h').
Proof.
  intros Hb. destruct (built_wf _ _ _ _ Hb) as (name & W & _).
  destruct (addPath_wf ic r name h s W) as (h' & _ & R & _). eauto.
Qed.

(** ** Queries return on a closed store *)

Lemma wf_closed ic r name h : wf ic r name h -> closed h.
Proof.
  intros W p n E. split.
  - intros c q Ec. apply (wf_edge _ _ _ _ W _ _ _ _ E Ec).
  - intros o Ho. pose proof (wf_oneShot _ _ _ _ W _ _ E) as Hos. unfold oneShot_ok in Hos.
    destruct (subtrees n) as [m|] eqn:Em; [|contradiction]. rewrite Ho in Hos.
    destruct Hos as [c ->].
    apply (wf_edge _ _ _ _ W p n c o E). unfold lookupChild. rewrite Em.
    apply lookup_singleton_eq.
Qed.

Lemma runs_ret {A} h (a : A) : runs h (ret a).
Proof. exists a. reflexivity. Qed.

Lemma runs_bind {A B} h (m : M A) (k : A -> M B) a :
  m h = Done (a, h) -> runs h (k a) -> runs h (bind m k).
Proof. intros E [b Hb]. exists b. rewrite (bind_run _ _ _ _ _ E). exact Hb. Qed.

Lemma runs_bind' {A B} h (m : M A) (k : A -> M B) :
  runs h m -> (forall a, m h = Done (a, h) -> runs h (k a)) -> runs h (bind m k).
Proof. intros [a E] Hk. eapply runs_bind; eauto. Qed.

Lemma byteAt_in s i mlen h :
  0 <= i -> i < mlen -> mlen <= Z.of_nat (length s) ->
  exists b, s !! Z.to_nat i = Some b /\ byteAt s i h = Done (b, h).
Proof.
  intros H0 H1 H2. destruct (lookup_lt_is_Some_2 s (Z.to_nat i)) as [b Eb]; [lia|].
  exists b. split; [exact Eb|]. apply byteAt_run; auto.
Qed.

Lemma query_total fuel :
  (forall gpn s i mlen h, closed h -> (gpn < length h)%nat ->
     0 <= i -> mlen <= Z.of_nat (length s) -> (4 * dist i mlen + 4 <= fuel)%nat ->
     runs h (checkPath fuel gpn s i mlen)) /\
  (forall gpn cur s i mlen h, closed h -> (gpn < length h)%nat -> (cur < length h)%nat ->
     0 <= i -> mlen <= Z.of_nat (length s) -> (4 * dist i mlen + 3 <= fuel)%nat ->
     runs h (checkPath_loop fuel gpn cur s i mlen)) /\
  (forall gpn s i mlen h, closed h -> (gpn < length h)%nat ->
     0 <= i -> mlen <= Z.of_nat (length s) -> (4 * dist i mlen + 2 <= fuel)%nat ->
     runs h (globConsume fuel gpn s i mlen)) /\
  (forall gpn s i mlen la st h, closed h -> (gpn < length h)%nat ->
     0 <= i -> mlen <= Z.of_nat (length s) -> (4 * dist i mlen + 1 <= fuel)%nat ->
     (la || st = true -> has_oneShot h gpn) ->
     runs h (globConsume_loop fuel gpn s i mlen la st)).
Proof.
  unfold dist. induction fuel as [|fuel (IH1 & IH2 & IH3 & IH4)].
  { repeat split; intros; lia. }
  split; [|split; [|split]].
  - intros gpn s i mlen h Hc Hg Hi Hm Hf. simpl. apply IH2; auto. lia.
  - intros gpn cur s i mlen h Hc Hg Hcur Hi Hm Hf. simpl.
    destruct (lookup_lt_is_Some_2 h gpn Hg) as [g Eg].
    destruct (lookup_lt_is_Some_2 h cur Hcur) as [n En].
    destruct (Hc _ _ En) as [Hch Hos].
    destruct (Z.ltb_spec i mlen) as [Hlt|Hge].
    + destruct (byteAt_in s i mlen h Hi Hlt Hm) as (b & Eb & Rb).
      eapply runs_bind; [exact Rb|].
      eapply runs_bind; [apply load_run; exact Eg|].
      eapply runs_bind; [apply load_run; exact En|].
      apply runs_bind'.
      { destruct (hasGlobChild n); [|apply runs_ret].
        destruct (lookupChild n globChar) as [v|] eqn:Ev; [|apply runs_ret].
        apply IH3; eauto. lia. }
      intros hit _. destruct hit; [apply runs_ret|].
      eapply runs_bind; [apply load_run; exact En|].
      destruct (oneShot n) as [o|] eqn:Eo.
      * destruct (lookup_lt_is_Some_2 h o (Hos _ eq_refl)) as [on Eon].
        eapply runs_bind; [apply load_run; exact Eon|].
        destruct (nodeChar on =? globChar); [apply runs_ret|].
        destruct (nodeChar on =? foldCase (icase g) b); [|apply runs_ret].
        apply IH2; eauto; lia.
      * destruct (lookupChild n (foldCase (icase g) b)) as [v|] eqn:Ev; [|apply runs_ret].
        apply IH2; eauto; lia.
    + eapply runs_bind; [apply load_run; exact En|]. apply runs_ret.
  - intros gpn s i mlen h Hc Hg Hi Hm Hf. simpl.
    destruct (lookup_lt_is_Some_2 h gpn Hg) as [g Eg].
    eapply runs_bind; [apply load_run; exact Eg|].
    destruct (canMatch g); [apply runs_ret|].
    apply IH4; auto; [lia|].
    rewrite orb_diag. intros Hb. apply bool_decide_eq_true in Hb.
    destruct (oneShot g) as [o|] eqn:Eo; [|congruence]. exists g, o. auto.
  - intros gpn s i mlen la st h Hc Hg Hi Hm Hf Hla. simpl.
    destruct (lookup_lt_is_Some_2 h gpn Hg) as [g Eg].
    destruct (Hc _ _ Eg) as [Hch Hos].
    destruct (Z.ltb_spec i mlen) as [Hlt|Hge]; [|apply runs_ret].
    destruct (byteAt_in s i mlen h Hi Hlt Hm) as (b & Eb & Rb).
    eapply runs_bind; [exact Rb|].
    eapply runs_bind; [apply load_run; exact Eg|].
    assert (Hrest : runs h
              (cur <- load gpn ;;
               hit <- match lookupChild cur (foldCase (icase g) b) with
                      | Some v => checkPath fuel v s (i + 1) mlen
                      | None => ret false
                      end ;;
               if hit then ret true
               else if i =? mlen - 1 then cur0 <- load gpn ;; ret (canMatch cur0)
                    else globConsume_loop fuel gpn s (i + 1) mlen la
                           (if la then true else false))).
    { eapply runs_bind; [apply load_run; exact Eg|].
      apply runs_bind'.
      { destruct (lookupChild g (foldCase (icase g) b)) as [v|] eqn:Ev; [|apply runs_ret].
        apply IH1; eauto; lia. }
      intros hit _. destruct hit; [apply runs_ret|].
      destruct (i =? mlen - 1).
      - eapply runs_bind; [apply load_run; exact Eg|]. apply runs_ret.
      - apply IH4; auto; try lia. intros Hb. apply Hla.
        destruct la; [reflexivity|discriminate]. }
    destruct st.
    + destruct (Hla (orb_true_r _)) as (g' & o & Eg' & Eo).
      rewrite Eg in Eg'. inversion Eg'; subst g'.
      eapply runs_bind; [apply load_run; exact Eg|]. rewrite Eo.
      destruct (lookup_lt_is_Some_2 h o (Hos _ Eo)) as [on Eon].
      eapply runs_bind; [apply load_run; exact Eon|].
      destruct (negb (foldCase (icase g) b =? nodeChar on)).
      * apply IH4; auto; lia.
      * apply Hrest.
    + apply Hrest.
Qed.

(** ** What [checkPath] computes *)

Lemma walkMatch_accepted h r t : walkMatch h r t = true <-> accepted h r t.
Proof.
  unfold walkMatch, accepted. split.
  - destruct (walk h r t) as [q|]; [|discriminate].
    destruct (h !! q) as [n|] eqn:En; [|discriminate]. intros Hc. exists q, n. auto.
  - intros (q & n & -> & -> & Hc). exact Hc.
Qed.

Lemma drop_byte (s : list Z) i b :
  0 <= i -> s !! Z.to_nat i = Some b ->
  drop (Z.to_nat i) s = b :: drop (Z.to_nat (i + 1)) s.
Proof.
  intros Hi E. replace (Z.to_nat (i + 1)) with (S (Z.to_nat i)) by lia.
  apply drop_S. exact E.
Qed.

(** In a trie without wildcards [checkPath] is the keyed descent. *)
Lemma checkPath_loop_noglob ic r name h s :
  wf ic r name h -> noglob h ->
  forall fuel i gpn cur,
    (gpn < length h)%nat -> (cur < length h)%nat ->
    0 <= i <= Z.of_nat (length s) ->
    (dist i (Z.of_nat (length s)) < fuel)%nat ->
    checkPath_loop fuel gpn cur s i (Z.of_nat (length s)) h =
    Done (walkMatch h cur (List.map (foldCase ic) (drop (Z.to_nat i) s)), h).
Proof.
  intros W Hng. unfold dist.
  induction fuel as [|fuel IH]; intros i gpn cur Hg Hcur Hi Hf; [lia|].
  cbn [checkPath_loop].
  destruct (lookup_lt_is_Some_2 h gpn Hg) as [g Eg].
  destruct (lookup_lt_is_Some_2 h cur Hcur) as [n En].
  pose proof (wf_icase _ _ _ _ W _ _ Eg) as Hic.
  destruct (Hng _ _ En) as (Hgc & Hig & Hlg).
  destruct (Z.ltb_spec i (Z.of_nat (length s))) as [Hlt|Hge].
  - destruct (byteAt_in s i _ h (proj1 Hi) Hlt (Z.le_refl _)) as (b & Eb & Rb).
    rewrite (drop_byte s i b (proj1 Hi) Eb). simpl List.map.
    rewrite (bind_run _ _ _ _ _ Rb), (bind_run _ _ _ _ _ (load_run _ _ _ Eg)), Hic.
    rewrite (bind_run _ _ _ _ _ (load_run _ _ _ En)), Hgc.
    rewrite (bind_run _ _ _ _ _ (eq_refl : ret false h = Done (false, h))).
    rewrite (bind_run _ _ _ _ _ (load_run _ _ _ En)).
    unfold walkMatch. rewrite walk_cons, En.
    pose proof (wf_oneShot _ _ _ _ W _ _ En) as Hos. unfold oneShot_ok in Hos.
    destruct (subtrees n) as [m|] eqn:Em; [|contradiction].
    destruct (oneShot n) as [o|] eqn:Eo.
    + destruct Hos as [c0 Hm].
      assert (Ec0 : lookupChild n c0 = Some o).
      { unfold lookupChild. rewrite Em, Hm. apply lookup_singleton_eq. }
      destruct (wf_edge _ _ _ _ W _ _ _ _ En Ec0) as [Ho _].
      destruct (lookup_lt_is_Some_2 h o Ho) as [on Eon].
      assert (Hc0 : c0 <> globChar) by (intros ->; congruence).
      pose proof (wf_nodeChar _ _ _ _ W _ _ _ _ _ En Ec0 Eon Hc0) as Hnc.
      rewrite (bind_run _ _ _ _ _ (load_run _ _ _ Eon)), Hnc.
      destruct (Z.eqb_spec c0 globChar) as [|_]; [contradiction|].
      destruct (Z.eqb_spec c0 (foldCase ic b)) as [Heq|Hneq].
      * rewrite <- Heq, Ec0. rewrite IH by (auto; lia). reflexivity.
      * unfold lookupChild. rewrite Em, Hm, lookup_singleton_ne by congruence. reflexivity.
    + destruct (lookupChild n (foldCase ic b)) as [v|] eqn:Ev; [|reflexivity].
      destruct (wf_edge _ _ _ _ W _ _ _ _ En Ev) as [Hv _].
      rewrite IH by (auto; lia). reflexivity.
  - rewrite (bind_run _ _ _ _ _ (load_run _ _ _ En)).
    rewrite drop_ge by lia. unfold walkMatch. simpl. rewrite En, Hig, orb_false_r.
    reflexivity.
Qed.

(** A pattern made of plain bytes that was inserted is matched, whatever
    else the trie holds. *)
Lemma checkPath_loop_member ic r name h s :
  wf ic r name h ->
  forall fuel i gpn cur q nq,
    (gpn < length h)%nat -> (cur < length h)%nat ->
    0 <= i <= Z.of_nat (length s) ->
    (4 * dist i (Z.of_nat (length s)) + 3 <= fuel)%nat ->
    Forall (plain ic) (drop (Z.to_nat i) s) ->
    walk h cur (List.map (foldCase ic) (drop (Z.to_nat i) s)) = Some q ->
    h !! q = Some nq -> canMatch nq = true ->
    checkPath_loop fuel gpn cur s i (Z.of_nat (length s)) h = Done (true, h).
Proof.
  intros W. pose proof (wf_closed _ _ _ _ W) as Hcl.
  induction fuel as [|fuel IH]; intros i gpn cur q nq Hg Hcur Hi Hf Hpl Hw Eq Hcm;
    [lia|].
  unfold dist in *. cbn [checkPath_loop].
  destruct (lookup_lt_is_Some_2 h gpn Hg) as [g Eg].
  destruct (lookup_lt_is_Some_2 h cur Hcur) as [n En].
  pose proof (wf_icase _ _ _ _ W _ _ Eg) as Hic.
  destruct (Z.ltb_spec i (Z.of_nat (length s))) as [Hlt|Hge].
  - destruct (byteAt_in s i _ h (proj1 Hi) Hlt (Z.le_refl _)) as (b & Eb & Rb).
    rewrite (drop_byte s i b (proj1 Hi) Eb) in Hpl, Hw. simpl List.map in Hw.
    apply Forall_cons in Hpl. destruct Hpl as [[Hb1 Hb2] Hpl'].
    rewrite walk_cons, En in Hw.
    destruct (lookupChild n (foldCase ic b)) as [v|] eqn:Ev; [|discriminate].
    destruct (wf_edge _ _ _ _ W _ _ _ _ En Ev) as [Hv _].
    rewrite (bind_run _ _ _ _ _ Rb), (bind_run _ _ _ _ _ (load_run _ _ _ Eg)), Hic.
    rewrite (bind_run _ _ _ _ _ (load_run _ _ _ En)).
    match goal with
    | |- bind ?m _ _ = _ => assert (Hhit : runs h m)
    end.
    { destruct (hasGlobChild n); [|apply runs_ret].
      destruct (lookupChild n globChar) as [g'|] eqn:Eg'; [|apply runs_ret].
      apply (query_total fuel); auto; try lia.
      - apply (wf_edge _ _ _ _ W _ _ _ _ En Eg').
      - unfold dist. lia. }
    destruct Hhit as [hit Rhit]. rewrite (bind_run _ _ _ _ _ Rhit).
    destruct hit; [reflexivity|].
    rewrite (bind_run _ _ _ _ _ (load_run _ _ _ En)).
    pose proof (wf_oneShot _ _ _ _ W _ _ En) as Hos. unfold oneShot_ok in Hos.
    destruct (subtrees n) as [m|] eqn:Em; [|contradiction].
    destruct (lookup_lt_is_Some_2 h v Hv) as [nv Env].
    pose proof (wf_nodeChar _ _ _ _ W _ _ _ _ _ En Ev Env Hb2) as Hnc.
    destruct (oneShot n) as [o|] eqn:Eo.
    + destruct Hos as [c0 Hm].
      assert (o = v) as ->.
      { unfold lookupChild in Ev. rewrite Em, Hm in Ev.
        apply lookup_singleton_Some in Ev. destruct Ev; congruence. }
      rewrite (bind_run _ _ _ _ _ (load_run _ _ _ Env)), Hnc.
      destruct (Z.eqb_spec (foldCase ic b) globChar) as [|_]; [contradiction|].
      rewrite Z.eqb_refl. apply (IH _ _ _ q nq); auto; lia.
    + rewrite Ev. apply (IH _ _ _ q nq); auto; lia.
  - rewrite drop_ge in Hw by lia. simpl in Hw. inversion Hw; subst q.
    rewrite (bind_run _ _ _ _ _ (load_run _ _ _ En)).
    rewrite En in Eq. inversion Eq; subst nq. unfold ret. rewrite Hcm. reflexivity.
Qed.

(** ** Case folding *)

Lemma sameCase_lookup s s' i :
  sameCase s s' ->
  (s !! i = None /\ s' !! i = None) \/
  (exists b b', s !! i = Some b /\ s' !! i = Some b' /\
     foldCase true b = foldCase true b').
Proof.
  intros Hs. unfold sameCase in Hs.
  assert (E : foldCase true <$> s !! i = foldCase true <$> s' !! i).
  { rewrite <- !list_lookup_fmap. change (fmap (foldCase true)) with (List.map (foldCase true)).
    rewrite Hs. reflexivity. }
  destruct (s !! i) as [b|], (s' !! i) as [b'|]; simpl in E; try discriminate.
  - right. exists b, b'. inversion E. auto.
  - left. auto.
Qed.

Lemma bind_cong {A B} (m m' : M A) (k k' : A -> M B) h :
  m h = m' h ->
  (forall a h1, m h = Done (a, h1) -> k a h1 = k' a h1) ->
  bind m k h = bind m' k' h.
Proof.
  intros Hm Hk. unfold bind. rewrite <- Hm.
  destruct (m h) as [[a h1]| |]; auto.
Qed.

Lemma bind_load_cong {B} p (k k' : globPathNode -> M B) h :
  (forall n, h !! p = Some n -> k n h = k' n h) ->
  bind (load p) k h = bind (load p) k' h.
Proof.
  intros Hk. apply bind_cong; [reflexivity|].
  intros n h1 E. apply load_Done in E as [-> E]. auto.
Qed.

Lemma bind_byteAt_cong {B} s s' i (k k' : Z -> M B) h :
  sameCase s s' ->
  (forall b b', foldCase true b = foldCase true b' -> k b h = k' b' h) ->
  bind (byteAt s i) k h = bind (byteAt s' i) k' h.
Proof.
  intros Hs Hk. unfold bind, byteAt. destruct (i <? 0); [reflexivity|].
  destruct (sameCase_lookup s s' (Z.to_nat i) Hs) as [[-> ->]|(b & b' & -> & -> & Hb)].
  - reflexivity.
  - simpl. apply Hk. exact Hb.
Qed.

Lemma query_sameCase s s' h :
  sameCase s s' -> all_icase h ->
  forall fuel,
  (forall gpn i mlen, checkPath fuel gpn s i mlen h = checkPath fuel gpn s' i mlen h) /\
  (forall gpn cur i mlen,
     checkPath_loop fuel gpn cur s i mlen h = checkPath_loop fuel gpn cur s' i mlen h) /\
  (forall gpn i mlen, globConsume fuel gpn s i mlen h = globConsume fuel gpn s' i mlen h) /\
  (forall gpn i mlen la st,
     globConsume_loop fuel gpn s i mlen la st h =
     globConsume_loop fuel gpn s' i mlen la st h).
Proof.
  intros Hs Hic. induction fuel as [|fuel (IH1 & IH2 & IH3 & IH4)].
  { repeat split; reflexivity. }
  destruct (queries_keep_store fuel) as (RO1 & RO2 & RO3 & RO4).
  split; [|split; [|split]].
  - intros. cbn [checkPath]. apply IH2.
  - intros gpn cur i mlen. cbn [checkPath_loop].
    destruct (i <? mlen); [|reflexivity].
    apply bind_byteAt_cong; [exact Hs|]. intros b b' Hb.
    apply bind_load_cong. intros g Eg. rewrite (Hic _ _ Eg), Hb.
    apply bind_load_cong. intros n En.
    apply bind_cong.
    { destruct (hasGlobChild n); [|reflexivity].
      destruct (lookupChild n globChar); [apply IH3|reflexivity]. }
    intros hit h1 Ehit.
    assert (h1 = h) as ->.
    { revert Ehit. destruct (hasGlobChild n); [|intros E; inversion E; reflexivity].
      destruct (lookupChild n globChar); [apply RO3|intros E; inversion E; reflexivity]. }
    destruct hit; [reflexivity|].
    apply bind_load_cong. intros n2 En2.
    destruct (oneShot n2).
    + apply bind_load_cong. intros on Eon.
      destruct (nodeChar on =? globChar); [reflexivity|].
      destruct (nodeChar on =? foldCase true b'); [apply IH2|reflexivity].
    + destruct (lookupChild n2 (foldCase true b')); [apply IH2|reflexivity].
  - intros gpn i mlen. cbn [globConsume].
    apply bind_load_cong. intros g Eg. destruct (canMatch g); [reflexivity|]. apply IH4.
  - intros gpn i mlen la st. cbn [globConsume_loop].
    destruct (i <? mlen); [|reflexivity].
    apply bind_byteAt_cong; [exact Hs|]. intros b b' Hb.
    apply bind_load_cong. intros g Eg. rewrite (Hic _ _ Eg), Hb. cbv zeta.
    assert (Hrest : forall st',
      (cur <- load gpn ;;
       hit <- match lookupChild cur (foldCase true b') with
              | Some v => checkPath fuel v s (i + 1) mlen
              | None => ret false
              end ;;
       if hit then ret true
       else if i =? mlen - 1 then cur0 <- load gpn ;; ret (canMatch cur0)
            else globConsume_loop fuel gpn s (i + 1) mlen la
                   (if la then true else st')) h =
      (cur <- load gpn ;;
       hit <- match lookupChild cur (foldCase true b') with
              | Some v => checkPath fuel v s' (i + 1) mlen
              | None => ret false
              end ;;
       if hit then ret true
       else if i =? mlen - 1 then cur0 <- load gpn ;; ret (canMatch cur0)
            else globConsume_loop fuel gpn s' (i + 1) mlen la
                   (if la then true else st')) h).
    { intros st'. apply bind_load_cong. intros n En.
      apply bind_cong.
      { destruct (lookupChild n (foldCase true b')); [apply IH1|reflexivity]. }
      intros hit h1 Ehit.
      assert (h1 = h) as ->.
      { revert Ehit. destruct (lookupChild n (foldCase true b'));
          [apply RO1|intros E; inversion E; reflexivity]. }
      destruct hit; [reflexivity|].
      destruct (i =? mlen - 1); [reflexivity|]. apply IH4. }
    destruct st; [|apply Hrest].
    apply bind_load_cong. intros n En.
    destruct (oneShot n); [|reflexivity].
    apply bind_load_cong. intros on Eon.
    destruct (negb (foldCase true b' =? nodeChar on)); [apply IH4|apply Hrest].
Qed.

(** Insertion into a case-insensitive trie sees only the folded bytes. *)
Lemma addPath_step_sameCase gpn cur b b' h g :
  h !! gpn = Some g -> icase g = true -> foldCase true b = foldCase true b' ->
  addPath_step gpn cur b h = addPath_step gpn cur b' h.
Proof.
  intros Eg Hic Hb. unfold addPath_step.
  rewrite !(bind_run _ _ _ _ _ (load_run _ _ _ Eg)), Hic, Hb. reflexivity.
Qed.

(** ** The test programs and the tries they make *)

Lemma addPaths_built ic r ps : forall h ps0,
  built ic r h ps0 ->
  exists h', addPaths r ps h = Done (tt, h') /\ built ic r h' (ps0 ++ ps).
Proof.
  induction ps as [|p ps IH]; intros h ps0 Hb.
  - exists h. rewrite List.app_nil_r. auto.
  - destruct (built_addPath ic r h ps0 p Hb) as [h1 R1].
    destruct (IH h1 (ps0 ++ [p]) (built_add _ _ _ _ _ _ Hb R1)) as (h2 & R2 & Hb2).
    exists h2. split.
    + simpl. rewrite (bind_run _ _ _ _ _ R1). exact R2.
    + rewrite <- app_assoc in Hb2. exact Hb2.
Qed.

Lemma makeTrie_built ic ps :
  exists h, makeTrie ic ps [] = Done (0%nat, h) /\ built ic 0%nat h ps.
Proof.
  destruct (addPaths_built ic 0%nat ps [freshNode ic] [])
    as (h & R & Hb); [apply built_new; reflexivity|].
  exists h. split; [|exact Hb].
  unfold makeTrie, newGlobPathNode, alloc, bind at 1. simpl length.
  change ([] ++ [GlobPathNode (Some ∅) None false false false 0 ic]) with [freshNode ic].
  rewrite (bind_run _ _ _ _ _ R). reflexivity.
Qed.

Lemma built_trieOf ic ps : built ic 0%nat (trieOf ic ps) ps.
Proof.
  destruct (makeTrie_built ic ps) as (h & R & Hb). unfold trieOf. rewrite R. exact Hb.
Qed.

Lemma built_nil_inv ic r h :
  built ic r h [] -> newGlobPathNode ic [] = Done (r, h).
Proof.
  intros H. remember [] as ps eqn:Eps. destruct H as [r h E|r h h' ps s Hb A].
  - exact E.
  - destruct ps; discriminate.
Qed.

Lemma built_snoc_inv ic r h ps s :
  built ic r h (ps ++ [s]) ->
  exists h0, built ic r h0 ps /\ addPath r s h0 = Done (None, h).
Proof.
  intros H. remember (ps ++ [s]) as ps' eqn:Eps.
  destruct H as [r h E|r h h' ps0 s0 Hb A].
  - destruct ps; discriminate.
  - apply app_inj_tail in Eps as [-> ->]. eauto.
Qed.

Lemma built_inj ic ps : forall r h r' h',
  built ic r h ps -> built ic r' h' ps -> r = r' /\ h = h'.
Proof.
  induction ps as [|s ps IH] using rev_ind; intros r h r' h' H1 H2.
  - apply built_nil_inv in H1, H2. rewrite H1 in H2. inversion H2. auto.
  - apply built_snoc_inv in H1 as (h1 & Hb1 & A1).
    apply built_snoc_inv in H2 as (h2 & Hb2 & A2).
    destruct (IH _ _ _ _ Hb1 Hb2) as [-> ->]. rewrite A1 in A2. inversion A2. auto.
Qed.

(** ** Patterns of literal bytes *)

Lemma foldCase_false b : foldCase false b = b.
Proof. reflexivity. Qed.

Lemma foldCase_true_upper b :
  65 <= b <= 90 -> foldCase true b = b + 32.
Proof.
  intros Hb. unfold foldCase.
  destruct (Z.leb_spec 65 b); [|lia]. destruct (Z.leb_spec b 90); [|lia].
  simpl. apply Z.mod_small. lia.
Qed.

Lemma foldCase_true_other b :
  ~ (65 <= b <= 90) -> foldCase true b = b.
Proof.
  intros Hb. unfold foldCase.
  destruct (Z.leb_spec 65 b); destruct (Z.leb_spec b 90); simpl; try reflexivity. lia.
Qed.

Lemma plain_iff ic b : plain ic b <-> b <> star /\ b <> globChar.
Proof.
  unfold plain, star, globChar. destruct ic; [|rewrite foldCase_false; tauto].
  destruct (decide (65 <= b <= 90)) as [Hb|Hb].
  - rewrite foldCase_true_upper by exact Hb. lia.
  - rewrite foldCase_true_other by exact Hb. tauto.
Qed.

Lemma literal_plain b : literal b -> plain false b.
Proof. intros [Hr Hs]. apply plain_iff. unfold globChar. split; [exact Hs|lia]. Qed.

Lemma keys_plain ic p : Forall (plain ic) p -> keys ic p = List.map (foldCase ic) p.
Proof.
  induction 1 as [|b p [Hb _] _ IH]; [reflexivity|].
  unfold keys in *. simpl. rewrite IH. f_equal.
  unfold keyOf. destruct (Z.eqb_spec (foldCase ic b) star); [contradiction|reflexivity].
Qed.

Lemma map_foldCase_false s : List.map (foldCase false) s = s.
Proof. induction s as [|b s IH]; [reflexivity|]. simpl. rewrite IH. reflexivity. Qed.

Lemma keys_literal ps :
  Forall (Forall literal) ps -> List.map (keys false) ps = ps.
Proof.
  induction 1 as [|p ps Hp _ IH]; [reflexivity|]. simpl. rewrite IH. f_equal.
  rewrite keys_plain, map_foldCase_false; [reflexivity|].
  eapply Forall_impl; [exact Hp|]. apply literal_plain.
Qed.

Lemma bool_eq_decide (b : bool) (P : Prop) `{Decision P} :
  (b = true <-> P) -> b = bool_decide P.
Proof.
  intros Hb. destruct b.
  - symmetry. apply bool_decide_eq_true. apply Hb. reflexivity.
  - symmetry. apply bool_decide_eq_false. intros HP. apply Hb in HP. discriminate.
Qed.

Lemma checkPath_on_literals r h ps cand fuel :
  built false r h ps -> Forall (Forall literal) ps ->
  (fuelFor cand <= fuel)%nat ->
  checkPath fuel r cand 0 (Z.of_nat (length cand)) h =
  Done (bool_decide (cand ∈ ps), h).
Proof.
  intros Hb Hlit Hf. destruct (built_wf _ _ _ _ Hb) as (name & W & Hacc & Hng).
  assert (Hn : noglob h).
  { apply Hng. eapply Forall_impl; [exact Hlit|]. intros p Hp.
    eapply Forall_impl; [exact Hp|]. apply literal_plain. }
  unfold fuelFor in Hf. destruct fuel as [|fuel]; [lia|]. cbn [checkPath].
  rewrite (checkPath_loop_noglob false r name h cand W Hn fuel 0 r r);
    try apply (wf_root _ _ _ _ W); [|lia|unfold dist; lia].
  simpl drop. rewrite map_foldCase_false. f_equal. f_equal.
  apply bool_eq_decide. rewrite walkMatch_accepted, Hacc, (keys_literal ps Hlit).
  reflexivity.
Qed.

(** C1: in a case-sensitive trie built from patterns of printable ASCII
    without ['*'], [checkPath] returns true exactly on the inserted
    patterns; a proper prefix or a proper extension of an inserted
    pattern that was not inserted itself is rejected. *)
Theorem checkPath_literal_exact r h ps cand fuel :
  built false r h ps -> Forall (Forall literal) ps ->
  (fuelFor cand <= fuel)%nat ->
  checkPath fuel r cand 0 (Z.of_nat (length cand)) h =
    Done (bool_decide (cand ∈ ps), h) /\
  (forall p x, p ∈ ps -> x <> [] -> (cand = p ++ x \/ p = cand ++ x) ->
     cand ∉ ps ->
     checkPath fuel r cand 0 (Z.of_nat (length cand)) h = Done (false, h)).
Proof.
  intros Hb Hlit Hf. pose proof (checkPath_on_literals r h ps cand fuel Hb Hlit Hf) as E.
  split; [exact E|]. intros p x _ _ _ Hnot. rewrite E.
  rewrite bool_decide_eq_false_2 by exact Hnot. reflexivity.
Qed.

Lemma checkPath_literal_exact_witness :
  checkPath 20 0%nat (bytes "ab") 0 2 (trieOf false [bytes "abc"; bytes "ab"]) =
    Done (true, trieOf false [bytes "abc"; bytes "ab"]) /\
  checkPath 20 0%nat (bytes "a") 0 1 (trieOf false [bytes "abc"; bytes "ab"]) =
    Done (false, trieOf false [bytes "abc"; bytes "ab"]).
Proof.
  assert (Hlit : Forall (Forall literal) [bytes "abc"; bytes "ab"]).
  { apply (bool_decide_unpack _). vm_compute. exact I. }
  split.
  - apply (checkPath_literal_exact 0%nat (trieOf false [bytes "abc"; bytes "ab"])
             [bytes "abc"; bytes "ab"] (bytes "ab") 20
             (built_trieOf false _) Hlit ltac:(vm_compute; lia)).
  - refine (proj2 (checkPath_literal_exact 0%nat (trieOf false [bytes "abc"; bytes "ab"])
             [bytes "abc"; bytes "ab"] (bytes "a") 20
             (built_trieOf false _) Hlit ltac:(vm_compute; lia))
             (bytes "ab") (bytes "b") _ _ _ _).
    + apply list_elem_of_In. simpl. auto.
    + discriminate.
    + right. reflexivity.
    + intros Hin. apply list_elem_of_In in Hin. simpl in Hin.
      destruct Hin as [Hx|[Hx|[]]]; discriminate.
Defined.

(** ** Patterns that end in a wildcard *)

Lemma grows_refl h : grows h h.
Proof. intros p n E. exists n. auto. Qed.

Lemma grows_trans h1 h2 h3 : grows h1 h2 -> grows h2 h3 -> grows h1 h3.
Proof.
  intros H12 H23 p n E. destruct (H12 _ _ E) as (n2 & E2 & C2 & G2 & L2).
  destruct (H23 _ _ E2) as (n3 & E3 & C3 & G3 & L3).
  exists n3. split; [exact E3|]. split; [auto|]. split; [auto|]. auto.
Qed.

Lemma grows_walk h h' p t q : grows h h' -> walk h p t = Some q -> walk h' p t = Some q.
Proof.
  intros Hg. apply walk_mono. intros p0 c q0 (n & En & Ec).
  destruct (Hg _ _ En) as (n' & En' & _ & _ & L). exists n'. auto.
Qed.

Lemma globAccepted_grows h h' r t :
  grows h h' -> globAccepted h r t -> globAccepted h' r t.
Proof.
  intros Hg (q & n & g & ng & Hw & En & Hgc & Hl & Eg & Hc).
  destruct (Hg _ _ En) as (n' & En' & _ & G' & L').
  destruct (Hg _ _ Eg) as (ng' & Eg' & C' & _ & _).
  exists q, n', g, ng'. split; [apply (grows_walk h h'); auto|]. auto 10.
Qed.

Lemma addPath_step_grows ic r name h cur b v h' :
  wf ic r name h -> (cur < length h)%nat ->
  addPath_step r cur b h = Done (v, h') -> grows h h'.
Proof.
  intros W Hcur R.
  destruct (lookup_lt_is_Some_2 h cur Hcur) as [ncur Ecur].
  pose proof (wf_oneShot _ _ _ _ W _ _ Ecur) as Hos. unfold oneShot_ok in Hos.
  destruct (subtrees ncur) as [subt|] eqn:Esub; [|contradiction].
  destruct (addPath_step_effect ic r name h cur ncur subt b W Ecur Esub)
    as (v0 & h0 & R0 & Hne & Hcase & Pc & Pv & O).
  rewrite R in R0. inversion R0; subst v0 h0. clear R0.
  intros p n En. destruct (decide (p = cur)) as [->|Hpc].
  - rewrite Ecur in En. inversion En; subst n. eexists. split; [exact Pc|]. simpl.
    split; [auto|]. split; [intros ->; reflexivity|].
    intros c q Hl. unfold lookupChild in *. simpl. rewrite Esub in Hl.
    destruct (decide (c = keyOf ic b)) as [->|Hc].
    + destruct Hcase as [[Ev _]|[Ev _]]; rewrite Ev in Hl; [|discriminate].
      inversion Hl; subst. apply lookup_insert_eq.
    + rewrite lookup_insert_ne by congruence. exact Hl.
  - destruct (decide (p = v)) as [->|Hpv].
    + eexists. split; [exact Pv|]. rewrite En. simpl. split; [auto|]. split; [auto|]. auto.
    + exists n. rewrite O by auto. auto.
Qed.

Lemma addPath_loop_grows ic r s : forall name h cur q h',
  wf ic r name h -> (cur < length h)%nat ->
  addPath_loop r cur s h = Done (q, h') -> grows h h'.
Proof.
  induction s as [|b s IH]; intros name h cur q h' W Hcur R.
  - inversion R; subst. apply grows_refl.
  - cbn [addPath_loop] in R.
    destruct (addPath_step_wf ic r name h cur b W Hcur)
      as (v & h1 & name1 & R1 & W1 & _ & Hv1 & _).
    rewrite (bind_run _ _ _ _ _ R1) in R.
    apply (grows_trans h h1 h').
    + apply (addPath_step_grows ic r name h cur b v h1 W Hcur R1).
    + apply (IH name1 h1 v q h' W1 Hv1 R).
Qed.

Lemma set_canMatch_grows h q n :
  h !! q = Some n -> grows h (<[q := set_canMatch true n]> h).
Proof.
  intros Eq p n0 E. pose proof (lookup_lt_Some _ _ _ Eq) as Hq.
  destruct (decide (p = q)) as [->|Hpq].
  - rewrite Eq in E. inversion E; subst n0. exists (set_canMatch true n).
    rewrite list_lookup_insert_eq by exact Hq. simpl. auto.
  - exists n0. rewrite list_lookup_insert_ne by congruence. auto.
Qed.

Lemma addPath_run ic r name h s :
  wf ic r name h ->
  exists q h1 name1 nq,
    addPath_loop r r s h = Done (q, h1) /\ wf ic r name1 h1 /\
    h1 !! q = Some nq /\ name1 q = keys ic s /\
    addPath r s h = Done (None, <[q := set_canMatch true nq]> h1).
Proof.
  intros W. pose proof (wf_root _ _ _ _ W) as Hr.
  destruct (lookup_lt_is_Some_2 h r Hr) as [g Eg].
  pose proof (wf_oneShot _ _ _ _ W _ _ Eg) as Hos. unfold oneShot_ok in Hos.
  destruct (subtrees g) as [m|] eqn:Em; [|contradiction].
  destruct (addPath_loop_wf ic r s name h r W Hr)
    as (q & h1 & name1 & R1 & W1 & L1 & Hq1 & Hold1 & Hn1 & _).
  destruct (lookup_lt_is_Some_2 h1 q Hq1) as [nq Enq].
  exists q, h1, name1, nq. split; [exact R1|]. split; [exact W1|]. split; [exact Enq|].
  split; [rewrite Hn1, (wf_root_name _ _ _ _ W); reflexivity|].
  unfold addPath. rewrite (bind_run _ _ _ _ _ (load_run _ _ _ Eg)), Em.
  rewrite (bind_run _ _ _ _ _ R1). rewrite (bind_run _ _ _ _ _ (modify_run _ _ _ _ Enq)).
  reflexivity.
Qed.

Lemma addPath_grows ic r name h s h' :
  wf ic r name h -> addPath r s h = Done (None, h') -> grows h h'.
Proof.
  intros W A. destruct (addPath_run ic r name h s W) as (q & h1 & name1 & nq & R1 & W1 & Enq & _ & A1).
  rewrite A1 in A. inversion A; subst h'.
  apply (grows_trans h h1).
  - apply (addPath_loop_grows ic r s name h r q h1 W (wf_root _ _ _ _ W) R1).
  - apply set_canMatch_grows. exact Enq.
Qed.

Lemma addPath_loop_app r s1 s2 : forall cur h,
  addPath_loop r cur (s1 ++ s2) h =
  (q <- addPath_loop r cur s1 ;; addPath_loop r q s2) h.
Proof.
  induction s1 as [|b s1 IH]; intros cur h; [reflexivity|].
  cbn [addPath_loop app]. unfold bind.
  destruct (addPath_step r cur b h) as [[v h1]| |]; [|reflexivity|reflexivity].
  rewrite IH. reflexivity.
Qed.

Lemma keys_app ic s1 s2 : keys ic (s1 ++ s2) = keys ic s1 ++ keys ic s2.
Proof. unfold keys. apply List.map_app. Qed.

Lemma keyOf_star ic : keyOf ic star = globChar.
Proof. destruct ic; reflexivity. Qed.

(** Inserting [p*] leaves, at the end of [p], a node flagged
    [hasGlobChild] whose wildcard child ends a pattern. *)
Lemma addPath_glob ic r name h p h' :
  wf ic r name h -> addPath r (p ++ [star]) h = Done (None, h') ->
  globAccepted h' r (keys ic p).
Proof.
  intros W A.
  destruct (addPath_run ic r name h (p ++ [star]) W)
    as (g & h2 & name2 & ng & R & W2 & Eg & Hng & A1).
  rewrite A1 in A. inversion A; subst h'. clear A A1.
  (* split the loop at the wildcard *)
  rewrite addPath_loop_app in R. apply bind_Done in R as (q & h1 & Rp & Rs).
  destruct (addPath_loop_wf ic r p name h r W (wf_root _ _ _ _ W))
    as (q0 & h10 & name1 & Rp0 & W1 & _ & Hq1 & _ & Hn1 & _).
  rewrite Rp in Rp0. inversion Rp0; subst q0 h10. clear Rp0.
  cbn [addPath_loop] in Rs. apply bind_Done in Rs as (v & h2' & Rstep & Rret).
  inversion Rret; subst v h2'. clear Rret.
  destruct (lookup_lt_is_Some_2 h1 q Hq1) as [nq Enq].
  pose proof (wf_oneShot _ _ _ _ W1 _ _ Enq) as Hos. unfold oneShot_ok in Hos.
  destruct (subtrees nq) as [subt|] eqn:Esub; [|contradiction].
  destruct (addPath_step_effect ic r name1 h1 q nq subt star W1 Enq Esub)
    as (v0 & h0 & R0 & Hne & _ & Pc & _ & _).
  rewrite Rstep in R0. inversion R0; subst v0 h0. clear R0.
  destruct (addPath_step_wf ic r name1 h1 q star W1 Hq1)
    as (v0 & h0 & name2' & R0 & W2' & _ & _ & Hold2 & _).
  rewrite Rstep in R0. inversion R0; subst v0 h0. clear R0.
  pose proof (lookup_lt_Some _ _ _ Eg) as Hg.
  pose proof (wf_set_canMatch ic r name2' h2 g ng W2' Eg) as W3.
  exists q. eexists. exists g, (set_canMatch true ng).
  split.
  { replace (keys ic p) with (name2' q).
    - apply (wf_reach _ _ _ _ W3). rewrite length_insert.
      apply lookup_lt_Some in Pc. exact Pc.
    - rewrite (Hold2 q Hq1), Hn1, (wf_root_name _ _ _ _ W). reflexivity. }
  split; [rewrite list_lookup_insert_ne by congruence; exact Pc|].
  simpl. split.
  { assert (E : foldCase ic star = star) by (destruct ic; reflexivity).
    rewrite E, Z.eqb_refl, orb_true_r. reflexivity. }
  split; [unfold lookupChild; simpl; rewrite keyOf_star; apply lookup_insert_eq|].
  split; [apply list_lookup_insert_eq; exact Hg|reflexivity].
Qed.

Lemma built_globAccepted ic r h ps p :
  built ic r h ps -> (p ++ [star]) ∈ ps -> globAccepted h r (keys ic p).
Proof.
  induction 1 as [r h Hnew|r h h' ps s Hb IH Hadd]; intros Hin.
  - inversion Hin.
  - destruct (built_wf _ _ _ _ Hb) as (name & W & _).
    apply elem_of_app in Hin as [Hin|Hin].
    + apply (globAccepted_grows h h'); [|apply IH; exact Hin].
      apply (addPath_grows ic r name h s h' W Hadd).
    + apply list_elem_of_singleton in Hin. subst s.
      apply (addPath_glob ic r name h p h' W Hadd).
Qed.

(** Descent along plain bytes: if the query succeeds from the node at the
    end of [t], it succeeds from the node at its start. *)
Lemma checkPath_loop_descend ic r name h s gpn :
  wf ic r name h -> (gpn < length h)%nat ->
  forall t u i cur q fuel,
    (cur < length h)%nat -> 0 <= i ->
    drop (Z.to_nat i) s = t ++ u ->
    Forall (plain ic) t ->
    walk h cur (List.map (foldCase ic) t) = Some q ->
    (4 * dist i (Z.of_nat (length s)) + 3 <= fuel)%nat ->
    (forall fuel', (4 * dist (i + Z.of_nat (length t)) (Z.of_nat (length s)) + 3 <= fuel')%nat ->
       checkPath_loop fuel' gpn q s (i + Z.of_nat (length t)) (Z.of_nat (length s)) h
       = Done (true, h)) ->
    checkPath_loop fuel gpn cur s i (Z.of_nat (length s)) h = Done (true, h).
Proof.
  intros W Hg. pose proof (wf_closed _ _ _ _ W) as Hcl.
  destruct (lookup_lt_is_Some_2 h gpn Hg) as [g Eg].
  pose proof (wf_icase _ _ _ _ W _ _ Eg) as Hic.
  induction t as [|b t IH]; intros u i cur q fuel Hcur Hi Hd Hpl Hw Hf Hend.
  - simpl in Hw. inversion Hw; subst q. simpl length in Hend.
    rewrite Z.add_0_r in Hend. apply Hend. exact Hf.
  - assert (Hlen : (Z.to_nat i < length s)%nat).
    { destruct (decide (Z.to_nat i < length s)%nat) as [|Hge]; [assumption|].
      rewrite drop_ge in Hd by lia. discriminate. }
    assert (Eb : s !! Z.to_nat i = Some b).
    { rewrite <- (Nat.add_0_r (Z.to_nat i)), <- lookup_drop, Hd. reflexivity. }
    assert (Hd' : drop (Z.to_nat (i + 1)) s = t ++ u).
    { rewrite (drop_byte s i b Hi Eb) in Hd. inversion Hd. reflexivity. }
    apply Forall_cons in Hpl. destruct Hpl as [[Hb1 Hb2] Hpl'].
    simpl List.map in Hw. rewrite walk_cons in Hw.
    destruct (lookup_lt_is_Some_2 h cur Hcur) as [n En]. rewrite En in Hw.
    destruct (lookupChild n (foldCase ic b)) as [v|] eqn:Ev; [|discriminate].
    destruct (wf_edge _ _ _ _ W _ _ _ _ En Ev) as [Hv _].
    unfold dist in Hf. destruct fuel as [|fuel]; [lia|]. cbn [checkPath_loop].
    destruct (Z.ltb_spec i (Z.of_nat (length s))) as [Hlt|Hge]; [|lia].
    rewrite (bind_run _ _ _ _ _ (byteAt_run s i b h Hi Eb)).
    rewrite (bind_run _ _ _ _ _ (load_run _ _ _ Eg)), Hic.
    rewrite (bind_run _ _ _ _ _ (load_run _ _ _ En)).
    match goal with
    | |- bind ?m _ _ = _ => assert (Hhit : runs h m)
    end.
    { destruct (hasGlobChild n); [|apply runs_ret].
      destruct (lookupChild n globChar) as [g'|] eqn:Eg'; [|apply runs_ret].
      apply (query_total fuel); auto; try lia.
      - apply (wf_edge _ _ _ _ W _ _ _ _ En Eg').
      - unfold dist. lia. }
    destruct Hhit as [hit Rhit]. rewrite (bind_run _ _ _ _ _ Rhit).
    destruct hit; [reflexivity|].
    rewrite (bind_run _ _ _ _ _ (load_run _ _ _ En)).
    pose proof (wf_oneShot _ _ _ _ W _ _ En) as Hos. unfold oneShot_ok in Hos.
    destruct (subtrees n) as [m|] eqn:Em; [|contradiction].
    destruct (lookup_lt_is_Some_2 h v Hv) as [nv Env].
    pose proof (wf_nodeChar _ _ _ _ W _ _ _ _ _ En Ev Env Hb2) as Hnc.
    assert (Hnext : checkPath_loop fuel gpn v s (i + 1) (Z.of_nat (length s)) h
                    = Done (true, h)).
    { apply (IH u (i + 1) v q fuel Hv ltac:(lia) Hd' Hpl' Hw); [unfold dist; lia|].
      intros fuel' Hf'. replace (i + 1 + Z.of_nat (length t))
        with (i + Z.of_nat (length (b :: t))) in * by (simpl length; lia).
      apply Hend. exact Hf'. }
    destruct (oneShot n) as [o|] eqn:Eo.
    + destruct Hos as [c0 Hm].
      assert (o = v) as ->.
      { unfold lookupChild in Ev. rewrite Em, Hm in Ev.
        apply lookup_singleton_Some in Ev. destruct Ev; congruence. }
      rewrite (bind_run _ _ _ _ _ (load_run _ _ _ Env)), Hnc.
      destruct (Z.eqb_spec (foldCase ic b) globChar) as [|_]; [contradiction|].
      rewrite Z.eqb_refl. exact Hnext.
    + rewrite Ev. exact Hnext.
Qed.

(** A pattern [p*], with [p] of plain bytes, matches [p] followed by any
    non-empty suffix, whatever else the trie holds. *)
Lemma glob_suffix_matched ic r h ps p x fuel :
  built ic r h ps -> (p ++ [star]) ∈ ps ->
  Forall (fun b => b <> star /\ b <> globChar) p -> x <> [] ->
  (fuelFor (p ++ x) <= fuel)%nat ->
  checkPath fuel r (p ++ x) 0 (Z.of_nat (length (p ++ x))) h = Done (true, h).
Proof.
  intros Hb Hin Hp Hx Hf. destruct (built_wf _ _ _ _ Hb) as (name & W & _).
  assert (Hpl : Forall (plain ic) p).
  { eapply Forall_impl; [exact Hp|]. intros b Hbb. apply plain_iff. exact Hbb. }
  destruct (built_globAccepted ic r h ps p Hb Hin)
    as (q & n & g & ng & Hw & En & Hgc & Hl & Eg & Hc).
  rewrite (keys_plain ic p Hpl) in Hw.
  pose proof (wf_root _ _ _ _ W) as Hr.
  destruct (lookup_lt_is_Some_2 h r Hr) as [nr Er].
  unfold fuelFor in Hf. destruct fuel as [|fuel]; [lia|]. cbn [checkPath].
  apply (checkPath_loop_descend ic r name h (p ++ x) r W Hr p x 0 r q fuel Hr);
    auto; try lia.
  - unfold dist. lia.
  - intros fuel' Hf'. rewrite length_app in *. unfold dist in Hf'.
    destruct x as [|b x]; [congruence|]. simpl length in *.
    destruct fuel' as [|fuel']; [lia|]. cbn [checkPath_loop].
    destruct (Z.ltb_spec (0 + Z.of_nat (length p))
                (Z.of_nat (length p + S (length x)))) as [_|Hge]; [|lia].
    assert (Eb : (p ++ b :: x) !! Z.to_nat (0 + Z.of_nat (length p)) = Some b).
    { replace (Z.to_nat (0 + Z.of_nat (length p))) with (length p + 0)%nat by lia.
      rewrite lookup_app_r by lia. replace (length p + 0 - length p)%nat with 0%nat by lia.
      reflexivity. }
    assert (H0 : 0 <= 0 + Z.of_nat (length p)) by lia.
    rewrite (bind_run _ _ _ _ _ (byteAt_run _ _ b h H0 Eb)).
    rewrite (bind_run _ _ _ _ _ (load_run _ _ _ Er)).
    rewrite (bind_run _ _ _ _ _ (load_run _ _ _ En)), Hgc, Hl.
    destruct fuel' as [|fuel']; [lia|].
    match goal with
    | |- bind ?m _ _ = _ => assert (Hhit : m h = Done (true, h))
    end.
    { cbn [globConsume]. rewrite (bind_run _ _ _ _ _ (load_run _ _ _ Eg)), Hc. reflexivity. }
    rewrite (bind_run _ _ _ _ _ Hhit). reflexivity.
Qed.

(** C2: a pattern that ends in ['*'] matches its literal prefix followed
    by a non-empty suffix ([glob_suffix_matched] above), but [checkPath]
    rejects the literal prefix alone: at the end of the candidate it looks
    at the flags of the node reached, not at that node's wildcard child. *)
Theorem trailing_glob_rejects_prefix :
  queryWith checkPath false [bytes "a*"] (bytes "a") = Some false /\
  queryWith checkPath false [bytes "a*"] (bytes "ab") = Some true /\
  queryWith checkPath false [bytes "*"] [] = Some false /\
  queryWith checkPath false [bytes "a*b"] (bytes "ab") = Some true.
Proof. vm_compute. auto. Qed.

(** C3: with the single pattern [a*b] the candidate [a*] is accepted by
    [checkPath] through the single-child pointer, and rejected by the
    keyed lookup: the node of the wildcard carries ['*'] in [nodeChar],
    not [globChar], so the test against [globChar] never fires. *)
Theorem oneShot_changes_result :
  queryWith checkPath false [bytes "a*b"] (bytes "a*") = Some true /\
  queryWith checkPath_keyed false [bytes "a*b"] (bytes "a*") = Some false.
Proof. vm_compute. auto. Qed.

Lemma sameCase_length s s' : sameCase s s' -> length s = length s'.
Proof.
  intros Hs. apply (f_equal length) in Hs. rewrite !List.length_map in Hs. exact Hs.
Qed.

Lemma sameCase_cons_inv b s s' :
  sameCase (b :: s) s' ->
  exists b' s'', s' = b' :: s'' /\ foldCase true b = foldCase true b' /\ sameCase s s''.
Proof.
  unfold sameCase. destruct s' as [|b' s'']; simpl; intros E; [discriminate|].
  inversion E. eauto.
Qed.

Lemma addPath_loop_sameCase r s : forall s' name h cur,
  sameCase s s' -> wf true r name h -> (cur < length h)%nat ->
  addPath_loop r cur s h = addPath_loop r cur s' h.
Proof.
  induction s as [|b s IH]; intros s' name h cur Hs W Hcur.
  - destruct s'; [reflexivity|discriminate].
  - apply sameCase_cons_inv in Hs as (b' & s'' & -> & Hb & Hs).
    destruct (lookup_lt_is_Some_2 h r (wf_root _ _ _ _ W)) as [g Eg].
    cbn [addPath_loop]. apply bind_cong.
    { apply (addPath_step_sameCase r cur b b' h g Eg (wf_icase _ _ _ _ W _ _ Eg) Hb). }
    intros v0 h0 R0.
    destruct (addPath_step_wf true r name h cur b W Hcur)
      as (v & h1 & name1 & R1 & W1 & _ & Hv1 & _).
    rewrite R1 in R0. inversion R0; subst v0 h0.
    apply (IH s'' name1 h1 v Hs W1 Hv1).
Qed.

Lemma addPath_sameCase r name h s s' :
  sameCase s s' -> wf true r name h -> addPath r s h = addPath r s' h.
Proof.
  intros Hs W. unfold addPath. apply bind_load_cong. intros g Eg.
  destruct (subtrees g); [|reflexivity].
  apply bind_cong; [|reflexivity].
  apply (addPath_loop_sameCase r s s' name h r Hs W (wf_root _ _ _ _ W)).
Qed.

Lemma built_sameCase r h ps :
  built true r h ps -> forall ps', Forall2 sameCase ps ps' -> built true r h ps'.
Proof.
  induction 1 as [r h Hnew|r h h' ps s Hb IH Hadd]; intros ps' Hf.
  - apply Forall2_nil_inv_l in Hf as ->. apply built_new. exact Hnew.
  - apply Forall2_app_inv_l in Hf as (k1 & k2 & Hf1 & Hf2 & ->).
    apply Forall2_cons_inv_l in Hf2 as (s' & k3 & Hs & Hf3 & ->).
    apply Forall2_nil_inv_l in Hf3 as ->.
    destruct (built_wf _ _ _ _ Hb) as (name & W & _).
    apply (built_add true r h h' k1 s' (IH k1 Hf1)).
    rewrite <- (addPath_sameCase r name h s s' Hs W). exact Hadd.
Qed.

Lemma built_all_icase r h ps : built true r h ps -> all_icase h.
Proof.
  intros Hb. destruct (built_wf _ _ _ _ Hb) as (name & W & _).
  intros p n En. apply (wf_icase _ _ _ _ W _ _ En).
Qed.

(** C4: in a case-insensitive trie the result of [checkPath] does not
    change when the case of ASCII letters is changed in the inserted
    patterns or in the candidate; [Example.COM] and [example.com] match
    each other there, and do not in a case-sensitive trie, where a
    candidate that differs from the only pattern is rejected. *)
Theorem case_folding r h r' h' ps ps' c c' fuel :
  built true r h ps -> built true r' h' ps' ->
  Forall2 sameCase ps ps' -> sameCase c c' ->
  checkPath fuel r c 0 (Z.of_nat (length c)) h =
    checkPath fuel r' c' 0 (Z.of_nat (length c')) h' /\
  queryWith checkPath true [bytes "Example.COM"] (bytes "example.com") = Some true /\
  queryWith checkPath true [bytes "example.com"] (bytes "Example.COM") = Some true /\
  queryWith checkPath false [bytes "Example.COM"] (bytes "example.com") = Some false /\
  queryWith checkPath false [bytes "example.com"] (bytes "Example.COM") = Some false /\
  (forall rs hs p, built false rs hs [p] -> Forall literal p -> c <> p ->
     (fuelFor c <= fuel)%nat ->
     checkPath fuel rs c 0 (Z.of_nat (length c)) hs = Done (false, hs)).
Proof.
  intros Hb Hb' Hps Hc. split; [|split; [|split; [|split; [|split]]]];
    try (vm_compute; reflexivity).
  - pose proof (built_sameCase r h ps Hb ps' Hps) as Hb2.
    destruct (built_inj true ps' r h r' h' Hb2 Hb') as [<- <-].
    rewrite <- (sameCase_length c c' Hc).
    apply (query_sameCase c c' h Hc (built_all_icase r h ps Hb) fuel).
  - intros rs hs p Hbs Hlit Hne Hf.
    rewrite (checkPath_on_literals rs hs [p] c fuel Hbs); [|repeat constructor; exact Hlit|exact Hf].
    rewrite bool_decide_eq_false_2; [reflexivity|].
    intros Hin. apply list_elem_of_singleton in Hin. contradiction.
Qed.

Lemma case_folding_witness :
  checkPath 50 0%nat (bytes "EXAMPLE.com") 0 11 (trieOf true [bytes "Example.COM"]) =
  checkPath 50 0%nat (bytes "example.COM") 0 11 (trieOf true [bytes "eXaMpLe.cOm"]).
Proof.
  refine (proj1 (case_folding 0%nat (trieOf true [bytes "Example.COM"])
                   0%nat (trieOf true [bytes "eXaMpLe.cOm"])
                   [bytes "Example.COM"] [bytes "eXaMpLe.cOm"]
                   (bytes "EXAMPLE.com") (bytes "example.COM") 50
                   (built_trieOf true _) (built_trieOf true _) _ _)).
  - constructor; [vm_compute; reflexivity|constructor].
  - vm_compute. reflexivity.
Defined.

(** C5, as stated, fails on the pattern made of the byte 1, which holds
    no ['*']: it shares its key with the wildcard and is never matched. *)
Lemma sentinel_pattern_not_matched :
  built false 0%nat (trieOf false [[1]]) [[1]] /\
  Forall (fun b => b <> star) [1] /\
  checkPath (fuelFor [1]) 0%nat [1] 0 1 (trieOf false [[1]]) =
    Done (false, trieOf false [[1]]).
Proof.
  split; [apply built_trieOf|]. split; [repeat constructor; discriminate|].
  vm_compute. reflexivity.
Qed.

(** C5: a pattern without ['*'] and without the sentinel byte that was
    inserted is matched by [checkPath], whatever was inserted before or
    after it; and [addPath] never clears a [canMatch] flag. *)
Theorem inserted_pattern_stays_matched ic r h ps p fuel :
  built ic r h ps -> p ∈ ps ->
  Forall (fun b => b <> star /\ b <> globChar) p ->
  (fuelFor p <= fuel)%nat ->
  checkPath fuel r p 0 (Z.of_nat (length p)) h = Done (true, h) /\
  (forall s h', addPath r s h = Done (None, h') ->
     forall q n, h !! q = Some n -> canMatch n = true ->
       exists n', h' !! q = Some n' /\ canMatch n' = true).
Proof.
  intros Hb Hin Hp Hf. destruct (built_wf _ _ _ _ Hb) as (name & W & Hacc & _).
  assert (Hpl : Forall (plain ic) p).
  { eapply Forall_impl; [exact Hp|]. intros b Hbb. apply plain_iff. exact Hbb. }
  split.
  - assert (Ha : accepted h r (keys ic p)).
    { apply Hacc. apply list_elem_of_In, in_map, list_elem_of_In. exact Hin. }
    destruct Ha as (q & nq & Hw & Eq & Hc). rewrite (keys_plain ic p Hpl) in Hw.
    unfold fuelFor in Hf. destruct fuel as [|fuel]; [lia|]. cbn [checkPath].
    apply (checkPath_loop_member ic r name h p W fuel 0 r r q nq);
      try apply (wf_root _ _ _ _ W); auto; [lia|unfold dist; lia].
  - intros s h' A q n En Hc.
    destruct (addPath_wf ic r name h s W) as (h2 & name2 & R & _ & _ & _ & Hcm & _).
    rewrite R in A. inversion A; subst h2. apply (Hcm _ _ En Hc).
Qed.

Lemma inserted_pattern_stays_matched_witness :
  checkPath 20 0%nat (bytes "AB") 0 2
    (trieOf true [bytes "a*c"; bytes "AB"; bytes "abc"; bytes "*b"]) =
  Done (true, trieOf true [bytes "a*c"; bytes "AB"; bytes "abc"; bytes "*b"]).
Proof.
  refine (proj1 (inserted_pattern_stays_matched true 0%nat _
            [bytes "a*c"; bytes "AB"; bytes "abc"; bytes "*b"] (bytes "AB") 20
            (built_trieOf true _) _ _ _)).
  - apply list_elem_of_In. simpl. auto.
  - apply (bool_decide_unpack _). vm_compute. exact I.
  - vm_compute. lia.
Defined.

(** C6: in a trie grown by [addPath] every node has a [oneShot] pointer
    exactly when its [subtrees] map has one entry, the pointer is that
    entry, and a node with two or more children has none; the iteration
    of [addPath] that adds a second key to a node with one child leaves
    that node without [oneShot]. *)
Theorem oneShot_invariant ic r h ps p n :
  built ic r h ps -> h !! p = Some n ->
  exists m, subtrees n = Some m /\
    (oneShot n <> None <-> size m = 1%nat) /\
    (forall q, oneShot n = Some q -> exists c, m = {[c := q]} /\ m !! c = Some q) /\
    ((2 <= size m)%nat -> oneShot n = None) /\
    (forall b, size m = 1%nat -> m !! keyOf ic b = None ->
       exists v h1 n1, addPath_step r p b h = Done (v, h1) /\
         h1 !! p = Some n1 /\
         subtrees n1 = Some (<[keyOf ic b := v]> m) /\ oneShot n1 = None).
Proof.
  intros Hb En. destruct (built_wf _ _ _ _ Hb) as (name & W & _).
  pose proof (wf_oneShot _ _ _ _ W _ _ En) as Hos. unfold oneShot_ok in Hos.
  destruct (subtrees n) as [m|] eqn:Em; [|contradiction]. exists m. split; [reflexivity|].
  assert (Hstep : forall b, size m = 1%nat -> m !! keyOf ic b = None ->
            exists v h1 n1, addPath_step r p b h = Done (v, h1) /\
              h1 !! p = Some n1 /\
              subtrees n1 = Some (<[keyOf ic b := v]> m) /\ oneShot n1 = None).
  { intros b Hs Hk.
    destruct (addPath_step_effect ic r name h p n m b W En Em)
      as (v & h1 & R & _ & _ & Pc & _).
    exists v, h1. eexists. split; [exact R|]. split; [exact Pc|]. simpl.
    split; [reflexivity|].
    rewrite (map_size_insert_None _ _ _ Hk), Hs. reflexivity. }
  destruct (oneShot n) as [q|].
  - destruct Hos as [c ->].
    split; [rewrite map_size_singleton; split; congruence|].
    split; [|split; [rewrite map_size_singleton; lia|exact Hstep]].
    intros q' Hq. inversion Hq; subst q'. exists c.
    split; [reflexivity|apply lookup_singleton_eq].
  - split; [split; [congruence|contradiction]|]. split; [discriminate|].
    split; [reflexivity|exact Hstep].
Qed.

Lemma oneShot_invariant_witness :
  exists n, trieOf false [bytes "ab"] !! 1%nat = Some n /\
  exists m, subtrees n = Some m /\
    (oneShot n <> None <-> size m = 1%nat) /\
    (forall q, oneShot n = Some q -> exists c, m = {[c := q]} /\ m !! c = Some q) /\
    ((2 <= size m)%nat -> oneShot n = None) /\
    (forall b, size m = 1%nat -> m !! keyOf false b = None ->
       exists v h1 n1,
         addPath_step 0%nat 1%nat b (trieOf false [bytes "ab"]) = Done (v, h1) /\
         h1 !! 1%nat = Some n1 /\
         subtrees n1 = Some (<[keyOf false b := v]> m) /\ oneShot n1 = None).
Proof.
  eexists. split; [vm_compute; reflexivity|].
  apply (oneShot_invariant false 0%nat (trieOf false [bytes "ab"]) [bytes "ab"] 1%nat
           _ (built_trieOf false _)).
  vm_compute. reflexivity.
Defined.

(** C7: on a receiver that is a node, [addPath] returns an error exactly
    when the [subtrees] map of the receiver is nil, and then the store is
    unchanged; [newGlobPathNode] makes a node with a map, and on a trie
    grown from it [addPath] returns no error. *)
Theorem addPath_error gpn s h n :
  h !! gpn = Some n ->
  ((exists e h', addPath gpn s h = Done (Some e, h')) <-> subtrees n = None) /\
  (forall e h', addPath gpn s h = Done (Some e, h') -> h' = h /\ e = errNilSubtrees) /\
  (forall ic h0 r h1, newGlobPathNode ic h0 = Done (r, h1) ->
     exists n1 m, h1 !! r = Some n1 /\ subtrees n1 = Some m) /\
  (forall ic r ps, built ic r h ps -> exists h', addPath r s h = Done (None, h')).
Proof.
  intros En.
  assert (Herr : forall e h', addPath gpn s h = Done (Some e, h') ->
            subtrees n = None /\ h' = h /\ e = errNilSubtrees).
  { intros e h' A. unfold addPath in A.
    rewrite (bind_run _ _ _ _ _ (load_run _ _ _ En)) in A.
    destruct (subtrees n) as [m|].
    - apply bind_Done in A as (q & h1 & _ & A).
      apply bind_Done in A as (u & h2 & _ & A). discriminate.
    - inversion A. auto. }
  split; [split|split; [|split]].
  - intros (e & h' & A). apply (Herr _ _ A).
  - intros Hnil. exists errNilSubtrees, h. unfold addPath.
    rewrite (bind_run _ _ _ _ _ (load_run _ _ _ En)), Hnil. reflexivity.
  - intros e h' A. apply (Herr _ _ A).
  - intros ic h0 r h1 A. unfold newGlobPathNode, alloc in A. inversion A; subst.
    exists (freshNode ic), ∅. split; [|reflexivity].
    rewrite lookup_app_r by lia. rewrite Nat.sub_diag. reflexivity.
  - intros ic r ps Hb. apply (built_addPath ic r h ps s Hb).
Qed.

Lemma addPath_error_witness :
  (exists e h', addPath 0%nat (bytes "ab")
                  [GlobPathNode None None false false false 0 false] = Done (Some e, h'))
  <-> subtrees (GlobPathNode None None false false false 0 false) = None.
Proof.
  apply (addPath_error 0%nat (bytes "ab")
           [GlobPathNode None None false false false 0 false]
           (GlobPathNode None None false false false 0 false)).
  reflexivity.
Defined.

(** C8: a query returns the store it was given. *)
Theorem query_readonly fuel gpn s index mlen h b h' :
  checkPath fuel gpn s index mlen h = Done (b, h') \/
  globConsume fuel gpn s index mlen h = Done (b, h') ->
  h' = h.
Proof.
  destruct (queries_keep_store fuel) as (H1 & _ & H3 & _).
  intros [E|E]; [eapply H1|eapply H3]; exact E.
Qed.

Lemma query_readonly_witness :
  checkPath 20 0%nat (bytes "axb") 0 3 (trieOf false [bytes "a*b"]) =
    Done (true, trieOf false [bytes "a*b"]) /\
  trieOf false [bytes "a*b"] = trieOf false [bytes "a*b"].
Proof.
  split; [vm_compute; reflexivity|].
  apply (query_readonly 20 0%nat (bytes "axb") 0 3 (trieOf false [bytes "a*b"]) true
           (trieOf false [bytes "a*b"])).
  left. vm_compute. reflexivity.
Defined.

(** C10: [checkPath] and [globConsume] return within a number of calls
    that is linear in the length of the unconsumed suffix, on every store
    and every string; on a trie grown by [addPath] they return a boolean. *)
Theorem query_terminates gpn s index mlen h k :
  checkPath (4 * dist index mlen + 4 + k) gpn s index mlen h <> OutOfFuel /\
  globConsume (4 * dist index mlen + 2 + k) gpn s index mlen h <> OutOfFuel /\
  (forall ic ps, built ic gpn h ps ->
     exists b, checkPath (fuelFor s + k) gpn s 0 (Z.of_nat (length s)) h = Done (b, h)).
Proof.
  split; [|split].
  - apply (queries_fuel_bound (4 * dist index mlen + 4 + k)). lia.
  - apply (queries_fuel_bound (4 * dist index mlen + 2 + k)). lia.
  - intros ic ps Hb. destruct (built_wf _ _ _ _ Hb) as (name & W & _).
    apply (query_total (fuelFor s + k)); try lia.
    + apply (wf_closed _ _ _ _ W).
    + apply (wf_root _ _ _ _ W).
    + unfold fuelFor, dist. lia.
Qed.

Lemma query_terminates_witness :
  exists b, checkPath (fuelFor (bytes "axxb") + 0) 0%nat (bytes "axxb") 0 4
              (trieOf false [bytes "a*b"]) = Done (b, trieOf false [bytes "a*b"]).
Proof.
  apply (proj2 (proj2 (query_terminates 0%nat (bytes "axxb") 0 4
                  (trieOf false [bytes "a*b"]) 0%nat)) false [bytes "a*b"]).
  apply built_trieOf.
Defined.

(** ** The signature codec *)

Lemma ctEq_fold_same a acc :
  fold_left (fun acc xy => Z.lor acc (Z.lxor (fst xy) (snd xy))) (combine a a) acc = acc.
Proof.
  revert acc. induction a as [|x a IH]; intros acc; [reflexivity|].
  simpl. rewrite Z.lxor_nilpotent, Z.lor_0_r. apply IH.
Qed.

Lemma ctEq_refl a : ctEq a a = true.
Proof. unfold ctEq. rewrite Nat.eqb_refl, ctEq_fold_same. reflexivity. Qed.

Lemma unhex_hexDigit n : 0 <= n < 16 -> unhexDigit (hexDigit n) = Some n.
Proof.
  intros Hn. unfold hexDigit, unhexDigit.
  destruct (Z.ltb_spec n 10).
  - destruct (Z.leb_spec 48 (48 + n)); [|lia]. destruct (Z.leb_spec (48 + n) 57); [|lia].
    simpl. f_equal. lia.
  - destruct (Z.leb_spec 48 (87 + n)); [|lia]. destruct (Z.leb_spec (87 + n) 57); [lia|].
    simpl. destruct (Z.leb_spec 97 (87 + n)); [|lia].
    destruct (Z.leb_spec (87 + n) 102); [|lia]. simpl. f_equal. lia.
Qed.

Lemma hex_roundtrip u :
  Forall (fun b => 0 <= b < 256) u -> hexDecode (hexEncode u) = Some u.
Proof.
  induction 1 as [|b u Hb _ IH]; [reflexivity|].
  simpl. rewrite !unhex_hexDigit, IH.
  - f_equal. f_equal. pose proof (Z.div_mod b 16). lia.
  - apply Z.mod_pos_bound. lia.
  - split; [apply Z.div_pos; lia|apply Z.div_lt_upper_bound; lia].
Qed.

Section Codec.

Variable mac : list Z -> list Z -> list Z.
Variable enc : list Z -> list Z.
Variable dec : list Z -> option (list Z).

Lemma decode_encode key url :
  dec (enc url) = Some url -> decode mac dec key (encode mac enc key url) = inr url.
Proof.
  intros Hd. unfold decode, encode. simpl. rewrite Hd, ctEq_refl. reflexivity.
Qed.

(** A token whose tag was altered is rejected as long as its body is an
    encoding. *)
Lemma decode_bad_tag key url t :
  dec (enc url) = Some url -> ctEq t (mac key (enc url)) = false ->
  decode mac dec key (Token t (enc url)) = inl InvalidSignature.
Proof.
  intros Hd Ht. unfold decode. simpl. rewrite Hd, Ht. reflexivity.
Qed.


End Codec.

(** With base16 the codec round-trips on every string of bytes, whatever
    the MAC. *)
Lemma hex_codec_roundtrip mac key url :
  Forall (fun b => 0 <= b < 256) url ->
  decode mac hexDecode key (encode mac hexEncode key url) = inr url.
Proof. intros Hu. apply decode_encode. apply hex_roundtrip. exact Hu. Qed.


(** * Part IV: further properties of the trie *)

(** ** Patterns of plain bytes, in either kind of trie *)

(** X4: in a trie grown from patterns without ['*'] and without the sentinel
    byte, [checkPath] accepts a candidate exactly when its folded bytes are
    the folded bytes of an inserted pattern. *)
Theorem checkPath_folded_exact ic r h ps cand fuel :
  built ic r h ps ->
  Forall (Forall (fun b => b <> star /\ b <> globChar)) ps ->
  (fuelFor cand <= fuel)%nat ->
  checkPath fuel r cand 0 (Z.of_nat (length cand)) h =
  Done (bool_decide (List.map (foldCase ic) cand ∈ List.map (List.map (foldCase ic)) ps), h).
Proof.
  intros Hb Hps Hf. destruct (built_wf _ _ _ _ Hb) as (name & W & Hacc & Hng).
  assert (Hpl : Forall (Forall (plain ic)) ps).
  { eapply Forall_impl; [exact Hps|]. intros p Hp.
    eapply Forall_impl; [exact Hp|]. intros b Hbb. apply plain_iff. exact Hbb. }
  pose proof (Hng Hpl) as Hn.
  assert (Hk : List.map (keys ic) ps = List.map (List.map (foldCase ic)) ps).
  { clear -Hpl. induction Hpl as [|p ps Hp _ IH]; [reflexivity|].
    simpl. rewrite IH, (keys_plain ic p Hp). reflexivity. }
  unfold fuelFor in Hf. destruct fuel as [|fuel]; [lia|]. cbn [checkPath].
  rewrite (checkPath_loop_noglob ic r name h cand W Hn fuel 0 r r);
    try apply (wf_root _ _ _ _ W); [|lia|unfold dist; lia].
  simpl drop. f_equal. f_equal.
  apply bool_eq_decide. rewrite walkMatch_accepted, Hacc, Hk. reflexivity.
Qed.

Lemma checkPath_folded_exact_witness :
  checkPath 30 0%nat (bytes "a.PNG") 0 5 (trieOf true [bytes "A.png"; bytes "b"]) =
  Done (true, trieOf true [bytes "A.png"; bytes "b"]).
Proof.
  apply (checkPath_folded_exact true 0%nat _ [bytes "A.png"; bytes "b"] (bytes "a.PNG") 30
           (built_trieOf true _)).
  - apply (bool_decide_unpack _). vm_compute. exact I.
  - vm_compute. lia.
Defined.

(** ** The nodes that [addPath] allocates *)

Lemma addPath_loop_alloc ic r s : forall name h cur q h',
  wf ic r name h -> (cur < length h)%nat ->
  addPath_loop r cur s h = Done (q, h') ->
  (length h <= length h' <= length h + length s)%nat /\
  (forall q0, walk h cur (keys ic s) = Some q0 -> q = q0 /\ length h' = length h).
Proof.
  induction s as [|b s IH]; intros name h cur q h' W Hcur R.
  - inversion R; subst. simpl. split; [lia|]. intros q0 E. inversion E. auto.
  - cbn [addPath_loop] in R.
    destruct (lookup_lt_is_Some_2 h cur Hcur) as [ncur Ecur].
    pose proof (wf_oneShot _ _ _ _ W _ _ Ecur) as Hos. unfold oneShot_ok in Hos.
    destruct (subtrees ncur) as [subt|] eqn:Esub; [|contradiction].
    destruct (addPath_step_effect ic r name h cur ncur subt b W Ecur Esub)
      as (v & h1 & R1 & Hne & Hcase & Pc & Pv & O).
    destruct (addPath_step_wf ic r name h cur b W Hcur)
      as (v0 & h0 & name1 & R0 & W1 & _ & Hv1 & _).
    rewrite R1 in R0. inversion R0; subst v0 h0. clear R0.
    rewrite (bind_run _ _ _ _ _ R1) in R.
    destruct (IH name1 h1 v q h' W1 Hv1 R) as [Hlen Hwalk].
    split.
    + simpl length. destruct Hcase as [[_ L]|[_ [_ L]]]; lia.
    + intros q0 Hw. simpl keys in Hw. rewrite walk_cons, Ecur in Hw.
      unfold lookupChild in Hw. rewrite Esub in Hw.
      destruct Hcase as [[Ev L]|[Ev _]]; rewrite Ev in Hw; [|discriminate].
      assert (Hw1 : walk h1 v (keys ic s) = Some q0).
      { apply (grows_walk h h1); [|exact Hw].
        apply (addPath_step_grows ic r name h cur b v h1 W Hcur R1). }
      destruct (Hwalk q0 Hw1) as [-> L']. split; [reflexivity|lia].
Qed.

Lemma addPath_alloc ic r h ps s h' :
  built ic r h ps -> addPath r s h = Done (None, h') ->
  (length h <= length h' <= length h + length s)%nat /\
  ((exists q, walk h r (keys ic s) = Some q) -> length h' = length h) /\
  (s ∈ ps -> length h' = length h).
Proof.
  intros Hb A. destruct (built_wf _ _ _ _ Hb) as (name & W & Hacc & _).
  destruct (addPath_run ic r name h s W) as (q & h1 & name1 & nq & R1 & W1 & Enq & _ & A1).
  rewrite A1 in A. inversion A; subst h'. clear A A1.
  destruct (addPath_loop_alloc ic r s name h r q h1 W (wf_root _ _ _ _ W) R1) as [L Hw].
  rewrite length_insert.
  assert (Hpath : (exists q0, walk h r (keys ic s) = Some q0) -> length h1 = length h).
  { intros [q0 E]. apply (Hw q0 E). }
  split; [exact L|]. split; [exact Hpath|].
  intros Hin. apply Hpath.
  assert (Ha : accepted h r (keys ic s)).
  { apply Hacc. apply list_elem_of_In, in_map, list_elem_of_In. exact Hin. }
  destruct Ha as (q0 & _ & E & _). exists q0. exact E.
Qed.

(** X10: [addPath] allocates at most one node for each byte of the pattern and
    frees none; it allocates none when the keys of the pattern already lead
    somewhere, as they do for a pattern inserted before. *)
Theorem addPath_allocates ic r h ps s h' :
  built ic r h ps -> addPath r s h = Done (None, h') ->
  (length h <= length h' <= length h + length s)%nat /\
  ((exists q, walk h r (keys ic s) = Some q) -> length h' = length h) /\
  (s ∈ ps -> length h' = length h).
Proof. apply addPath_alloc. Qed.

Lemma addPath_allocates_witness :
  exists h',
    addPath 0%nat (bytes "abcd") (trieOf false [bytes "ab"]) = Done (None, h') /\
    (length (trieOf false [bytes "ab"]) <= length h'
       <= length (trieOf false [bytes "ab"]) + length (bytes "abcd"))%nat.
Proof.
  eexists. split; [vm_compute; reflexivity|].
  refine (proj1 (addPath_allocates false 0%nat (trieOf false [bytes "ab"]) [bytes "ab"]
                   (bytes "abcd") _ (built_trieOf false _) _)).
  vm_compute. reflexivity.
Defined.

(** X11: a trie holds at most one node for each byte of the patterns inserted,
    and the root. *)
Theorem trie_size_bound ic r h ps :
  built ic r h ps ->
  (1 <= length h <= 1 + list_sum (List.map (@length Z) ps))%nat.
Proof.
  induction 1 as [r h Hnew|r h h' ps s Hb IH Hadd].
  - inversion Hnew; subst. simpl. lia.
  - pose proof (addPath_alloc ic r h ps s h' Hb Hadd) as [L _].
    rewrite List.map_app, list_sum_app. simpl. lia.
Qed.

Lemma trie_size_bound_witness :
  (1 <= length (trieOf false [bytes "ab"; bytes "a*c"; bytes "ab"]) <= 1 + (2 + 3 + 2))%nat.
Proof.
  apply (trie_size_bound false 0%nat _ [bytes "ab"; bytes "a*c"; bytes "ab"]
           (built_trieOf false _)).
Defined.

(** ** The flags of the wildcard *)

Lemma foldCase_globChar ic b : foldCase ic b = globChar <-> b = globChar.
Proof.
  unfold foldCase, globChar.
  destruct ic; simpl; [|tauto].
  destruct (Z.leb_spec 65 b); simpl; [|tauto].
  destruct (Z.leb_spec b 90); simpl; [|tauto].
  rewrite Z.mod_small by lia. lia.
Qed.

Lemma wf_name_inj ic r name h p q :
  wf ic r name h -> (p < length h)%nat -> (q < length h)%nat ->
  name p = name q -> p = q.
Proof.
  intros W Hp Hq E. pose proof (wf_reach _ _ _ _ W p Hp) as Wp.
  pose proof (wf_reach _ _ _ _ W q Hq) as Wq. rewrite E in Wp. congruence.
Qed.

(** What an iteration of [addPath] does to every node of the store. *)
Lemma addPath_step_nodes ic r name h cur ncur subt b v h' :
  wf ic r name h -> h !! cur = Some ncur -> subtrees ncur = Some subt ->
  addPath_step r cur b h = Done (v, h') ->
  let part := foldCase ic b in
  let c := keyOf ic b in
  v <> cur /\
  (subt !! c = Some v \/ (subt !! c = None /\ v = length h)) /\
  h' !! cur = Some (GlobPathNode (Some (<[c:=v]> subt))
                      (if (size (<[c:=v]> subt) =? 1)%nat then Some v else None)
                      (isGlob ncur) (canMatch ncur)
                      (hasGlobChild ncur || (part =? star))
                      (nodeChar ncur) (icase ncur)) /\
  h' !! v = Some (let nv := default (freshNode ic) (h !! v) in
                  GlobPathNode (subtrees nv) (oneShot nv)
                    (isGlob nv || (part =? star)) (canMatch nv)
                    (hasGlobChild nv) part (icase nv)) /\
  (forall p, p <> cur -> p <> v -> h' !! p = h !! p) /\
  (forall p n, h !! p = Some n ->
     exists n', h' !! p = Some n' /\ canMatch n' = canMatch n /\
       (isGlob n = true -> isGlob n' = true) /\
       (hasGlobChild n = true -> hasGlobChild n' = true) /\
       (p <> v -> nodeChar n' = nodeChar n /\ isGlob n' = isGlob n) /\
       (p <> cur -> subtrees n' = subtrees n /\ hasGlobChild n' = hasGlobChild n)).
Proof.
  intros W Ecur Esub R part c.
  destruct (addPath_step_effect ic r name h cur ncur subt b W Ecur Esub)
    as (v0 & h0 & R0 & Hne & Hcase & Pc & Pv & O).
  rewrite R in R0. inversion R0; subst v0 h0. clear R0.
  split; [exact Hne|]. split; [destruct Hcase as [[? _]|[? [? _]]]; auto|].
  split; [exact Pc|]. split; [exact Pv|]. split; [exact O|].
  intros p n En. destruct (decide (p = cur)) as [->|Hpc].
  - rewrite Ecur in En. inversion En; subst n. eexists. split; [exact Pc|]. simpl.
    split; [reflexivity|]. split; [auto|]. split; [intros ->; reflexivity|].
    split; [auto|]. intros Hx. congruence.
  - destruct (decide (p = v)) as [->|Hpv].
    + eexists. split; [exact Pv|]. rewrite En. simpl.
      split; [reflexivity|]. split; [intros ->; reflexivity|]. split; [auto|].
      split; [intros Hx; congruence|]. auto.
    + exists n. rewrite O by auto. auto 10.
Qed.

Lemma addPath_step_globFlags ic r name h cur b v h' :
  wf ic r name h -> (cur < length h)%nat ->
  addPath_step r cur b h = Done (v, h') -> globFlags h -> globFlags h'.
Proof.
  intros W Hcur R I1.
  destruct (lookup_lt_is_Some_2 h cur Hcur) as [ncur Ecur].
  pose proof (wf_oneShot _ _ _ _ W _ _ Ecur) as Hos. unfold oneShot_ok in Hos.
  destruct (subtrees ncur) as [subt|] eqn:Esub; [|contradiction].
  destruct (addPath_step_nodes ic r name h cur ncur subt b v h' W Ecur Esub R)
    as (Hne & Hcase & Pc & Pv & O & Hall).
  assert (Hold : forall p n, h !! p = Some n -> hasGlobChild n = true ->
            forall n', h' !! p = Some n' -> subtrees n' = subtrees n ->
            exists g ng, lookupChild n' globChar = Some g /\ h' !! g = Some ng /\
                         isGlob ng = true).
  { intros p n En Hgc n' En' Hs. destruct (I1 p n En Hgc) as (g & ng & Hl & Eg & Hig).
    destruct (Hall g ng Eg) as (ng' & Eg' & _ & Hm & _).
    exists g, ng'. unfold lookupChild in *. rewrite Hs. auto. }
  intros p n' En' Hgc. destruct (decide (p = cur)) as [->|Hpc].
  - rewrite Pc in En'. inversion En'; subst n'. clear En'. simpl in Hgc.
    unfold lookupChild. simpl.
    destruct (decide (keyOf ic b = globChar)) as [Hk|Hk].
    + rewrite Hk, lookup_insert_eq. exists v. eexists. split; [reflexivity|].
      split; [exact Pv|]. simpl.
      destruct (Z.eqb_spec (foldCase ic b) star) as [|Hns]; [apply orb_true_r|].
      rewrite orb_false_r in Hgc |- *.
      destruct (I1 cur ncur Ecur Hgc) as (g & ng & Hl & Eg & Hig).
      unfold lookupChild in Hl. rewrite Esub, <- Hk in Hl.
      destruct Hcase as [Ev|[Ev _]]; rewrite Ev in Hl; [|discriminate].
      inversion Hl; subst g. rewrite Eg. exact Hig.
    + assert (Hns : (foldCase ic b =? star) = false).
      { destruct (Z.eqb_spec (foldCase ic b) star) as [Es|]; [|reflexivity].
        exfalso. apply Hk. unfold keyOf. cbv zeta. rewrite Es. reflexivity. }
      rewrite Hns, orb_false_r in Hgc.
      destruct (I1 cur ncur Ecur Hgc) as (g & ng & Hl & Eg & Hig).
      destruct (Hall g ng Eg) as (ng' & Eg' & _ & Hm & _).
      exists g, ng'. rewrite lookup_insert_ne by congruence.
      unfold lookupChild in Hl. rewrite Esub in Hl. auto.
  - destruct (decide (p = v)) as [->|Hpv].
    + rewrite Pv in En'. inversion En'; subst n'. simpl in Hgc.
      destruct (h !! v) as [nv|] eqn:Env; simpl in Hgc; [|discriminate].
      apply (Hold v nv Env Hgc _ Pv). reflexivity.
    + rewrite O in En' by auto. apply (Hold p n' En' Hgc n'); [|reflexivity].
      rewrite O by auto. exact En'.
Qed.

Lemma addPath_step_globKey ic r name h cur b v h' :
  wf ic r name h -> (cur < length h)%nat ->
  addPath_step r cur b h = Done (v, h') -> b <> globChar ->
  globKey h -> globKey h'.
Proof.
  intros W Hcur R Hb J.
  destruct (lookup_lt_is_Some_2 h cur Hcur) as [ncur Ecur].
  pose proof (wf_oneShot _ _ _ _ W _ _ Ecur) as Hos. unfold oneShot_ok in Hos.
  destruct (subtrees ncur) as [subt|] eqn:Esub; [|contradiction].
  destruct (addPath_step_nodes ic r name h cur ncur subt b v h' W Ecur Esub R)
    as (Hne & Hcase & Pc & Pv & O & Hall).
  assert (Hpart : foldCase ic b <> globChar) by (rewrite foldCase_globChar; exact Hb).
  (* an old wildcard child is not the child of this iteration, unless it
     hangs below [cur] under [globChar] *)
  assert (Hold : forall p n g, h !! p = Some n -> lookupChild n globChar = Some g ->
            (p <> cur \/ keyOf ic b <> globChar) ->
            forall n' ng', h' !! p = Some n' -> h' !! g = Some ng' ->
            (hasGlobChild n = true -> hasGlobChild n' = true) ->
            hasGlobChild n' = true /\ isGlob ng' = true /\ nodeChar ng' = star).
  { intros p n g En Hl Hd n' ng' En' Eg' Hmono.
    destruct (wf_edge _ _ _ _ W _ _ _ _ En Hl) as [Hg Hname].
    destruct (lookup_lt_is_Some_2 h g Hg) as [ng Eg].
    destruct (J p n g ng En Hl Eg) as (J1 & J2 & J3).
    assert (Hgv : g <> v).
    { intros ->. destruct Hcase as [Ev|[_ Ev]]; [|lia].
      assert (Hl' : lookupChild ncur (keyOf ic b) = Some v).
      { unfold lookupChild. rewrite Esub. exact Ev. }
      destruct (wf_edge _ _ _ _ W _ _ _ _ Ecur Hl') as [_ Hname'].
      rewrite Hname in Hname'. apply app_inj_tail in Hname' as [Hn Hc].
      destruct Hd as [Hd|Hd]; [|congruence].
      apply Hd. apply (wf_name_inj ic r name h p cur W); auto.
      apply (lookup_lt_Some _ _ _ En). }
    destruct (Hall g ng Eg) as (ng0 & Eg0 & _ & _ & _ & Hfr & _).
    rewrite Eg' in Eg0. inversion Eg0; subst ng0. destruct (Hfr Hgv) as [F1 F2].
    split; [auto|]. split; congruence. }
  intros p n' g ng' En' Hl Eg'. destruct (decide (p = cur)) as [->|Hpc].
  - rewrite Pc in En'. inversion En'; subst n'. clear En'.
    unfold lookupChild in Hl. simpl in Hl.
    destruct (decide (keyOf ic b = globChar)) as [Hk|Hk].
    + rewrite Hk, lookup_insert_eq in Hl. inversion Hl; subst g.
      rewrite Pv in Eg'. inversion Eg'; subst ng'. simpl.
      assert (Es : foldCase ic b = star).
      { unfold keyOf in Hk. cbv zeta in Hk.
        destruct (Z.eqb_spec (foldCase ic b) star); [assumption|contradiction]. }
      rewrite Es, Z.eqb_refl, !orb_true_r. auto.
    + rewrite lookup_insert_ne in Hl by congruence.
      apply (Hold cur ncur g Ecur); auto.
      * unfold lookupChild. rewrite Esub. exact Hl.
      * simpl. intros ->. reflexivity.
  - destruct (decide (p = v)) as [->|Hpv].
    + rewrite Pv in En'. inversion En'; subst n'. unfold lookupChild in Hl. simpl in Hl.
      destruct (h !! v) as [nv|] eqn:Env; simpl in Hl; [|rewrite lookup_empty in Hl; discriminate].
      apply (Hold v nv g Env Hl (or_introl Hpc) _ ng' Pv Eg'). simpl. auto.
    + rewrite O in En' by auto.
      apply (Hold p n' g En' Hl (or_introl Hpc) n' ng'); auto.
      rewrite O by auto. exact En'.
Qed.

Lemma addPath_loop_globFlags ic r s : forall name h cur q h',
  wf ic r name h -> (cur < length h)%nat ->
  addPath_loop r cur s h = Done (q, h') -> globFlags h -> globFlags h'.
Proof.
  induction s as [|b s IH]; intros name h cur q h' W Hcur R I1.
  - inversion R; subst. exact I1.
  - cbn [addPath_loop] in R.
    destruct (addPath_step_wf ic r name h cur b W Hcur)
      as (v & h1 & name1 & R1 & W1 & _ & Hv1 & _).
    rewrite (bind_run _ _ _ _ _ R1) in R.
    apply (IH name1 h1 v q h' W1 Hv1 R).
    apply (addPath_step_globFlags ic r name h cur b v h1 W Hcur R1 I1).
Qed.

Lemma addPath_loop_globKey ic r s : forall name h cur q h',
  wf ic r name h -> (cur < length h)%nat ->
  addPath_loop r cur s h = Done (q, h') -> noSentinel s ->
  globKey h -> globKey h'.
Proof.
  induction s as [|b s IH]; intros name h cur q h' W Hcur R Hs J.
  - inversion R; subst. exact J.
  - cbn [addPath_loop] in R. apply Forall_cons in Hs. destruct Hs as [Hb Hs].
    destruct (addPath_step_wf ic r name h cur b W Hcur)
      as (v & h1 & name1 & R1 & W1 & _ & Hv1 & _).
    rewrite (bind_run _ _ _ _ _ R1) in R.
    apply (IH name1 h1 v q h' W1 Hv1 R Hs).
    apply (addPath_step_globKey ic r name h cur b v h1 W Hcur R1 Hb J).
Qed.

Lemma set_canMatch_lookup (h : heap) (x : ptr) nx (p : ptr) n' :
  h !! x = Some nx -> <[x := set_canMatch true nx]> h !! p = Some n' ->
  exists n, h !! p = Some n /\ n' = (if decide (p = x) then set_canMatch true n else n).
Proof.
  intros Ex En'. pose proof (lookup_lt_Some _ _ _ Ex) as Hx.
  destruct (decide (p = x)) as [->|Hpx].
  - rewrite list_lookup_insert_eq in En' by exact Hx. inversion En'; subst.
    exists nx. auto.
  - rewrite list_lookup_insert_ne in En' by congruence. exists n'. auto.
Qed.

Lemma set_canMatch_globFlags (h : heap) (x : ptr) nx :
  h !! x = Some nx -> globFlags h -> globFlags (<[x := set_canMatch true nx]> h).
Proof.
  intros Ex I1 p n' En' Hgc.
  destruct (set_canMatch_lookup h x nx p n' Ex En') as (n & En & ->).
  assert (Hgc' : hasGlobChild n = true) by (destruct (decide (p = x)); exact Hgc).
  destruct (I1 p n En Hgc') as (g & ng & Hl & Eg & Hig).
  destruct (set_canMatch_grows h x nx Ex g ng Eg) as (ng' & Eg' & _).
  assert (Hig' : isGlob ng' = true).
  { destruct (set_canMatch_lookup h x nx g ng' Ex Eg') as (ng0 & Eg0 & ->).
    rewrite Eg in Eg0. inversion Eg0; subst ng0. destruct (decide (g = x)); exact Hig. }
  exists g, ng'. split; [|auto]. destruct (decide (p = x)); exact Hl.
Qed.

Lemma set_canMatch_globKey (h : heap) (x : ptr) nx :
  h !! x = Some nx -> globKey h -> globKey (<[x := set_canMatch true nx]> h).
Proof.
  intros Ex J p n' g ng' En' Hl Eg'.
  destruct (set_canMatch_lookup h x nx p n' Ex En') as (n & En & ->).
  destruct (set_canMatch_lookup h x nx g ng' Ex Eg') as (ng & Eg & ->).
  assert (Hl' : lookupChild n globChar = Some g) by (destruct (decide (p = x)); exact Hl).
  destruct (J p n g ng En Hl' Eg) as (J1 & J2 & J3).
  destruct (decide (p = x)), (decide (g = x)); simpl; auto.
Qed.

Lemma built_globFlags ic r h ps : built ic r h ps -> globFlags h.
Proof.
  induction 1 as [r h Hnew|r h h' ps s Hb IH Hadd].
  - inversion Hnew; subst. intros p n En Hgc.
    destruct p; simpl in En; [|discriminate]. inversion En; subst n. discriminate.
  - destruct (built_wf _ _ _ _ Hb) as (name & W & _).
    destruct (addPath_run ic r name h s W)
      as (q & h1 & name1 & nq & R1 & W1 & Enq & _ & A1).
    rewrite A1 in Hadd. inversion Hadd; subst h'.
    apply set_canMatch_globFlags; [exact Enq|].
    apply (addPath_loop_globFlags ic r s name h r q h1 W (wf_root _ _ _ _ W) R1 IH).
Qed.

Lemma built_globKey ic r h ps :
  built ic r h ps -> Forall noSentinel ps -> globKey h.
Proof.
  induction 1 as [r h Hnew|r h h' ps s Hb IH Hadd]; intros Hps.
  - inversion Hnew; subst. intros p n g ng En Hl.
    destruct p; simpl in En; [|discriminate]. inversion En; subst n. discriminate.
  - apply Forall_app in Hps as [Hps Hs]. apply Forall_cons in Hs. destruct Hs as [Hs _].
    destruct (built_wf _ _ _ _ Hb) as (name & W & _).
    destruct (addPath_run ic r name h s W)
      as (q & h1 & name1 & nq & R1 & W1 & Enq & _ & A1).
    rewrite A1 in Hadd. inversion Hadd; subst h'.
    apply set_canMatch_globKey; [exact Enq|].
    apply (addPath_loop_globKey ic r s name h r q h1 W (wf_root _ _ _ _ W) R1 Hs (IH Hps)).
Qed.

(** X15: in a trie grown by [addPath] the flags of the wildcard agree with the
    map: a node flagged [hasGlobChild] has a child under [globChar], which
    is flagged [isGlob]; and when no pattern holds the sentinel byte, the
    child under [globChar] is a wildcard, flagged on both sides and
    carrying ['*'] in [nodeChar]. *)
Theorem glob_flags_invariant ic r h ps p n :
  built ic r h ps -> h !! p = Some n ->
  (hasGlobChild n = true ->
     exists g ng, lookupChild n globChar = Some g /\ h !! g = Some ng /\
                  isGlob ng = true) /\
  (Forall (Forall (fun b => b <> globChar)) ps ->
     forall g, lookupChild n globChar = Some g ->
       exists ng, h !! g = Some ng /\
         hasGlobChild n = true /\ isGlob ng = true /\ nodeChar ng = star).
Proof.
  intros Hb En. split.
  - apply (built_globFlags ic r h ps Hb p n En).
  - intros Hps g Hl. destruct (built_wf _ _ _ _ Hb) as (name & W & _).
    destruct (wf_edge _ _ _ _ W _ _ _ _ En Hl) as [Hg _].
    destruct (lookup_lt_is_Some_2 h g Hg) as [ng Eg]. exists ng. split; [exact Eg|].
    apply (built_globKey ic r h ps Hb Hps p n g ng En Hl Eg).
Qed.

Lemma glob_flags_invariant_witness :
  exists n, trieOf false [bytes "ab"; bytes "a*c"] !! 1%nat = Some n /\
    (hasGlobChild n = true ->
     exists g ng, lookupChild n globChar = Some g /\
       trieOf false [bytes "ab"; bytes "a*c"] !! g = Some ng /\ isGlob ng = true).
Proof.
  eexists. split; [vm_compute; reflexivity|].
  refine (proj1 (glob_flags_invariant false 0%nat _ [bytes "ab"; bytes "a*c"] 1%nat _
                   (built_trieOf false _) _)).
  vm_compute. reflexivity.
Defined.

(** ** The shape of the trie *)

Lemma addPath_step_isGlob ic r name h cur b v h' :
  wf ic r name h -> (cur < length h)%nat ->
  addPath_step r cur b h = Done (v, h') ->
  forall p n, h !! p = Some n ->
    exists n', h' !! p = Some n' /\
      (isGlob n = true -> isGlob n' = true) /\ (p = r -> isGlob n' = isGlob n).
Proof.
  intros W Hcur R p n En.
  destruct (lookup_lt_is_Some_2 h cur Hcur) as [ncur Ecur].
  pose proof (wf_oneShot _ _ _ _ W _ _ Ecur) as Hos. unfold oneShot_ok in Hos.
  destruct (subtrees ncur) as [subt|] eqn:Esub; [|contradiction].
  destruct (addPath_step_nodes ic r name h cur ncur subt b v h' W Ecur Esub R)
    as (Hne & Hcase & Pc & Pv & O & Hall).
  destruct (addPath_step_wf ic r name h cur b W Hcur)
    as (v0 & h0 & name1 & R0 & W1 & _ & _ & _ & Hnv & _).
  rewrite R in R0. inversion R0; subst v0 h0. clear R0.
  destruct (Hall p n En) as (n' & En' & _ & Hmono & _ & Hfr & _).
  exists n'. split; [exact En'|]. split; [exact Hmono|].
  intros ->. apply Hfr. intros ->.
  rewrite (wf_root_name _ _ _ _ W1) in Hnv. destruct (name cur); discriminate.
Qed.

Lemma addPath_loop_isGlob ic r s : forall name h cur q h',
  wf ic r name h -> (cur < length h)%nat ->
  addPath_loop r cur s h = Done (q, h') ->
  forall p n, h !! p = Some n ->
    exists n', h' !! p = Some n' /\
      (isGlob n = true -> isGlob n' = true) /\ (p = r -> isGlob n' = isGlob n).
Proof.
  induction s as [|b s IH]; intros name h cur q h' W Hcur R p n En.
  - inversion R; subst. exists n. auto.
  - cbn [addPath_loop] in R.
    destruct (addPath_step_wf ic r name h cur b W Hcur)
      as (v & h1 & name1 & R1 & W1 & _ & Hv1 & _).
    rewrite (bind_run _ _ _ _ _ R1) in R.
    destruct (addPath_step_isGlob ic r name h cur b v h1 W Hcur R1 p n En)
      as (n1 & En1 & M1 & F1).
    destruct (IH name1 h1 v q h' W1 Hv1 R p n1 En1) as (n' & En' & M' & F').
    exists n'. split; [exact En'|]. split; [auto|].
    intros Hp. rewrite (F' Hp), (F1 Hp). reflexivity.
Qed.

Lemma addPath_isGlob ic r name h s h' :
  wf ic r name h -> addPath r s h = Done (None, h') ->
  forall p n, h !! p = Some n ->
    exists n', h' !! p = Some n' /\
      (isGlob n = true -> isGlob n' = true) /\ (p = r -> isGlob n' = isGlob n).
Proof.
  intros W A p n En.
  destruct (addPath_run ic r name h s W)
    as (q & h1 & name1 & nq & R & W1 & Enq & _ & A1).
  rewrite A1 in A. inversion A; subst h'. clear A A1.
  destruct (addPath_loop_isGlob ic r s name h r q h1 W (wf_root _ _ _ _ W) R p n En)
    as (n1 & En1 & M1 & F1).
  pose proof (lookup_lt_Some _ _ _ Enq) as Hq.
  destruct (decide (p = q)) as [->|Hpq].
  - rewrite Enq in En1. inversion En1; subst n1.
    exists (set_canMatch true nq). rewrite list_lookup_insert_eq by exact Hq. auto.
  - exists n1. rewrite list_lookup_insert_ne by congruence. auto.
Qed.

Lemma built_root_isGlob ic r h ps n :
  built ic r h ps -> h !! r = Some n -> isGlob n = false.
Proof.
  intros Hb. revert n. induction Hb as [r h Hnew|r h h' ps s Hb IH Hadd]; intros n En.
  - inversion Hnew; subst. simpl in En. inversion En. reflexivity.
  - destruct (built_wf _ _ _ _ Hb) as (name & W & _).
    destruct (lookup_lt_is_Some_2 h r (wf_root _ _ _ _ W)) as [n0 En0].
    destruct (addPath_isGlob ic r name h s h' W Hadd r n0 En0) as (n' & En' & _ & F).
    rewrite En in En'. inversion En'; subst n'. rewrite (F eq_refl). apply IH. exact En0.
Qed.

Lemma keys_nil_iff ic p : keys ic p = [] <-> p = [].
Proof. destruct p; simpl; split; intros; congruence. Qed.

(** X6: on the empty candidate [checkPath] says whether the empty pattern was
    inserted, whatever else was: the loop does not run, and the root is
    never flagged [isGlob]. *)
Theorem checkPath_empty ic r h ps fuel :
  built ic r h ps -> (2 <= fuel)%nat ->
  checkPath fuel r [] 0 0 h = Done (bool_decide ([] ∈ ps), h).
Proof.
  intros Hb Hf. destruct (built_wf _ _ _ _ Hb) as (name & W & Hacc & _).
  destruct (lookup_lt_is_Some_2 h r (wf_root _ _ _ _ W)) as [n En].
  destruct fuel as [|[|fuel]]; [lia|lia|]. cbn [checkPath checkPath_loop].
  rewrite Z.ltb_irrefl, (bind_run _ _ _ _ _ (load_run _ _ _ En)).
  rewrite (built_root_isGlob ic r h ps n Hb En), orb_false_r.
  unfold ret. f_equal. f_equal. apply bool_eq_decide.
  assert (Ha : accepted h r [] <-> canMatch n = true).
  { split.
    - intros (q & nq & Hw & Eq & Hc). simpl in Hw. inversion Hw; subst q. congruence.
    - intros Hc. exists r, n. auto. }
  rewrite <- Ha, Hacc. split.
  - intros Hin. apply list_elem_of_In, in_map_iff in Hin as (p & Hk & Hin).
    apply keys_nil_iff in Hk. subst p. apply list_elem_of_In. exact Hin.
  - intros Hin. apply list_elem_of_In, in_map_iff. exists []. split; [reflexivity|].
    apply list_elem_of_In. exact Hin.
Qed.

Lemma checkPath_empty_witness :
  checkPath 2 0%nat [] 0 0 (trieOf false [bytes "*"; bytes "a"]) =
  Done (false, trieOf false [bytes "*"; bytes "a"]).
Proof.
  apply (checkPath_empty false 0%nat _ [bytes "*"; bytes "a"] 2 (built_trieOf false _)).
  lia.
Defined.

(** X14: a trie grown by [addPath] is a tree that fills the store: every node
    is reached from the root along exactly one sequence of keys, carries
    the [icase] flag given to [newGlobPathNode], and points to children
    that are nodes of the store other than itself and the root; a child
    filed under a key other than [globChar] carries that key in
    [nodeChar]. *)
Theorem trie_shape ic r h ps p n :
  built ic r h ps -> h !! p = Some n ->
  icase n = ic /\
  (exists t, walk h r t = Some p /\ forall t', walk h r t' = Some p -> t' = t) /\
  (forall c q, lookupChild n c = Some q ->
     exists nq, h !! q = Some nq /\ q <> p /\ q <> r /\
       (c <> globChar -> nodeChar nq = c)).
Proof.
  intros Hb En. destruct (built_wf _ _ _ _ Hb) as (name & W & _).
  pose proof (lookup_lt_Some _ _ _ En) as Hp.
  pose proof (wf_root _ _ _ _ W) as Hr.
  split; [apply (wf_icase _ _ _ _ W _ _ En)|]. split.
  - exists (name p). split; [apply (wf_reach _ _ _ _ W p Hp)|].
    intros t' Hw. destruct (walk_name ic r name h r t' p W Hr Hw) as [_ E].
    rewrite (wf_root_name _ _ _ _ W) in E. simpl in E. congruence.
  - intros c q Hl. destruct (wf_edge _ _ _ _ W _ _ _ _ En Hl) as [Hq Hname].
    destruct (lookup_lt_is_Some_2 h q Hq) as [nq Eq]. exists nq.
    split; [exact Eq|]. split.
    { intros ->. rewrite <- (List.app_nil_r (name p)) in Hname at 1.
      apply app_inv_head in Hname. discriminate. }
    split.
    { intros ->. rewrite (wf_root_name _ _ _ _ W) in Hname.
      destruct (name p); discriminate. }
    intros Hc. apply (wf_nodeChar _ _ _ _ W _ _ _ _ _ En Hl Eq Hc).
Qed.

Lemma trie_shape_witness :
  exists n, trieOf true [bytes "Ab"; bytes "a*"] !! 1%nat = Some n /\ icase n = true.
Proof.
  eexists. split; [vm_compute; reflexivity|].
  refine (proj1 (trie_shape true 0%nat _ [bytes "Ab"; bytes "a*"] 1%nat _
                   (built_trieOf true _) _)).
  vm_compute. reflexivity.
Defined.

(** X13: the nodes flagged [canMatch] are those at the end of the keys of the
    patterns inserted: [addPath] flags the end of its pattern and no other
    node, and creates no other path to a flagged node. *)
Theorem canMatch_marks_patterns ic r h ps t :
  built ic r h ps ->
  ((exists q n, walk h r t = Some q /\ h !! q = Some n /\ canMatch n = true) <->
   exists p, p ∈ ps /\ t = keys ic p).
Proof.
  intros Hb. destruct (built_wf _ _ _ _ Hb) as (name & W & Hacc & _).
  change (accepted h r t <-> exists p, p ∈ ps /\ t = keys ic p).
  rewrite Hacc. split.
  - intros Hin. apply list_elem_of_In, in_map_iff in Hin as (p & Hk & Hin).
    exists p. split; [apply list_elem_of_In; exact Hin|congruence].
  - intros (p & Hin & ->). apply list_elem_of_In, in_map, list_elem_of_In. exact Hin.
Qed.

Lemma canMatch_marks_patterns_witness :
  (exists q n, walk (trieOf false [bytes "a*"; bytes "ab"]) 0%nat [97; 1] = Some q /\
     trieOf false [bytes "a*"; bytes "ab"] !! q = Some n /\ canMatch n = true) <->
  exists p, p ∈ [bytes "a*"; bytes "ab"] /\ [97; 1] = keys false p.
Proof.
  apply (canMatch_marks_patterns false 0%nat _ [bytes "a*"; bytes "ab"] [97; 1]
           (built_trieOf false _)).
Defined.

(** X12: [addPath] only adds: every path of keys leads where it led, and no
    flag [canMatch], [hasGlobChild] or [isGlob] is cleared. *)
Theorem addPath_monotone ic r h ps s h' :
  built ic r h ps -> addPath r s h = Done (None, h') ->
  (forall cur t q, walk h cur t = Some q -> walk h' cur t = Some q) /\
  (forall p n, h !! p = Some n ->
     exists n', h' !! p = Some n' /\
       (canMatch n = true -> canMatch n' = true) /\
       (hasGlobChild n = true -> hasGlobChild n' = true) /\
       (isGlob n = true -> isGlob n' = true)).
Proof.
  intros Hb A. destruct (built_wf _ _ _ _ Hb) as (name & W & _).
  pose proof (addPath_grows ic r name h s h' W A) as Hg. split.
  - intros cur t q. apply (grows_walk h h' cur t q Hg).
  - intros p n En. destruct (Hg p n En) as (n' & En' & Hc & Hgc & _).
    destruct (addPath_isGlob ic r name h s h' W A p n En) as (n2 & En2 & Hig & _).
    rewrite En' in En2. inversion En2; subst n2. exists n'. auto.
Qed.

Lemma addPath_monotone_witness :
  walk (trieOf false [bytes "ab"; bytes "a*c"]) 0%nat (bytes "ab") = Some 2%nat.
Proof.
  refine (proj1 (addPath_monotone false 0%nat (trieOf false [bytes "ab"]) [bytes "ab"]
                   (bytes "a*c") (trieOf false [bytes "ab"; bytes "a*c"])
                   (built_trieOf false _) _) 0%nat (bytes "ab") 2%nat _).
  - vm_compute. reflexivity.
  - vm_compute. reflexivity.
Defined.

(** ** A wildcard inside a pattern *)

Lemma globAt_grows h h' r t : grows h h' -> globAt h r t -> globAt h' r t.
Proof.
  intros Hg (q & n & Hw & En & Hgc).
  destruct (Hg _ _ En) as (n' & En' & _ & G' & _).
  exists q, n'. split; [apply (grows_walk h h'); auto|]. auto.
Qed.

Lemma foldCase_star ic : foldCase ic star = star.
Proof. destruct ic; reflexivity. Qed.

(** Inserting [p*q] flags the node at the end of [p]. *)
Lemma addPath_globAt ic r name h p q h' :
  wf ic r name h -> addPath r (p ++ star :: q) h = Done (None, h') ->
  globAt h' r (keys ic p).
Proof.
  intros W A.
  destruct (addPath_run ic r name h (p ++ star :: q) W)
    as (t & h3 & name3 & nt & R & W3 & Et & _ & A1).
  rewrite A1 in A. inversion A; subst h'. clear A A1.
  apply (globAt_grows h3); [apply set_canMatch_grows; exact Et|].
  rewrite addPath_loop_app in R. apply bind_Done in R as (P & h1 & Rp & Rs).
  destruct (addPath_loop_wf ic r p name h r W (wf_root _ _ _ _ W))
    as (P0 & h10 & name1 & Rp0 & W1 & _ & HP1 & _ & Hn1 & _).
  rewrite Rp in Rp0. inversion Rp0; subst P0 h10. clear Rp0.
  cbn [addPath_loop] in Rs. apply bind_Done in Rs as (g & h2 & Rstep & Rq).
  destruct (lookup_lt_is_Some_2 h1 P HP1) as [nP EnP].
  pose proof (wf_oneShot _ _ _ _ W1 _ _ EnP) as Hos. unfold oneShot_ok in Hos.
  destruct (subtrees nP) as [subt|] eqn:Esub; [|contradiction].
  destruct (addPath_step_effect ic r name1 h1 P nP subt star W1 EnP Esub)
    as (v0 & h0 & R0 & Hne & _ & Pc & _ & _).
  rewrite Rstep in R0. inversion R0; subst v0 h0. clear R0.
  destruct (addPath_step_wf ic r name1 h1 P star W1 HP1)
    as (v0 & h0 & name2 & R0 & W2 & _ & Hg2 & Hold2 & _).
  rewrite Rstep in R0. inversion R0; subst v0 h0. clear R0.
  apply (globAt_grows h2).
  { apply (addPath_loop_grows ic r q name2 h2 g t h3 W2 Hg2 Rq). }
  exists P. eexists. split.
  { replace (keys ic p) with (name2 P).
    - apply (wf_reach _ _ _ _ W2). apply lookup_lt_Some in Pc. exact Pc.
    - rewrite (Hold2 P HP1), Hn1, (wf_root_name _ _ _ _ W). reflexivity. }
  split; [exact Pc|]. simpl.
  rewrite foldCase_star, Z.eqb_refl, orb_true_r. reflexivity.
Qed.

Lemma built_globAt ic r h ps p q :
  built ic r h ps -> (p ++ star :: q) ∈ ps -> globAt h r (keys ic p).
Proof.
  induction 1 as [r h Hnew|r h h' ps s Hb IH Hadd]; intros Hin.
  - inversion Hin.
  - destruct (built_wf _ _ _ _ Hb) as (name & W & _).
    apply elem_of_app in Hin as [Hin|Hin].
    + apply (globAt_grows h h'); [|apply IH; exact Hin].
      apply (addPath_grows ic r name h s h' W Hadd).
    + apply list_elem_of_singleton in Hin. subst s.
      apply (addPath_globAt ic r name h p q h' W Hadd).
Qed.

(** The scan of [globConsume]: below the wildcard node [G] hangs the
    child [v] for the byte [c]; the loop started anywhere before an
    occurrence of [c] from which [v] accepts the rest of the candidate
    finds it. *)
Lemma globConsume_loop_scan ic r name h s G nG c v rest :
  wf ic r name h -> h !! G = Some nG ->
  foldCase ic c <> globChar ->
  lookupChild nG (foldCase ic c) = Some v ->
  (forall j fuel', 0 <= j -> drop (Z.to_nat j) s = c :: rest ->
     (4 * dist (j + 1) (Z.of_nat (length s)) + 4 <= fuel')%nat ->
     checkPath fuel' v s (j + 1) (Z.of_nat (length s)) h = Done (true, h)) ->
  forall x i st fuel,
    0 <= i -> drop (Z.to_nat i) s = x ++ c :: rest ->
    (st = true -> oneShot nG <> None) ->
    (4 * dist i (Z.of_nat (length s)) + 1 <= fuel)%nat ->
    globConsume_loop fuel G s i (Z.of_nat (length s))
      (bool_decide (oneShot nG ≠ None)) st h = Done (true, h).
Proof.
  intros W EG Hq2 Ev Hcp.
  pose proof (wf_closed _ _ _ _ W) as Hcl.
  pose proof (lookup_lt_Some _ _ _ EG) as HG.
  pose proof (wf_icase _ _ _ _ W _ _ EG) as Hic.
  destruct (Hcl _ _ EG) as [Hch Hos].
  destruct (wf_edge _ _ _ _ W _ _ _ _ EG Ev) as [Hv _].
  destruct (lookup_lt_is_Some_2 h v Hv) as [nv Env].
  pose proof (wf_nodeChar _ _ _ _ W _ _ _ _ _ EG Ev Env Hq2) as Hnc.
  induction x as [|b x IH]; intros i st fuel Hi Hd Hst Hf.
  - (* the occurrence starts here *)
    simpl app in Hd.
    assert (Hlen : (Z.to_nat i < length s)%nat).
    { destruct (decide (Z.to_nat i < length s)%nat) as [|Hge]; [assumption|].
      rewrite drop_ge in Hd by lia. discriminate. }
    assert (Eb : s !! Z.to_nat i = Some c).
    { rewrite <- (Nat.add_0_r (Z.to_nat i)), <- lookup_drop, Hd. reflexivity. }
    unfold dist in Hf. destruct fuel as [|fuel]; [lia|]. cbn [globConsume_loop].
    destruct (Z.ltb_spec i (Z.of_nat (length s))) as [Hlt|Hge]; [|lia].
    rewrite (bind_run _ _ _ _ _ (byteAt_run s i c h Hi Eb)).
    rewrite (bind_run _ _ _ _ _ (load_run _ _ _ EG)), Hic.
    assert (Hcp' : checkPath fuel v s (i + 1) (Z.of_nat (length s)) h = Done (true, h)).
    { apply Hcp; auto. unfold dist. lia. }
    assert (Hrest :
      (cur <- load G ;;
       hit <- match lookupChild cur (foldCase ic c) with
              | Some v => checkPath fuel v s (i + 1) (Z.of_nat (length s))
              | None => ret false
              end ;;
       if hit then ret true
       else if i =? Z.of_nat (length s) - 1 then cur0 <- load G ;; ret (canMatch cur0)
            else globConsume_loop fuel G s (i + 1) (Z.of_nat (length s))
                   (bool_decide (oneShot nG ≠ None))
                   (if bool_decide (oneShot nG ≠ None) then true else false)) h
      = Done (true, h)).
    { rewrite (bind_run _ _ _ _ _ (load_run _ _ _ EG)), Ev.
      rewrite (bind_run _ _ _ _ _ Hcp'). reflexivity. }
    destruct st; [|apply Hrest].
    rewrite (bind_run _ _ _ _ _ (load_run _ _ _ EG)).
    destruct (oneShot nG) as [o|] eqn:Eo; [|exfalso; apply Hst; reflexivity].
    assert (o = v) as ->.
    { pose proof (wf_oneShot _ _ _ _ W _ _ EG) as Hok. unfold oneShot_ok in Hok.
      unfold lookupChild in Ev. destruct (subtrees nG) as [m|]; [|contradiction].
      rewrite Eo in Hok. destruct Hok as [c0 Hm]. rewrite Hm in Ev.
      apply lookup_singleton_Some in Ev. destruct Ev; congruence. }
    rewrite (bind_run _ _ _ _ _ (load_run _ _ _ Env)), Hnc, Z.eqb_refl. simpl negb.
    apply Hrest.
  - (* one more byte to skip *)
    simpl app in Hd.
    assert (Hlen : (Z.to_nat i < length s)%nat).
    { destruct (decide (Z.to_nat i < length s)%nat) as [|Hge]; [assumption|].
      rewrite drop_ge in Hd by lia. discriminate. }
    assert (Eb : s !! Z.to_nat i = Some b).
    { rewrite <- (Nat.add_0_r (Z.to_nat i)), <- lookup_drop, Hd. reflexivity. }
    assert (Hd' : drop (Z.to_nat (i + 1)) s = x ++ c :: rest).
    { rewrite (drop_byte s i b Hi Eb) in Hd. inversion Hd. reflexivity. }
    assert (Hlen2 : (Z.to_nat (i + 1) < length s)%nat).
    { destruct (decide (Z.to_nat (i + 1) < length s)%nat) as [|Hge]; [assumption|].
      rewrite drop_ge in Hd' by lia. destruct x; discriminate. }
    unfold dist in Hf. destruct fuel as [|fuel]; [lia|]. cbn [globConsume_loop].
    destruct (Z.ltb_spec i (Z.of_nat (length s))) as [Hlt|Hge]; [|lia].
    rewrite (bind_run _ _ _ _ _ (byteAt_run s i b h Hi Eb)).
    rewrite (bind_run _ _ _ _ _ (load_run _ _ _ EG)), Hic.
    assert (Hnext : forall st', (st' = true -> oneShot nG <> None) ->
      globConsume_loop fuel G s (i + 1) (Z.of_nat (length s))
        (bool_decide (oneShot nG ≠ None)) st' h = Done (true, h)).
    { intros st' Hst'. apply IH; auto; [lia|unfold dist; lia]. }
    assert (Hrest :
      (cur <- load G ;;
       hit <- match lookupChild cur (foldCase ic b) with
              | Some v => checkPath fuel v s (i + 1) (Z.of_nat (length s))
              | None => ret false
              end ;;
       if hit then ret true
       else if i =? Z.of_nat (length s) - 1 then cur0 <- load G ;; ret (canMatch cur0)
            else globConsume_loop fuel G s (i + 1) (Z.of_nat (length s))
                   (bool_decide (oneShot nG ≠ None))
                   (if bool_decide (oneShot nG ≠ None) then true else false)) h
      = Done (true, h)).
    { rewrite (bind_run _ _ _ _ _ (load_run _ _ _ EG)).
      match goal with
      | |- bind ?m _ _ = _ => assert (Hhit : runs h m)
      end.
      { destruct (lookupChild nG (foldCase ic b)) as [w|] eqn:Ew; [|apply runs_ret].
        apply (query_total fuel); auto; try lia.
        - apply (Hch _ _ Ew).
        - unfold dist. lia. }
      destruct Hhit as [hit Rhit]. rewrite (bind_run _ _ _ _ _ Rhit).
      destruct hit; [reflexivity|].
      destruct (Z.eqb_spec i (Z.of_nat (length s) - 1)) as [Heq|_]; [lia|].
      apply Hnext. destruct (bool_decide (oneShot nG ≠ None)) eqn:Ebd.
      - intros _. apply bool_decide_eq_true in Ebd. exact Ebd.
      - discriminate. }
    destruct st; [|apply Hrest].
    rewrite (bind_run _ _ _ _ _ (load_run _ _ _ EG)).
    destruct (oneShot nG) as [o|] eqn:Eo; [|exfalso; apply Hst; reflexivity].
    destruct (lookup_lt_is_Some_2 h o (Hos _ eq_refl)) as [on Eon].
    rewrite (bind_run _ _ _ _ _ (load_run _ _ _ Eon)).
    destruct (negb (foldCase ic b =? nodeChar on)).
    + apply Hnext. intros _. discriminate.
    + apply Hrest.
Qed.

Lemma foldCase_star_iff ic b : foldCase ic b = star <-> b = star.
Proof.
  unfold foldCase, star.
  destruct ic; simpl; [|tauto].
  destruct (Z.leb_spec 65 b); simpl; [|tauto].
  destruct (Z.leb_spec b 90); simpl; [|tauto].
  rewrite Z.mod_small by lia. lia.
Qed.

Lemma keyOf_plain ic b : b <> star -> keyOf ic b = foldCase ic b.
Proof.
  intros Hb. unfold keyOf. cbv zeta.
  destruct (Z.eqb_spec (foldCase ic b) star) as [Es|]; [|reflexivity].
  apply foldCase_star_iff in Es. contradiction.
Qed.

(** A pattern that was inserted hangs below the root. *)
Lemma walk_patternAt ic r h full :
  (forall p1 q, full = p1 ++ star :: q -> globAt h r (keys ic p1)) ->
  forall p p0 cur T nT, full = p0 ++ p ->
    walk h r (keys ic p0) = Some cur -> walk h cur (keys ic p) = Some T ->
    h !! T = Some nT -> canMatch nT = true -> patternAt ic h cur p.
Proof.
  intros Hglob. induction p as [|b p IH]; intros p0 cur T nT Hfull Hw0 Hw ET Hc.
  - simpl in Hw. inversion Hw; subst T. exists nT. auto.
  - simpl keys in Hw. rewrite walk_cons in Hw.
    destruct (h !! cur) as [n|] eqn:En; [|discriminate].
    destruct (lookupChild n (keyOf ic b)) as [v|] eqn:Ev; [|discriminate].
    exists n, v. split; [exact En|]. split; [exact Ev|]. split.
    + intros ->. destruct (Hglob p0 p Hfull) as (q' & n' & Hw' & En' & Hgc).
      rewrite Hw0 in Hw'. inversion Hw'; subst q'. rewrite En in En'.
      inversion En'; subst n'. exact Hgc.
    + apply (IH (p0 ++ [b]) v T nT); auto.
      * rewrite <- app_assoc. exact Hfull.
      * rewrite keys_app, walk_app, Hw0. simpl. rewrite En, Ev. reflexivity.
Qed.

Lemma built_patternAt ic r h ps p :
  built ic r h ps -> p ∈ ps -> patternAt ic h r p.
Proof.
  intros Hb Hin. destruct (built_wf _ _ _ _ Hb) as (name & W & Hacc & _).
  assert (Ha : accepted h r (keys ic p)).
  { apply Hacc. apply list_elem_of_In, in_map, list_elem_of_In. exact Hin. }
  destruct Ha as (T & nT & Hw & ET & Hc).
  apply (walk_patternAt ic r h p) with (p0 := []) (T := T) (nT := nT); auto.
  intros p1 q ->. apply (built_globAt ic r h ps p1 q Hb Hin).
Qed.

Lemma globMatches_nil_inv ic d : globMatches ic [] d -> d = [].
Proof. intros H. inversion H. reflexivity. Qed.

(** From a node below which a pattern hangs, [checkPath] accepts what the
    pattern matches. *)
Lemma patternAt_matched ic r name h s :
  wf ic r name h ->
  forall n p, (length p <= n)%nat ->
  forall cur i gpn fuel,
    (gpn < length h)%nat -> (cur < length h)%nat ->
    0 <= i <= Z.of_nat (length s) ->
    patternAt ic h cur p -> globMatches ic p (drop (Z.to_nat i) s) ->
    (4 * dist i (Z.of_nat (length s)) + 3 <= fuel)%nat ->
    checkPath_loop fuel gpn cur s i (Z.of_nat (length s)) h = Done (true, h).
Proof.
  intros W. pose proof (wf_closed _ _ _ _ W) as Hcl.
  induction n as [|n IH]; intros p Hn cur i gpn fuel Hg Hcur Hi Hp Hm Hf.
  { destruct p; [|simpl in Hn; lia]. simpl in Hp. destruct Hp as (nc & Ec & Hc).
    apply globMatches_nil_inv in Hm. rename Hm into E.
    assert (i = Z.of_nat (length s)).
    { destruct (decide (Z.to_nat i < length s)%nat) as [Hlt|]; [|lia].
      destruct (lookup_lt_is_Some_2 s _ Hlt) as [b Eb].
      rewrite (drop_byte s i b (proj1 Hi) Eb) in E. discriminate. }
    subst i. unfold dist in Hf. destruct fuel as [|fuel]; [lia|]. cbn [checkPath_loop].
    rewrite Z.ltb_irrefl, (bind_run _ _ _ _ _ (load_run _ _ _ Ec)), Hc. reflexivity. }
  destruct (lookup_lt_is_Some_2 h gpn Hg) as [g Eg].
  pose proof (wf_icase _ _ _ _ W _ _ Eg) as Hic.
  inversion Hm as [E1 E2|b p' c s' Hb1 Hb2 Hfc Hm' E1 E2|x Hx E1 E2
                   |b p' x s1 Hb1 Hm' E1 E2]; subst p.
  - apply (IH [] (Nat.le_0_l _) cur i gpn fuel); auto.
  - (* a byte of the pattern *)
    destruct Hp as (nc & v & Ec & Ev & _ & Hp').
    rewrite (keyOf_plain ic b Hb1) in Ev.
    assert (Hpl : plain ic c).
    { apply plain_iff. split.
      - intros ->. rewrite foldCase_star in Hfc. apply foldCase_star_iff in Hfc. auto.
      - intros ->. assert (Hx : foldCase ic b = globChar).
        { rewrite Hfc. apply foldCase_globChar. reflexivity. }
        apply foldCase_globChar in Hx. auto. }
    destruct (wf_edge _ _ _ _ W _ _ _ _ Ec Ev) as [Hv _].
    assert (Hi' : (Z.to_nat i < length s)%nat).
    { destruct (decide (Z.to_nat i < length s)%nat) as [|Hge]; [assumption|].
      rewrite drop_ge in E2 by lia. discriminate. }
    assert (Eb : s !! Z.to_nat i = Some c).
    { rewrite <- (Nat.add_0_r (Z.to_nat i)), <- lookup_drop, <- E2. reflexivity. }
    assert (Hd' : drop (Z.to_nat (i + 1)) s = s').
    { rewrite (drop_byte s i c (proj1 Hi) Eb) in E2. inversion E2. reflexivity. }
    apply (checkPath_loop_descend ic r name h s gpn W Hg [c] s' i cur v fuel Hcur);
      auto; try lia.
    + simpl. rewrite Ec, <- Hfc, Ev. reflexivity.
    + intros fuel' Hf'. simpl length in *.
      apply (IH p' ltac:(simpl in Hn; lia) v (i + 1) gpn fuel'); auto; try lia.
      rewrite Hd'. exact Hm'.
  - (* a wildcard at the end *)
    destruct Hp as (nc & G & Ec & EG & Hgc & (nG & EnG & HcG)).
    specialize (Hgc eq_refl). rewrite keyOf_star in EG.
    assert (Hi' : (Z.to_nat i < length s)%nat).
    { destruct (decide (Z.to_nat i < length s)%nat) as [|Hge]; [assumption|].
      subst x. rewrite drop_ge in Hx by lia. congruence. }
    destruct (lookup_lt_is_Some_2 s _ Hi') as [c Eb].
    unfold dist in Hf. destruct fuel as [|fuel]; [lia|]. cbn [checkPath_loop].
    destruct (Z.ltb_spec i (Z.of_nat (length s))) as [_|Hge]; [|lia].
    rewrite (bind_run _ _ _ _ _ (byteAt_run _ _ c h (proj1 Hi) Eb)).
    rewrite (bind_run _ _ _ _ _ (load_run _ _ _ Eg)).
    rewrite (bind_run _ _ _ _ _ (load_run _ _ _ Ec)), Hgc, EG.
    destruct fuel as [|fuel]; [lia|].
    assert (Hhit : globConsume (S fuel) G s i (Z.of_nat (length s)) h = Done (true, h)).
    { cbn [globConsume]. rewrite (bind_run _ _ _ _ _ (load_run _ _ _ EnG)), HcG.
      reflexivity. }
    rewrite (bind_run _ _ _ _ _ Hhit). reflexivity.
  - (* a wildcard before a byte *)
    destruct Hp as (nc & G & Ec & EG & Hgc & (nG & v & EnG & Ev & _ & Hp')).
    specialize (Hgc eq_refl). rewrite keyOf_star in EG.
    rewrite (keyOf_plain ic b Hb1) in Ev.
    revert Hic. inversion Hm' as [|b0 p0 c s2 _ Hb2 Hfc Hm2 E3 E4| |]; subst; intros Hic;
      try (exfalso; apply Hb1; reflexivity).
    assert (Hfg : foldCase ic c <> globChar).
    { rewrite <- Hfc. rewrite foldCase_globChar. exact Hb2. }
    rewrite Hfc in Ev.
    assert (Hi' : (Z.to_nat i < length s)%nat).
    { destruct (decide (Z.to_nat i < length s)%nat) as [|Hge]; [assumption|].
      rewrite drop_ge in E2 by lia. destruct x; discriminate. }
    destruct (lookup_lt_is_Some_2 s _ Hi') as [c0 Eb].
    destruct (wf_edge _ _ _ _ W _ _ _ _ EnG Ev) as [Hv _].
    unfold dist in Hf. destruct fuel as [|fuel]; [lia|]. cbn [checkPath_loop].
    destruct (Z.ltb_spec i (Z.of_nat (length s))) as [_|Hge]; [|lia].
    rewrite (bind_run _ _ _ _ _ (byteAt_run _ _ c0 h (proj1 Hi) Eb)).
    rewrite (bind_run _ _ _ _ _ (load_run _ _ _ Eg)).
    rewrite (bind_run _ _ _ _ _ (load_run _ _ _ Ec)), Hgc, EG.
    destruct fuel as [|fuel]; [lia|].
    assert (Hhit : globConsume (S fuel) G s i (Z.of_nat (length s)) h = Done (true, h)).
    { cbn [globConsume]. rewrite (bind_run _ _ _ _ _ (load_run _ _ _ EnG)).
      destruct (canMatch nG); [reflexivity|].
      apply (globConsume_loop_scan ic r name h s G nG c v s2 W EnG Hfg Ev) with (x := x);
        auto; try lia.
      - intros j fuel' Hj Hdj Hfj.
        assert (Hj' : (Z.to_nat j < length s)%nat).
        { destruct (decide (Z.to_nat j < length s)%nat) as [|Hge]; [assumption|].
          rewrite drop_ge in Hdj by lia. discriminate. }
        assert (Ebj : s !! Z.to_nat j = Some c).
        { rewrite <- (Nat.add_0_r (Z.to_nat j)), <- lookup_drop, Hdj. reflexivity. }
        assert (Hd' : drop (Z.to_nat (j + 1)) s = s2).
        { rewrite (drop_byte s j c Hj Ebj) in Hdj. inversion Hdj. reflexivity. }
        unfold dist in Hfj. destruct fuel' as [|fuel']; [lia|]. cbn [checkPath].
        apply (IH p' ltac:(simpl in Hn; lia) v (j + 1) v fuel'); auto; try lia.
        + rewrite Hd'. exact Hm2.
        + unfold dist. lia.
      - intros Hbd. apply bool_decide_eq_true in Hbd. exact Hbd.
      - unfold dist. lia. }
    rewrite (bind_run _ _ _ _ _ Hhit). reflexivity.
Qed.

Lemma pattern_matched ic r h ps p cand fuel :
  built ic r h ps -> p ∈ ps -> globMatches ic p cand ->
  (fuelFor cand <= fuel)%nat ->
  checkPath fuel r cand 0 (Z.of_nat (length cand)) h = Done (true, h).
Proof.
  intros Hb Hin Hm Hf. destruct (built_wf _ _ _ _ Hb) as (name & W & _).
  pose proof (wf_root _ _ _ _ W) as Hr.
  unfold fuelFor in Hf. destruct fuel as [|fuel]; [lia|]. cbn [checkPath].
  apply (patternAt_matched ic r name h cand W (length p) p (le_n _) r 0 r fuel); auto.
  - lia.
  - apply (built_patternAt ic r h ps p Hb Hin).
  - unfold dist. lia.
Qed.

Lemma globMatches_refl ic q :
  Forall (fun b => b <> star /\ b <> globChar) q -> globMatches ic q q.
Proof.
  induction 1 as [|b q [Hb1 Hb2] _ IH]; [constructor|]. apply gm_byte; auto.
Qed.

Lemma globMatches_infix ic l q x :
  Forall (fun b => b <> star /\ b <> globChar) l ->
  Forall (fun b => b <> star /\ b <> globChar) q ->
  x ++ q <> [] -> globMatches ic (l ++ star :: q) (l ++ x ++ q).
Proof.
  intros Hl Hq Hx. induction Hl as [|b l [Hb1 Hb2] _ IH].
  - simpl. destruct q as [|b q].
    + rewrite List.app_nil_r in *. apply gm_star_end. exact Hx.
    + apply gm_star; [|apply globMatches_refl; exact Hq].
      apply Forall_cons in Hq. destruct Hq as [[Hb _] _]. exact Hb.
  - simpl. apply gm_byte; auto.
Qed.

Lemma globMatch_spec ic : forall p s,
  globMatch ic p s = true <-> globMatches ic p s.
Proof.
  induction p as [|b p IH]; intros s.
  - simpl. split.
    + destruct s; [constructor|discriminate].
    + intros H. apply globMatches_nil_inv in H. subst s. reflexivity.
  - cbn [globMatch]. destruct (Z.eqb_spec b star) as [->|Hb].
    + destruct p as [|b' p].
      * split.
        -- destruct s; [discriminate|]. intros _. apply gm_star_end. discriminate.
        -- intros H. inversion H as [|? ? ? ? Hx|x Hx|]; subst.
           ++ exfalso. apply Hx. reflexivity.
           ++ destruct s; [congruence|reflexivity].
      * destruct (Z.eqb_spec b' star) as [->|Hb'].
        -- split; [discriminate|]. intros H.
           inversion H as [|? ? ? ? Hx| |? ? ? ? Hx]; subst; exfalso; apply Hx; reflexivity.
        -- rewrite existsb_exists. split.
           ++ intros (k & _ & Hk). apply IH in Hk.
              rewrite <- (take_drop k s). apply gm_star; assumption.
           ++ intros H. inversion H as [|? ? ? ? Hx| |? ? x s0 _ Hm]; subst.
              ** exfalso. apply Hx. reflexivity.
              ** exists (length x). split.
                 { apply in_seq. rewrite length_app. lia. }
                 rewrite drop_app_length. apply IH. exact Hm.
    + destruct (Z.eqb_spec b globChar) as [->|Hg].
      * split; [discriminate|]. intros H.
        inversion H as [|? ? ? ? _ Hx| |]; subst; try (exfalso; apply Hb; reflexivity).
        exfalso. apply Hx. reflexivity.
      * destruct s as [|c s].
        -- split; [discriminate|]. intros H.
           inversion H; subst; exfalso; apply Hb; reflexivity.
        -- rewrite andb_true_iff, Z.eqb_eq, IH. split.
           ++ intros [Hf Hm]. apply gm_byte; assumption.
           ++ intros H. inversion H as [|? ? ? ? _ _ Hf Hm|x Hx|]; subst; auto;
                exfalso; apply Hb; reflexivity.
Qed.

(** X2: whatever else the trie holds, [checkPath] accepts every candidate
    that an inserted pattern matches: bytes of the pattern other than
    ['*'] and the sentinel stand for themselves, up to case in a
    case-insensitive trie, a ['*'] at the end stands for one byte or more,
    and a ['*'] before a byte other than ['*'] stands for any bytes, none
    included.  So a pattern [l*q] with [l] and [q] free of ['*'] and of
    the sentinel matches [l], any bytes, then [q], unless [q] and the
    bytes in the middle are both empty. *)
Theorem glob_matched ic r h ps p fuel :
  built ic r h ps -> p ∈ ps ->
  (forall cand, globMatch ic p cand = true -> (fuelFor cand <= fuel)%nat ->
     checkPath fuel r cand 0 (Z.of_nat (length cand)) h = Done (true, h)) /\
  (forall l q x, p = l ++ star :: q ->
     Forall (fun b => b <> star /\ b <> globChar) l ->
     Forall (fun b => b <> star /\ b <> globChar) q ->
     x ++ q <> [] -> (fuelFor (l ++ x ++ q) <= fuel)%nat ->
     checkPath fuel r (l ++ x ++ q) 0 (Z.of_nat (length (l ++ x ++ q))) h = Done (true, h)).
Proof.
  intros Hb Hin. split.
  - intros cand Hm Hf. apply globMatch_spec in Hm.
    apply (pattern_matched ic r h ps p cand fuel Hb Hin Hm Hf).
  - intros l q x -> Hl Hq Hx Hf.
    apply (pattern_matched ic r h ps (l ++ star :: q) _ fuel Hb Hin); [|exact Hf].
    apply globMatches_infix; auto.
Qed.

Lemma glob_matched_witness :
  checkPath 60 0%nat (bytes "img/x/y/a.png") 0 13
    (trieOf false [bytes "img/*.gif"; bytes "img/*.png"; bytes "css/*"]) =
  Done (true, trieOf false [bytes "img/*.gif"; bytes "img/*.png"; bytes "css/*"]).
Proof.
  refine (proj2 (glob_matched false 0%nat _
                   [bytes "img/*.gif"; bytes "img/*.png"; bytes "css/*"]
                   (bytes "img/*.png") 60 (built_trieOf false _) _)
            (bytes "img/") (bytes ".png") (bytes "x/y/a") _ _ _ _ _).
  - apply list_elem_of_In. simpl. auto.
  - reflexivity.
  - apply (bool_decide_unpack _). vm_compute. exact I.
  - apply (bool_decide_unpack _). vm_compute. exact I.
  - discriminate.
  - vm_compute. lia.
Defined.

(** ** Tries of literal patterns and patterns that end in a wildcard *)

Lemma addPath_step_globLeaf ic r name h cur b v h' :
  wf ic r name h -> (cur < length h)%nat ->
  addPath_step r cur b h = Done (v, h') -> globLeaf h ->
  forall p n', h' !! p = Some n' -> isGlob n' = true ->
    p <> v \/ b <> star -> canMatch n' = true.
Proof.
  intros W Hcur R K p n' En' Hig Hd.
  destruct (lookup_lt_is_Some_2 h cur Hcur) as [ncur Ecur].
  pose proof (wf_oneShot _ _ _ _ W _ _ Ecur) as Hos. unfold oneShot_ok in Hos.
  destruct (subtrees ncur) as [subt|] eqn:Esub; [|contradiction].
  destruct (addPath_step_nodes ic r name h cur ncur subt b v h' W Ecur Esub R)
    as (Hne & Hcase & Pc & Pv & O & Hall).
  destruct (decide (p = v)) as [->|Hpv].
  - destruct Hd as [Hd|Hd]; [congruence|].
    rewrite Pv in En'. inversion En'; subst n'. simpl in *.
    assert (Hns : (foldCase ic b =? star) = false).
    { destruct (Z.eqb_spec (foldCase ic b) star) as [Es|]; [|reflexivity].
      apply foldCase_star_iff in Es. contradiction. }
    rewrite Hns, orb_false_r in Hig.
    destruct (h !! v) as [nv|] eqn:Env; simpl in *; [|discriminate].
    apply (K v nv Env Hig).
  - destruct (decide (p = cur)) as [->|Hpc].
    + rewrite Pc in En'. inversion En'; subst n'. simpl in *. apply (K cur ncur Ecur Hig).
    + rewrite O in En' by auto. apply (K p n' En' Hig).
Qed.

Lemma addPath_loop_globLeaf ic r s : forall name h cur q h',
  wf ic r name h -> (cur < length h)%nat ->
  addPath_loop r cur s h = Done (q, h') -> Forall (fun b => b <> star) s ->
  globLeaf h -> globLeaf h'.
Proof.
  induction s as [|b s IH]; intros name h cur q h' W Hcur R Hs K.
  - inversion R; subst. exact K.
  - cbn [addPath_loop] in R. apply Forall_cons in Hs. destruct Hs as [Hb Hs].
    destruct (addPath_step_wf ic r name h cur b W Hcur)
      as (v & h1 & name1 & R1 & W1 & _ & Hv1 & _).
    rewrite (bind_run _ _ _ _ _ R1) in R.
    apply (IH name1 h1 v q h' W1 Hv1 R Hs).
    intros p n' En' Hig.
    apply (addPath_step_globLeaf ic r name h cur b v h1 W Hcur R1 K p n' En' Hig).
    right. exact Hb.
Qed.

Lemma list_last_cases {A} (s : list A) : s = [] \/ exists l b, s = l ++ [b].
Proof. induction s using rev_ind; eauto. Qed.

Lemma addPath_globLeaf ic r name h s h' :
  wf ic r name h -> addPath r s h = Done (None, h') ->
  Forall (fun b => b <> star) (removelast s) -> globLeaf h -> globLeaf h'.
Proof.
  intros W A Hs K.
  destruct (addPath_run ic r name h s W)
    as (q & h1 & name1 & nq & R & W1 & Enq & _ & A1).
  rewrite A1 in A. inversion A; subst h'. clear A A1.
  assert (K1 : forall p n', h1 !! p = Some n' -> isGlob n' = true -> p <> q ->
            canMatch n' = true).
  { destruct (list_last_cases s) as [->|(l & b & ->)].
    - inversion R; subst. intros p n' En' Hig _. apply (K p n' En' Hig).
    - rewrite removelast_last in Hs.
      rewrite addPath_loop_app in R. apply bind_Done in R as (q1 & h2 & Rl & Rb).
      destruct (addPath_loop_wf ic r l name h r W (wf_root _ _ _ _ W))
        as (q0 & h0 & name2 & R0 & W2 & _ & Hq2 & _).
      rewrite Rl in R0. inversion R0; subst q0 h0. clear R0.
      pose proof (addPath_loop_globLeaf ic r l name h r q1 h2 W (wf_root _ _ _ _ W)
                    Rl Hs K) as K2.
      cbn [addPath_loop] in Rb. apply bind_Done in Rb as (v & h3 & Rstep & Rret).
      inversion Rret; subst v h3. clear Rret.
      intros p n' En' Hig Hpq.
      apply (addPath_step_globLeaf ic r name2 h2 q1 b q h1 W2 Hq2 Rstep K2 p n' En' Hig).
      left. exact Hpq. }
  intros p n' En' Hig.
  destruct (set_canMatch_lookup h1 q nq p n' Enq En') as (n & En & ->).
  destruct (decide (p = q)) as [->|Hpq]; [reflexivity|].
  apply (K1 p n En Hig Hpq).
Qed.

Lemma built_globLeaf ic r h ps :
  built ic r h ps -> Forall trailingOnly ps -> globLeaf h.
Proof.
  induction 1 as [r h Hnew|r h h' ps s Hb IH Hadd]; intros Hps.
  - inversion Hnew; subst. intros p n En Hig.
    destruct p; simpl in En; [|discriminate]. inversion En; subst n. discriminate.
  - apply Forall_app in Hps as [Hps Hs]. apply Forall_cons in Hs. destruct Hs as [[_ Hs] _].
    destruct (built_wf _ _ _ _ Hb) as (name & W & _).
    apply (addPath_globLeaf ic r name h s h' W Hadd Hs (IH Hps)).
Qed.

(** [checkPath] is [trieMatch] in such a trie. *)
Lemma checkPath_loop_trailing ic r name h s :
  wf ic r name h -> globFlags h -> globKey h -> globLeaf h ->
  forall fuel i gpn cur,
    (gpn < length h)%nat -> (cur < length h)%nat ->
    0 <= i <= Z.of_nat (length s) ->
    (4 * dist i (Z.of_nat (length s)) + 3 <= fuel)%nat ->
    checkPath_loop fuel gpn cur s i (Z.of_nat (length s)) h =
    Done (trieMatch h cur (List.map (foldCase ic) (drop (Z.to_nat i) s)), h).
Proof.
  intros W I1 J K. unfold dist.
  induction fuel as [|fuel IH]; intros i gpn cur Hg Hcur Hi Hf; [lia|].
  cbn [checkPath_loop].
  destruct (lookup_lt_is_Some_2 h gpn Hg) as [g Eg].
  destruct (lookup_lt_is_Some_2 h cur Hcur) as [n En].
  pose proof (wf_icase _ _ _ _ W _ _ Eg) as Hic.
  destruct (Z.ltb_spec i (Z.of_nat (length s))) as [Hlt|Hge].
  - destruct (byteAt_in s i _ h (proj1 Hi) Hlt (Z.le_refl _)) as (b & Eb & Rb).
    rewrite (drop_byte s i b (proj1 Hi) Eb). simpl List.map.
    rewrite (bind_run _ _ _ _ _ Rb), (bind_run _ _ _ _ _ (load_run _ _ _ Eg)), Hic.
    rewrite (bind_run _ _ _ _ _ (load_run _ _ _ En)).
    cbn [trieMatch]. rewrite En.
    destruct (hasGlobChild n) eqn:Hgc.
    + destruct (I1 cur n En Hgc) as (gc & ngc & Hl & Egc & Hig).
      rewrite Hl. destruct fuel as [|fuel]; [lia|].
      assert (Hhit : globConsume (S fuel) gc s i (Z.of_nat (length s)) h = Done (true, h)).
      { cbn [globConsume]. rewrite (bind_run _ _ _ _ _ (load_run _ _ _ Egc)).
        rewrite (K gc ngc Egc Hig). reflexivity. }
      rewrite (bind_run _ _ _ _ _ Hhit). reflexivity.
    + rewrite (bind_run _ _ _ _ _ (eq_refl : ret false h = Done (false, h))).
      rewrite (bind_run _ _ _ _ _ (load_run _ _ _ En)). simpl orb.
      pose proof (wf_oneShot _ _ _ _ W _ _ En) as Hos. unfold oneShot_ok in Hos.
      destruct (subtrees n) as [m|] eqn:Em; [|contradiction].
      destruct (oneShot n) as [o|] eqn:Eo.
      * destruct Hos as [c0 Hm].
        assert (Ec0 : lookupChild n c0 = Some o).
        { unfold lookupChild. rewrite Em, Hm. apply lookup_singleton_eq. }
        destruct (wf_edge _ _ _ _ W _ _ _ _ En Ec0) as [Ho _].
        destruct (lookup_lt_is_Some_2 h o Ho) as [on Eon].
        assert (Hc0 : c0 <> globChar).
        { intros ->. destruct (J cur n o on En Ec0 Eon) as [Hx _]. congruence. }
        pose proof (wf_nodeChar _ _ _ _ W _ _ _ _ _ En Ec0 Eon Hc0) as Hnc.
        rewrite (bind_run _ _ _ _ _ (load_run _ _ _ Eon)), Hnc.
        destruct (Z.eqb_spec c0 globChar) as [|_]; [contradiction|].
        destruct (Z.eqb_spec c0 (foldCase ic b)) as [Heq|Hneq].
        -- rewrite <- Heq, Ec0. rewrite IH by (auto; lia). reflexivity.
        -- unfold lookupChild. rewrite Em, Hm, lookup_singleton_ne by congruence.
           reflexivity.
      * destruct (lookupChild n (foldCase ic b)) as [v|] eqn:Ev; [|reflexivity].
        destruct (wf_edge _ _ _ _ W _ _ _ _ En Ev) as [Hv _].
        rewrite IH by (auto; lia). reflexivity.
  - rewrite (bind_run _ _ _ _ _ (load_run _ _ _ En)).
    rewrite drop_ge by lia. simpl. rewrite En.
    destruct (isGlob n) eqn:Hig; [|rewrite orb_false_r; reflexivity].
    rewrite (K cur n En Hig). reflexivity.
Qed.

(** [trieMatch] accepts [t] when [t] leads to a node that ends a pattern,
    or a proper prefix of [t] leads to a node with a wildcard child. *)
Lemma trieMatch_split h : forall t cur,
  trieMatch h cur t = true <->
  exists t1 t2 q n, t = t1 ++ t2 /\ walk h cur t1 = Some q /\ h !! q = Some n /\
    ((t2 = [] /\ canMatch n = true) \/ (t2 <> [] /\ hasGlobChild n = true)).
Proof.
  induction t as [|c t IH]; intros cur.
  - simpl. split.
    + destruct (h !! cur) as [n|] eqn:En; [|discriminate]. intros Hc.
      exists [], [], cur, n. simpl. auto 10.
    + intros (t1 & t2 & q & n & Ht & Hw & En & Hd).
      symmetry in Ht. apply app_eq_nil in Ht as [-> ->]. simpl in Hw. inversion Hw; subst q.
      rewrite En. destruct Hd as [[_ Hc]|[Hx _]]; [exact Hc|congruence].
  - cbn [trieMatch]. split.
    + destruct (h !! cur) as [n|] eqn:En; [|discriminate].
      destruct (hasGlobChild n) eqn:Hgc.
      * intros _. exists [], (c :: t), cur, n. simpl. split; [reflexivity|].
        split; [reflexivity|]. split; [exact En|]. right. split; [discriminate|exact Hgc].
      * simpl. destruct (lookupChild n c) as [v|] eqn:Ev; [|discriminate].
        intros Hm. apply IH in Hm as (t1 & t2 & q & nq & Ht & Hw & Eq & Hd).
        exists (c :: t1), t2, q, nq. rewrite Ht, walk_cons, En, Ev. auto 10.
    + intros (t1 & t2 & q & nq & Ht & Hw & Eq & Hd).
      destruct t1 as [|c1 t1].
      * simpl in Ht, Hw. inversion Hw; subst q. rewrite Eq.
        destruct Hd as [[-> _]|[_ Hgc]]; [discriminate|]. rewrite Hgc. reflexivity.
      * simpl in Ht. inversion Ht; subst c1 t. rewrite walk_cons in Hw.
        destruct (h !! cur) as [n|] eqn:En; [|discriminate].
        destruct (lookupChild n c) as [v|] eqn:Ev; [|discriminate].
        apply orb_true_iff. right. apply IH. exists t1, t2, q, nq. auto 10.
Qed.

Lemma trailingOnly_cases s :
  trailingOnly s ->
  (Forall (fun b => b <> star /\ b <> globChar) s) \/
  (exists l, s = l ++ [star] /\ Forall (fun b => b <> star /\ b <> globChar) l).
Proof.
  intros [Hs Hl]. destruct (list_last_cases s) as [->|(l & b & ->)]; [left; constructor|].
  rewrite removelast_last in Hl. apply Forall_app in Hs as [Hs1 Hs2].
  assert (Hp : Forall (fun b => b <> star /\ b <> globChar) l).
  { apply Forall_forall. intros x Hx. split.
    - apply (proj1 (Forall_forall _ _) Hl x Hx).
    - apply (proj1 (Forall_forall _ _) Hs1 x Hx). }
  destruct (decide (b = star)) as [->|Hb]; [right; eauto|].
  left. apply Forall_app. split; [exact Hp|]. constructor; [|constructor].
  apply Forall_cons in Hs2. destruct Hs2 as [Hs2 _]. auto.
Qed.

Lemma keys_plain' ic p :
  Forall (fun b => b <> star /\ b <> globChar) p ->
  keys ic p = List.map (foldCase ic) p /\ globChar ∉ List.map (foldCase ic) p.
Proof.
  intros Hp. split.
  - apply keys_plain. eapply Forall_impl; [exact Hp|]. intros b Hb. apply plain_iff, Hb.
  - intros Hin. apply list_elem_of_In, in_map_iff in Hin as (b & Hb & Hin).
    apply foldCase_globChar in Hb. subst b.
    apply list_elem_of_In in Hin.
    destruct (proj1 (Forall_forall _ _) Hp _ Hin). congruence.
Qed.

Lemma checkPath_trailing_iff ic r h ps cand fuel :
  built ic r h ps -> Forall trailingOnly ps ->
  (fuelFor cand <= fuel)%nat ->
  exists b, checkPath fuel r cand 0 (Z.of_nat (length cand)) h = Done (b, h) /\
    (b = true <->
     (exists p, p ∈ ps /\ Forall (fun c => c <> star) p /\
        List.map (foldCase ic) cand = List.map (foldCase ic) p) \/
     (exists l x, l ++ [star] ∈ ps /\ x <> [] /\
        List.map (foldCase ic) cand = List.map (foldCase ic) l ++ x)).
Proof.
  intros Hb Hps Hf. destruct (built_wf _ _ _ _ Hb) as (name & W & Hacc & _).
  assert (Hns : Forall noSentinel ps).
  { eapply Forall_impl; [exact Hps|]. intros s [Hs _]. exact Hs. }
  pose proof (built_globFlags ic r h ps Hb) as I1.
  pose proof (built_globKey ic r h ps Hb Hns) as J.
  pose proof (built_globLeaf ic r h ps Hb Hps) as K.
  pose proof (wf_root _ _ _ _ W) as Hr.
  eexists. split.
  { unfold fuelFor in Hf. destruct fuel as [|fuel]; [lia|]. cbn [checkPath].
    rewrite (checkPath_loop_trailing ic r name h cand W I1 J K fuel 0 r r Hr Hr);
      [reflexivity|lia|unfold dist; lia]. }
  change (drop (Z.to_nat 0) cand) with cand. rewrite trieMatch_split. split.
  - intros (t1 & t2 & q & n & Ht & Hw & En & [[-> Hc]|[Ht2 Hgc]]).
    + (* the candidate ends at a node that ends a pattern *)
      rewrite List.app_nil_r in Ht. subst t1.
      assert (Ha : accepted h r (List.map (foldCase ic) cand)) by (exists q, n; auto).
      apply Hacc, list_elem_of_In, in_map_iff in Ha as (p & Hk & Hin).
      apply list_elem_of_In in Hin.
      destruct (trailingOnly_cases p (proj1 (Forall_forall _ _) Hps p Hin))
        as [Hp|(l & -> & Hl)].
      * left. exists p. split; [exact Hin|]. split.
        { eapply Forall_impl; [exact Hp|]. intros c Hcc. apply Hcc. }
        rewrite <- Hk. apply (keys_plain' ic p Hp).
      * right. exists l, [globChar]. split; [exact Hin|]. split; [discriminate|].
        rewrite <- Hk, keys_app. simpl. rewrite keyOf_star.
        rewrite (proj1 (keys_plain' ic l Hl)). reflexivity.
    + (* a proper prefix of the candidate ends at a node with a wildcard child *)
      destruct (I1 q n En Hgc) as (g & ng & Hl & Eg & Hig).
      assert (Ha : accepted h r (t1 ++ [globChar])).
      { exists g, ng. rewrite walk_app, Hw, walk_cons, En, Hl. simpl.
        split; [reflexivity|]. split; [exact Eg|]. apply (K g ng Eg Hig). }
      apply Hacc, list_elem_of_In, in_map_iff in Ha as (p & Hk & Hin).
      apply list_elem_of_In in Hin.
      destruct (trailingOnly_cases p (proj1 (Forall_forall _ _) Hps p Hin))
        as [Hp|(l & -> & Hpl)].
      * exfalso. destruct (keys_plain' ic p Hp) as [Ek Hno]. apply Hno.
        rewrite <- Ek, Hk. apply elem_of_app. right. apply list_elem_of_singleton.
        reflexivity.
      * right. exists l, t2. split; [exact Hin|]. split; [exact Ht2|].
        rewrite keys_app in Hk. simpl in Hk. rewrite keyOf_star in Hk.
        apply app_inj_tail in Hk as [Hk _].
        rewrite Ht, <- Hk. rewrite (proj1 (keys_plain' ic l Hpl)). reflexivity.
  - intros [(p & Hin & Hp & Ec)|(l & x & Hin & Hx & Ec)].
    + assert (Ha : accepted h r (keys ic p)).
      { apply Hacc. apply list_elem_of_In, in_map, list_elem_of_In. exact Hin. }
      assert (Hpp : Forall (fun b => b <> star /\ b <> globChar) p).
      { apply Forall_forall. intros c Hc. split.
        - apply (proj1 (Forall_forall _ _) Hp c Hc).
        - apply (proj1 (Forall_forall _ _) (proj1 (Forall_forall _ _) Hns p Hin) c).
          exact Hc. }
      rewrite (proj1 (keys_plain' ic p Hpp)), <- Ec in Ha.
      destruct Ha as (q & n & Hw & En & Hc).
      exists (List.map (foldCase ic) cand), [], q, n.
      rewrite List.app_nil_r. auto 10.
    + destruct (built_globAccepted ic r h ps l Hb Hin)
        as (q & n & g & ng & Hw & En & Hgc & _).
      assert (Hpl : Forall (fun b => b <> star /\ b <> globChar) l).
      { destruct (trailingOnly_cases _ (proj1 (Forall_forall _ _) Hps _ Hin))
          as [Hp|(l' & E & Hl')].
        - apply Forall_app in Hp as [_ Hs]. apply Forall_cons in Hs.
          destruct Hs as [[Hs _] _]. congruence.
        - apply app_inj_tail in E as [-> _]. exact Hl'. }
      rewrite (proj1 (keys_plain' ic l Hpl)) in Hw.
      exists (List.map (foldCase ic) l), x, q, n. auto 10.
Qed.


Lemma globMatches_plain ic p :
  Forall (fun b => b <> star /\ b <> globChar) p ->
  forall c, globMatches ic p c <-> List.map (foldCase ic) c = List.map (foldCase ic) p.
Proof.
  induction 1 as [|b p [Hb1 Hb2] _ IH]; intros c.
  - split.
    + intros H. apply globMatches_nil_inv in H. subst c. reflexivity.
    + destruct c; [constructor|discriminate].
  - split.
    + intros H. inversion H as [|? ? c0 s0 _ _ Hf Hm| |]; subst;
        try (exfalso; apply Hb1; reflexivity).
      simpl. rewrite <- Hf. f_equal. apply IH. exact Hm.
    + destruct c as [|c0 c]; [discriminate|]. simpl. intros E. inversion E as [[Hf Hm]].
      apply gm_byte; auto. apply IH. exact Hm.
Qed.

Lemma globMatches_trailing ic l :
  Forall (fun b => b <> star /\ b <> globChar) l ->
  forall c, globMatches ic (l ++ [star]) c <->
    exists x, x <> [] /\ List.map (foldCase ic) c = List.map (foldCase ic) l ++ x.
Proof.
  induction 1 as [|b l [Hb1 Hb2] _ IH]; intros c.
  - simpl. split.
    + intros H. inversion H as [|? ? ? ? Hx|x Hx|]; subst.
      * exfalso. apply Hx. reflexivity.
      * exists (List.map (foldCase ic) c). split; [|reflexivity].
        destruct c; [congruence|discriminate].
    + intros (x & Hx & E). apply gm_star_end. intros ->. simpl in E. congruence.
  - simpl. split.
    + intros H. inversion H as [|? ? c0 s0 _ _ Hf Hm| |]; subst;
        try (exfalso; apply Hb1; reflexivity).
      apply IH in Hm as (x & Hx & E). exists x. split; [exact Hx|].
      simpl. rewrite <- Hf, E. reflexivity.
    + intros (x & Hx & E). destruct c as [|c0 c]; [discriminate|]. simpl in E.
      inversion E as [[Hf Hm]]. apply gm_byte; auto. apply IH. exists x. auto.
Qed.

(** X3: in a trie grown from patterns without the sentinel byte in which a
    ['*'] stands at the end only, [checkPath] returns on every candidate,
    whatever its bytes, what [globMatch] says of the patterns inserted:
    it accepts the candidate exactly when its folded bytes are those of a
    pattern without ['*'], or those of the literal part of a pattern [l*]
    followed by at least one more byte. *)
Theorem checkPath_trailing_exact ic r h ps cand fuel :
  built ic r h ps -> Forall trailingOnly ps ->
  (fuelFor cand <= fuel)%nat ->
  checkPath fuel r cand 0 (Z.of_nat (length cand)) h =
  Done (existsb (fun p => globMatch ic p cand) ps, h).
Proof.
  intros Hb Hps Hf.
  destruct (checkPath_trailing_iff ic r h ps cand fuel Hb Hps Hf) as (b & Rb & Hiff).
  rewrite Rb. f_equal. f_equal. apply Bool.eq_iff_eq_true.
  rewrite Hiff, existsb_exists. split.
  - intros [(p & Hin & Hp & Ec)|(l & x & Hin & Hx & Ec)].
    + exists p. split; [apply list_elem_of_In; exact Hin|]. apply globMatch_spec.
      apply globMatches_plain; [|exact Ec].
      apply Forall_forall. intros c Hc. split.
      * apply (proj1 (Forall_forall _ _) Hp c Hc).
      * apply (proj1 (Forall_forall _ _)
                 (proj1 (proj1 (Forall_forall _ _) Hps p Hin)) c Hc).
    + exists (l ++ [star]). split; [apply list_elem_of_In; exact Hin|].
      apply globMatch_spec. apply globMatches_trailing; [|exists x; auto].
      destruct (trailingOnly_cases _ (proj1 (Forall_forall _ _) Hps _ Hin))
        as [Hp|(l' & E & Hl')].
      * apply Forall_app in Hp as [_ Hs]. apply Forall_cons in Hs.
        destruct Hs as [[Hs _] _]. congruence.
      * apply app_inj_tail in E as [-> _]. exact Hl'.
  - intros (p & Hin & Hm). apply list_elem_of_In in Hin. apply globMatch_spec in Hm.
    destruct (trailingOnly_cases p (proj1 (Forall_forall _ _) Hps p Hin))
      as [Hp|(l & -> & Hl)].
    + left. exists p. split; [exact Hin|]. split.
      * eapply Forall_impl; [exact Hp|]. intros c Hcc. apply Hcc.
      * apply (globMatches_plain ic p Hp). exact Hm.
    + right. apply (globMatches_trailing ic l Hl) in Hm as (x & Hx & E).
      exists l, x. auto.
Qed.

Lemma checkPath_trailing_exact_witness :
  checkPath 30 0%nat (bytes "css") 0 3 (trieOf false [bytes "img/a"; bytes "css*"]) =
    Done (false, trieOf false [bytes "img/a"; bytes "css*"]) /\
  checkPath 30 0%nat (bytes "css*") 0 4 (trieOf false [bytes "img/a"; bytes "css*"]) =
    Done (true, trieOf false [bytes "img/a"; bytes "css*"]).
Proof.
  split.
  - apply (checkPath_trailing_exact false 0%nat _ [bytes "img/a"; bytes "css*"]
             (bytes "css") 30 (built_trieOf false _)).
    + apply (bool_decide_unpack _). vm_compute. exact I.
    + vm_compute. lia.
  - apply (checkPath_trailing_exact false 0%nat _ [bytes "img/a"; bytes "css*"]
             (bytes "css*") 30 (built_trieOf false _)).
    + apply (bool_decide_unpack _). vm_compute. exact I.
    + vm_compute. lia.
Defined.

(** ** What [checkPath] accepts *)

Lemma addPath_step_globParent ic r name h cur b v h' :
  wf ic r name h -> (cur < length h)%nat ->
  addPath_step r cur b h = Done (v, h') -> globParent h -> globParent h'.
Proof.
  intros W Hcur R I2.
  destruct (lookup_lt_is_Some_2 h cur Hcur) as [ncur Ecur].
  pose proof (wf_oneShot _ _ _ _ W _ _ Ecur) as Hos. unfold oneShot_ok in Hos.
  destruct (subtrees ncur) as [subt|] eqn:Esub; [|contradiction].
  destruct (addPath_step_nodes ic r name h cur ncur subt b v h' W Ecur Esub R)
    as (Hne & Hcase & Pc & Pv & O & Hall).
  pose proof (addPath_step_grows ic r name h cur b v h' W Hcur R) as Hg.
  assert (Hold : forall q nq, h !! q = Some nq -> isGlob nq = true ->
            exists p np, h' !! p = Some np /\ lookupChild np globChar = Some q).
  { intros q nq Eq Hig. destruct (I2 q nq Eq Hig) as (p & np & Ep & Hl).
    destruct (Hg p np Ep) as (np' & Ep' & _ & _ & L). exists p, np'. auto. }
  intros q nq' Eq' Hig. destruct (decide (q = v)) as [->|Hqv].
  - rewrite Pv in Eq'. inversion Eq'; subst nq'. simpl in Hig.
    destruct (Z.eqb_spec (foldCase ic b) star) as [Es|Hns].
    + eexists cur, _. split; [exact Pc|]. unfold lookupChild. simpl.
      unfold keyOf. cbv zeta. rewrite Es, Z.eqb_refl. apply lookup_insert_eq.
    + rewrite orb_false_r in Hig.
      destruct (h !! v) as [nv|] eqn:Env; simpl in Hig; [|discriminate].
      apply (Hold v nv Env Hig).
  - destruct (decide (q = cur)) as [->|Hqc].
    + rewrite Pc in Eq'. inversion Eq'; subst nq'. simpl in Hig.
      apply (Hold cur ncur Ecur Hig).
    + rewrite O in Eq' by auto. apply (Hold q nq' Eq' Hig).
Qed.

Lemma addPath_loop_globParent ic r s : forall name h cur q h',
  wf ic r name h -> (cur < length h)%nat ->
  addPath_loop r cur s h = Done (q, h') -> globParent h -> globParent h'.
Proof.
  induction s as [|b s IH]; intros name h cur q h' W Hcur R I2.
  - inversion R; subst. exact I2.
  - cbn [addPath_loop] in R.
    destruct (addPath_step_wf ic r name h cur b W Hcur)
      as (v & h1 & name1 & R1 & W1 & _ & Hv1 & _).
    rewrite (bind_run _ _ _ _ _ R1) in R.
    apply (IH name1 h1 v q h' W1 Hv1 R).
    apply (addPath_step_globParent ic r name h cur b v h1 W Hcur R1 I2).
Qed.

Lemma set_canMatch_globParent (h : heap) (x : ptr) nx :
  h !! x = Some nx -> globParent h -> globParent (<[x := set_canMatch true nx]> h).
Proof.
  intros Ex I2 q nq' Eq' Hig.
  destruct (set_canMatch_lookup h x nx q nq' Ex Eq') as (nq & Eq & ->).
  assert (Hig' : isGlob nq = true) by (destruct (decide (q = x)); exact Hig).
  destruct (I2 q nq Eq Hig') as (p & np & Ep & Hl).
  destruct (set_canMatch_grows h x nx Ex p np Ep) as (np' & Ep' & _ & _ & L).
  exists p, np'. auto.
Qed.

Lemma built_globParent ic r h ps : built ic r h ps -> globParent h.
Proof.
  induction 1 as [r h Hnew|r h h' ps s Hb IH Hadd].
  - inversion Hnew; subst. intros q nq Eq Hig.
    destruct q; simpl in Eq; [|discriminate]. inversion Eq; subst nq. discriminate.
  - destruct (built_wf _ _ _ _ Hb) as (name & W & _).
    destruct (addPath_run ic r name h s W)
      as (q & h1 & name1 & nq & R1 & W1 & Enq & _ & A1).
    rewrite A1 in Hadd. inversion Hadd; subst h'.
    apply set_canMatch_globParent; [exact Enq|].
    apply (addPath_loop_globParent ic r s name h r q h1 W (wf_root _ _ _ _ W) R1 IH).
Qed.

(** The child under a key other than [globChar] is not flagged. *)
Lemma child_not_isGlob ic r name h p n c v nv :
  wf ic r name h -> globParent h ->
  h !! p = Some n -> lookupChild n c = Some v -> c <> globChar ->
  h !! v = Some nv -> isGlob nv = false.
Proof.
  intros W I2 En Hl Hc Ev. destruct (isGlob nv) eqn:Hig; [|reflexivity].
  destruct (I2 v nv Ev Hig) as (p' & np' & Ep' & Hl').
  destruct (wf_edge _ _ _ _ W _ _ _ _ En Hl) as [_ N1].
  destruct (wf_edge _ _ _ _ W _ _ _ _ Ep' Hl') as [_ N2].
  rewrite N1 in N2. apply app_inj_tail in N2 as [_ N2]. contradiction.
Qed.

Lemma byteAt_Done s i b h h' :
  byteAt s i h = Done (b, h') -> h' = h /\ 0 <= i /\ s !! Z.to_nat i = Some b.
Proof.
  unfold byteAt. destruct (Z.ltb_spec i 0); [discriminate|].
  destruct (s !! Z.to_nat i) as [b0|]; [|discriminate].
  intros E. inversion E. auto.
Qed.

Lemma globMatches_skip ic p b t :
  globMatches ic (star :: p) t -> globMatches ic (star :: p) (b :: t).
Proof.
  intros H. inversion H as [|b0 p0 c0 s0 Hb0|x Hx|b0 p0 x s0 Hb0 Hm]; subst.
  - exfalso. apply Hb0. reflexivity.
  - apply gm_star_end. discriminate.
  - apply (gm_star ic b0 p0 (b :: x) s0 Hb0 Hm).
Qed.

Lemma covers_byte ic h cur n v b t :
  h !! cur = Some n -> lookupChild n (foldCase ic b) = Some v ->
  b <> star -> b <> globChar ->
  covers ic h v t -> covers ic h cur (b :: t).
Proof.
  intros En Hl Hb1 Hb2 (p & Hp & Hm). exists (b :: p). split.
  - exists n, v. rewrite (keyOf_plain ic b Hb1).
    split; [exact En|]. split; [exact Hl|]. split; [intros; contradiction|exact Hp].
  - apply gm_byte; auto.
Qed.

Lemma coversGlob_byte ic h G n v b t :
  h !! G = Some n -> lookupChild n (foldCase ic b) = Some v ->
  b <> star -> b <> globChar ->
  covers ic h v t -> coversGlob ic h G (b :: t).
Proof.
  intros En Hl Hb1 Hb2 (p & Hp & Hm). exists (b :: p). split.
  - exists n, v. rewrite (keyOf_plain ic b Hb1).
    split; [exact En|]. split; [exact Hl|]. split; [intros; contradiction|exact Hp].
  - apply (gm_star ic b p [] (b :: t) Hb1). apply gm_byte; auto.
Qed.

Lemma coversGlob_skip ic h G b t :
  coversGlob ic h G t -> coversGlob ic h G (b :: t).
Proof. intros (p & Hp & Hm). exists p. split; [exact Hp|]. apply globMatches_skip, Hm. Qed.

Lemma coversGlob_end ic h G n b t :
  h !! G = Some n -> canMatch n = true -> coversGlob ic h G (b :: t).
Proof.
  intros En Hc. exists []. split; [exists n; auto|]. apply gm_star_end. discriminate.
Qed.

Ltac no_result H := solve [unfold ret, panic, outOfFuel in H; discriminate H].

(** When [checkPath] accepts a candidate free of ['*'] and of the
    sentinel, some pattern that hangs below the node matches it. *)
Lemma query_sound ic r name h s :
  wf ic r name h -> globKey h -> globParent h ->
  Forall (fun b => b <> star /\ b <> globChar) s ->
  forall fuel,
  (forall gpn i h' n, h !! gpn = Some n -> isGlob n = false ->
     0 <= i <= Z.of_nat (length s) ->
     checkPath fuel gpn s i (Z.of_nat (length s)) h = Done (true, h') ->
     covers ic h gpn (drop (Z.to_nat i) s)) /\
  (forall gpn cur i h' n, h !! cur = Some n -> isGlob n = false ->
     0 <= i <= Z.of_nat (length s) ->
     checkPath_loop fuel gpn cur s i (Z.of_nat (length s)) h = Done (true, h') ->
     covers ic h cur (drop (Z.to_nat i) s)) /\
  (forall G i h', 0 <= i < Z.of_nat (length s) ->
     globConsume fuel G s i (Z.of_nat (length s)) h = Done (true, h') ->
     coversGlob ic h G (drop (Z.to_nat i) s)) /\
  (forall G i la st h', 0 <= i ->
     globConsume_loop fuel G s i (Z.of_nat (length s)) la st h = Done (true, h') ->
     coversGlob ic h G (drop (Z.to_nat i) s)).
Proof.
  intros W J I2 Hs.
  induction fuel as [|fuel (IH1 & IH2 & IH3 & IH4)].
  { repeat split; intros;
      match goal with H : _ = Done _ |- _ => simpl in H; no_result H end. }
  destruct (queries_keep_store fuel) as (RO1 & RO2 & RO3 & RO4).
  split; [|split; [|split]].
  - intros gpn i h' n En Hig Hi H. cbn [checkPath] in H.
    apply (IH2 gpn gpn i h' n En Hig Hi H).
  - intros gpn cur i h' n En Hig Hi H. cbn [checkPath_loop] in H.
    destruct (Z.ltb_spec i (Z.of_nat (length s))) as [Hlt|Hge].
    + apply bind_Done in H as (b & h1 & Hb & H).
      apply byteAt_Done in Hb as (-> & _ & Eb).
      rewrite (drop_byte s i b (proj1 Hi) Eb).
      destruct (Forall_lookup_1 _ _ _ _ Hs Eb) as [Hb1 Hb2].
      assert (Hf1 : foldCase ic b <> star) by (rewrite foldCase_star_iff; exact Hb1).
      assert (Hf2 : foldCase ic b <> globChar) by (rewrite foldCase_globChar; exact Hb2).
      apply bind_Done in H as (g & h1 & Hg & H). apply load_Done in Hg as (-> & Eg).
      rewrite (wf_icase _ _ _ _ W _ _ Eg) in H.
      apply bind_Done in H as (n1 & h1 & Hn1 & H). apply load_Done in Hn1 as (-> & En1).
      rewrite En in En1. inversion En1; subst n1. clear En1.
      apply bind_Done in H as (hit & h1 & Hhit & H).
      assert (Hh : h1 = h /\
                (hit = true -> covers ic h cur (b :: drop (Z.to_nat (i + 1)) s))).
      { destruct (hasGlobChild n) eqn:Hgc;
          [|inversion Hhit; split; [reflexivity|discriminate]].
        destruct (lookupChild n globChar) as [G|] eqn:EG;
          [|inversion Hhit; split; [reflexivity|discriminate]].
        split; [apply (RO3 _ _ _ _ _ _ _ Hhit)|]. intros ->.
        destruct (IH3 G i h1 (conj (proj1 Hi) Hlt) Hhit) as (p & Hp & Hm).
        rewrite (drop_byte s i b (proj1 Hi) Eb) in Hm.
        exists (star :: p). split; [|exact Hm].
        exists n, G. rewrite keyOf_star. auto. }
      destruct Hh as [-> Hh]. destruct hit; [apply Hh; reflexivity|]. clear Hh.
      apply bind_Done in H as (n1 & h1 & Hn1 & H). apply load_Done in Hn1 as (-> & En1).
      rewrite En in En1. inversion En1; subst n1. clear En1.
      pose proof (wf_oneShot _ _ _ _ W _ _ En) as Hos. unfold oneShot_ok in Hos.
      destruct (subtrees n) as [m|] eqn:Em; [|contradiction].
      destruct (oneShot n) as [o|] eqn:Eo.
      * destruct Hos as [c0 Hm].
        assert (Ec0 : lookupChild n c0 = Some o).
        { unfold lookupChild. rewrite Em, Hm. apply lookup_singleton_eq. }
        apply bind_Done in H as (on & h1 & Hon & H). apply load_Done in Hon as (-> & Eon).
        destruct (nodeChar on =? globChar); [no_result H|].
        destruct (Z.eqb_spec (nodeChar on) (foldCase ic b)) as [Enc|]; [|no_result H].
        assert (Hc0 : c0 <> globChar).
        { intros ->. destruct (J cur n o on En Ec0 Eon) as (_ & _ & Hx). congruence. }
        pose proof (wf_nodeChar _ _ _ _ W _ _ _ _ _ En Ec0 Eon Hc0) as Hnc.
        rewrite Hnc in Enc. subst c0.
        apply (covers_byte ic h cur n o b _ En Ec0 Hb1 Hb2).
        apply (IH2 gpn o (i + 1) h' on Eon); [|lia|exact H].
        apply (child_not_isGlob ic r name h cur n _ o on W I2 En Ec0 Hc0 Eon).
      * destruct (lookupChild n (foldCase ic b)) as [v|] eqn:Ev; [|no_result H].
        destruct (wf_edge _ _ _ _ W _ _ _ _ En Ev) as [Hv _].
        destruct (lookup_lt_is_Some_2 h v Hv) as [nv Env].
        apply (covers_byte ic h cur n v b _ En Ev Hb1 Hb2).
        apply (IH2 gpn v (i + 1) h' nv Env); [|lia|exact H].
        apply (child_not_isGlob ic r name h cur n _ v nv W I2 En Ev Hf2 Env).
    + apply bind_Done in H as (n1 & h1 & Hn1 & H). apply load_Done in Hn1 as (-> & En1).
      rewrite En in En1. inversion En1; subst n1. clear En1.
      unfold ret in H. injection H as Hc Hh. rewrite Hig, orb_false_r in Hc.
      rewrite drop_ge by lia. exists []. split; [exists n; auto|constructor].
  - intros G i h' Hi H. cbn [globConsume] in H.
    apply bind_Done in H as (nG & h1 & HG & H). apply load_Done in HG as (-> & EG).
    destruct (lookup_lt_is_Some_2 s (Z.to_nat i) ltac:(lia)) as [b Eb].
    destruct (canMatch nG) eqn:Hc.
    + rewrite (drop_byte s i b (proj1 Hi) Eb). apply (coversGlob_end ic h G nG b _ EG Hc).
    + apply (IH4 G i _ _ h' (proj1 Hi) H).
  - intros G i la st h' Hi H. cbn [globConsume_loop] in H.
    destruct (Z.ltb_spec i (Z.of_nat (length s))) as [Hlt|Hge]; [|no_result H].
    apply bind_Done in H as (b & h1 & Hb & H).
    apply byteAt_Done in Hb as (-> & _ & Eb).
    rewrite (drop_byte s i b Hi Eb).
    destruct (Forall_lookup_1 _ _ _ _ Hs Eb) as [Hb1 Hb2].
    assert (Hf2 : foldCase ic b <> globChar) by (rewrite foldCase_globChar; exact Hb2).
    apply bind_Done in H as (nG & h1 & HG & H). apply load_Done in HG as (-> & EG).
    rewrite (wf_icase _ _ _ _ W _ _ EG) in H. cbv zeta in H.
    assert (Hrest : forall st',
      (cur <- load G ;;
       hit <- match lookupChild cur (foldCase ic b) with
              | Some v => checkPath fuel v s (i + 1) (Z.of_nat (length s))
              | None => ret false
              end ;;
       if hit then ret true
       else if i =? Z.of_nat (length s) - 1 then cur0 <- load G ;; ret (canMatch cur0)
            else globConsume_loop fuel G s (i + 1) (Z.of_nat (length s)) la
                   (if la then true else st')) h = Done (true, h') ->
      coversGlob ic h G (b :: drop (Z.to_nat (i + 1)) s)).
    { intros st' H1.
      apply bind_Done in H1 as (n1 & h1 & Hn1 & H1). apply load_Done in Hn1 as (-> & En1).
      rewrite EG in En1. inversion En1; subst n1. clear En1.
      apply bind_Done in H1 as (hit & h1 & Hhit & H1).
      assert (Hh : h1 = h /\
                (hit = true -> coversGlob ic h G (b :: drop (Z.to_nat (i + 1)) s))).
      { destruct (lookupChild nG (foldCase ic b)) as [v|] eqn:Ev;
          [|inversion Hhit; split; [reflexivity|discriminate]].
        split; [apply (RO1 _ _ _ _ _ _ _ Hhit)|]. intros ->.
        destruct (wf_edge _ _ _ _ W _ _ _ _ EG Ev) as [Hv _].
        destruct (lookup_lt_is_Some_2 h v Hv) as [nv Env].
        apply (coversGlob_byte ic h G nG v b _ EG Ev Hb1 Hb2).
        apply (IH1 v (i + 1) h1 nv Env); [|lia|exact Hhit].
        apply (child_not_isGlob ic r name h G nG _ v nv W I2 EG Ev Hf2 Env). }
      destruct Hh as [-> Hh]. destruct hit; [apply Hh; reflexivity|]. clear Hh.
      destruct (i =? Z.of_nat (length s) - 1).
      - apply bind_Done in H1 as (n1 & h1 & Hn1 & H1). apply load_Done in Hn1 as (-> & En1).
        rewrite EG in En1. inversion En1; subst n1. clear En1.
        unfold ret in H1. injection H1 as Hc Hh.
        apply (coversGlob_end ic h G nG b _ EG Hc).
      - apply coversGlob_skip. apply (IH4 G (i + 1) _ _ h' ltac:(lia) H1). }
    destruct st; [|apply (Hrest _ H)].
    apply bind_Done in H as (n1 & h1 & Hn1 & H). apply load_Done in Hn1 as (-> & En1).
    rewrite EG in En1. inversion En1; subst n1. clear En1.
    destruct (oneShot nG) as [o|]; [|no_result H].
    apply bind_Done in H as (on & h1 & Hon & H). apply load_Done in Hon as (-> & Eon).
    destruct (negb (foldCase ic b =? nodeChar on)).
    + apply coversGlob_skip. apply (IH4 G (i + 1) _ _ h' ltac:(lia) H).
    + apply (Hrest _ H).
Qed.

Lemma patternAt_accepted ic h : forall p cur,
  patternAt ic h cur p -> accepted h cur (keys ic p).
Proof.
  induction p as [|b p IH]; intros cur Hp.
  - destruct Hp as (n & En & Hc). exists cur, n. auto.
  - destruct Hp as (n & v & En & Ev & _ & Hp).
    destruct (IH v Hp) as (q & nq & Hw & Eq & Hc).
    exists q, nq. simpl keys. rewrite walk_cons, En, Ev. auto.
Qed.

Lemma keyOf_globChar ic b : b <> globChar -> (keyOf ic b = globChar <-> b = star).
Proof.
  intros Hb. unfold keyOf. cbv zeta.
  destruct (Z.eqb_spec (foldCase ic b) star) as [Es|Hns].
  - apply foldCase_star_iff in Es. tauto.
  - rewrite foldCase_globChar, <- (foldCase_star_iff ic b). tauto.
Qed.

(** Matching sees a pattern through its keys. *)
Lemma globMatches_keys ic p t :
  globMatches ic p t ->
  forall p0, keys ic p0 = keys ic p -> Forall (fun b => b <> globChar) p0 ->
    globMatches ic p0 t.
Proof.
  induction 1 as [|b p c s Hb1 Hb2 Hfc Hm IH|x Hx|b p x s Hb1 Hm IH]; intros p0 Hk Hp0.
  - destruct p0; [constructor|discriminate].
  - destruct p0 as [|b0 p0]; [discriminate|]. simpl in Hk. inversion Hk as [[Hk1 Hk2]].
    apply Forall_cons in Hp0. destruct Hp0 as [Hb0 Hp0].
    rewrite (keyOf_plain ic b Hb1) in Hk1.
    assert (Hb0s : b0 <> star).
    { intros ->. rewrite keyOf_star in Hk1. symmetry in Hk1.
      apply foldCase_globChar in Hk1. contradiction. }
    rewrite (keyOf_plain ic b0 Hb0s) in Hk1.
    apply gm_byte; auto. congruence.
  - destruct p0 as [|b0 [|b1 p0]]; try discriminate. simpl in Hk. inversion Hk as [Hk1].
    apply Forall_cons in Hp0. destruct Hp0 as [Hb0 _].
    rewrite keyOf_star in Hk1. apply (keyOf_globChar ic b0 Hb0) in Hk1. subst b0.
    apply gm_star_end. exact Hx.
  - destruct p0 as [|b0 [|b1 p0]]; try discriminate. simpl in Hk.
    inversion Hk as [[Hk1 Hk2 Hk3]].
    apply Forall_cons in Hp0. destruct Hp0 as [Hb0 Hp0].
    rewrite keyOf_star in Hk1. apply (keyOf_globChar ic b0 Hb0) in Hk1. subst b0.
    assert (Hm0 : globMatches ic (b1 :: p0) s).
    { apply IH; [simpl; congruence|exact Hp0]. }
    apply gm_star; [|exact Hm0].
    assert (Hbg : b <> globChar).
    { inversion Hm; subst; auto; exfalso; apply Hb1; reflexivity. }
    intros ->. rewrite keyOf_star, (keyOf_plain ic b Hb1) in Hk2. symmetry in Hk2.
    apply foldCase_globChar in Hk2. contradiction.
Qed.

Lemma checkPath_accepts_iff ic r h ps cand fuel :
  built ic r h ps ->
  Forall (Forall (fun b => b <> globChar)) ps ->
  Forall (fun b => b <> star /\ b <> globChar) cand ->
  (fuelFor cand <= fuel)%nat ->
  exists b, checkPath fuel r cand 0 (Z.of_nat (length cand)) h = Done (b, h) /\
    (b = true <-> exists p, p ∈ ps /\ globMatches ic p cand).
Proof.
  intros Hb Hps Hc Hf. destruct (built_wf _ _ _ _ Hb) as (name & W & Hacc & _).
  pose proof (wf_root _ _ _ _ W) as Hr.
  destruct (lookup_lt_is_Some_2 h r Hr) as [nr Er].
  assert (Hrun : runs h (checkPath fuel r cand 0 (Z.of_nat (length cand)))).
  { apply (query_total fuel); auto; try lia.
    - apply (wf_closed _ _ _ _ W).
    - unfold fuelFor, dist in *. lia. }
  destruct Hrun as [b Rb]. exists b. split; [exact Rb|]. split.
  - intros ->.
    destruct (query_sound ic r name h cand W (built_globKey ic r h ps Hb Hps)
                (built_globParent ic r h ps Hb) Hc fuel) as (S1 & _).
    destruct (S1 r 0 h nr Er (built_root_isGlob ic r h ps nr Hb Er) ltac:(lia) Rb)
      as (p & Hp & Hm).
    change (drop (Z.to_nat 0) cand) with cand in Hm.
    pose proof (patternAt_accepted ic h p r Hp) as Ha.
    apply Hacc, list_elem_of_In, in_map_iff in Ha as (p0 & Hk & Hin).
    apply list_elem_of_In in Hin. exists p0. split; [exact Hin|].
    apply (globMatches_keys ic p cand Hm p0 Hk).
    apply (proj1 (Forall_forall _ _) Hps p0 Hin).
  - intros (p & Hin & Hm).
    pose proof (pattern_matched ic r h ps p cand fuel Hb Hin Hm Hf) as R.
    rewrite Rb in R. inversion R. reflexivity.
Qed.


(** X1: in a trie grown from patterns without the sentinel byte, [checkPath]
    on a candidate free of ['*'] and of the sentinel returns what
    [globMatch] says of the patterns inserted: it accepts the candidate
    exactly when one of them matches it, where bytes of the pattern stand
    for themselves, up to case in a case-insensitive trie, a ['*'] at the
    end for one byte or more, a ['*'] before a byte other than ['*'] for
    any bytes, and a ['*'] before a ['*'] matches nothing. *)
Theorem checkPath_exact ic r h ps cand fuel :
  built ic r h ps ->
  Forall (Forall (fun b => b <> globChar)) ps ->
  Forall (fun b => b <> star /\ b <> globChar) cand ->
  (fuelFor cand <= fuel)%nat ->
  checkPath fuel r cand 0 (Z.of_nat (length cand)) h =
  Done (existsb (fun p => globMatch ic p cand) ps, h).
Proof.
  intros Hb Hps Hc Hf.
  destruct (checkPath_accepts_iff ic r h ps cand fuel Hb Hps Hc Hf) as (b & Rb & Hiff).
  rewrite Rb. f_equal. f_equal. apply Bool.eq_iff_eq_true.
  rewrite Hiff, existsb_exists. split.
  - intros (p & Hin & Hm). exists p. split; [apply list_elem_of_In; exact Hin|].
    apply globMatch_spec. exact Hm.
  - intros (p & Hin & Hm). exists p. split; [apply list_elem_of_In; exact Hin|].
    apply globMatch_spec. exact Hm.
Qed.

Lemma checkPath_exact_witness :
  checkPath 30 0%nat (bytes "a.gif") 0 5 (trieOf false [bytes "*.png"; bytes "a*"]) =
    Done (true, trieOf false [bytes "*.png"; bytes "a*"]) /\
  checkPath 30 0%nat (bytes "b.gif") 0 5 (trieOf false [bytes "*.png"; bytes "a*"]) =
    Done (false, trieOf false [bytes "*.png"; bytes "a*"]).
Proof.
  split.
  - apply (checkPath_exact false 0%nat _ [bytes "*.png"; bytes "a*"] (bytes "a.gif") 30
             (built_trieOf false _)).
    + apply (bool_decide_unpack _). vm_compute. exact I.
    + apply (bool_decide_unpack _). vm_compute. exact I.
    + vm_compute. lia.
  - apply (checkPath_exact false 0%nat _ [bytes "*.png"; bytes "a*"] (bytes "b.gif") 30
             (built_trieOf false _)).
    + apply (bool_decide_unpack _). vm_compute. exact I.
    + apply (bool_decide_unpack _). vm_compute. exact I.
    + vm_compute. lia.
Defined.

(** X5: for candidates free of ['*'] and of the sentinel the answer of
    [checkPath] depends on the set of patterns inserted, not on their
    order or number: what a trie accepts, every trie grown from a larger
    set of patterns accepts. *)
Theorem checkPath_pattern_set ic r h ps r' h' ps' cand fuel :
  built ic r h ps -> built ic r' h' ps' ->
  Forall (Forall (fun b => b <> globChar)) ps ->
  Forall (fun b => b <> star /\ b <> globChar) cand ->
  (forall p, p ∈ ps -> p ∈ ps') ->
  (fuelFor cand <= fuel)%nat ->
  checkPath fuel r cand 0 (Z.of_nat (length cand)) h = Done (true, h) ->
  checkPath fuel r' cand 0 (Z.of_nat (length cand)) h' = Done (true, h').
Proof.
  intros Hb Hb' Hps Hc Hsub Hf R.
  destruct (checkPath_accepts_iff ic r h ps cand fuel Hb Hps Hc Hf) as (b & Rb & Hiff).
  rewrite R in Rb. inversion Rb; subst b.
  destruct (proj1 Hiff eq_refl) as (p & Hin & Hm).
  apply (pattern_matched ic r' h' ps' p cand fuel Hb' (Hsub p Hin) Hm Hf).
Qed.

Lemma checkPath_pattern_set_witness :
  checkPath 30 0%nat (bytes "a.png") 0 5 (trieOf false [bytes "b"; bytes "*.png"; bytes "b"]) =
  Done (true, trieOf false [bytes "b"; bytes "*.png"; bytes "b"]).
Proof.
  refine (checkPath_pattern_set false 0%nat (trieOf false [bytes "*.png"; bytes "b"])
            [bytes "*.png"; bytes "b"] 0%nat _ [bytes "b"; bytes "*.png"; bytes "b"]
            (bytes "a.png") 30 (built_trieOf false _) (built_trieOf false _) _ _ _ _ _).
  - apply (bool_decide_unpack _). vm_compute. exact I.
  - apply (bool_decide_unpack _). vm_compute. exact I.
  - intros p Hp. apply list_elem_of_In in Hp. apply list_elem_of_In. simpl in *. tauto.
  - vm_compute. lia.
  - vm_compute. reflexivity.
Defined.

(** ** Inserting a pattern twice *)

Lemma modify_id h p n f :
  h !! p = Some n -> f n = n -> modify p f h = Done (tt, h).
Proof.
  intros E Hf. rewrite (modify_run h p n f E), Hf, list_insert_id by exact E.
  reflexivity.
Qed.

Lemma set_nodeChar_id c n : nodeChar n = c -> set_nodeChar c n = n.
Proof. intros <-. destruct n; reflexivity. Qed.

Lemma set_oneShot_id o n : oneShot n = o -> set_oneShot o n = n.
Proof. intros <-. destruct n; reflexivity. Qed.

Lemma set_hasGlobChild_id b n : hasGlobChild n = b -> set_hasGlobChild b n = n.
Proof. intros <-. destruct n; reflexivity. Qed.

Lemma set_isGlob_id b n : isGlob n = b -> set_isGlob b n = n.
Proof. intros <-. destruct n; reflexivity. Qed.

Lemma set_canMatch_id b n : canMatch n = b -> set_canMatch b n = n.
Proof. intros <-. destruct n; reflexivity. Qed.

(** Where the path is in place the loop of [addPath] writes what is there. *)
Lemma addPath_loop_inserted ic r g s : forall h cur q,
  h !! r = Some g -> icase g = ic -> inserted ic h cur s q ->
  addPath_loop r cur s h = Done (q, h).
Proof.
  induction s as [|b s IH]; intros h cur q Eg Hic Hins.
  - simpl in Hins. subst q. reflexivity.
  - destruct Hins as (ncur & m & v & nv & Ecur & Em & Ev & Eo & Env & Hnc & Hst & Hne & Hins).
    cbn [addPath_loop].
    assert (Rstep : addPath_step r cur b h = Done (v, h)).
    { unfold addPath_step.
      rewrite (bind_run _ _ _ _ _ (load_run _ _ _ Eg)), Hic.
      rewrite (bind_run _ _ _ _ _ (load_run _ _ _ Ecur)), Em.
      unfold keyOf in Ev. cbv zeta in Ev. rewrite Ev.
      rewrite (bind_run _ _ _ _ _ (eq_refl : ret (v, m) h = Done ((v, m), h))).
      rewrite (bind_run _ _ _ _ _
                 (modify_id h v nv _ Env (set_nodeChar_id _ _ Hnc))).
      rewrite (bind_run _ _ _ _ _
                 (modify_id h cur ncur _ Ecur (set_oneShot_id _ _ Eo))).
      destruct (Z.eqb_spec (foldCase ic b) star) as [Es|_]; [|reflexivity].
      destruct (Hst Es) as [Hg1 Hg2].
      assert (Rg : (modify cur (set_hasGlobChild true) ;;; modify v (set_isGlob true)) h
                   = Done (tt, h)).
      { rewrite (bind_run _ _ _ _ _
                   (modify_id h cur ncur _ Ecur (set_hasGlobChild_id _ _ Hg1))).
        apply (modify_id h v nv _ Env (set_isGlob_id _ _ Hg2)). }
      rewrite (bind_run _ _ _ _ _ Rg). reflexivity. }
    rewrite (bind_run _ _ _ _ _ Rstep). apply (IH h v q Eg Hic Hins).
Qed.

(** An iteration writes [nodeChar] and [isGlob] of the child only. *)
Lemma addPath_step_frame ic r name h cur b v h' :
  wf ic r name h -> (cur < length h)%nat ->
  addPath_step r cur b h = Done (v, h') ->
  forall p n, h !! p = Some n -> p <> v ->
    exists n', h' !! p = Some n' /\ nodeChar n' = nodeChar n /\ isGlob n' = isGlob n.
Proof.
  intros W Hcur R p n En Hpv.
  destruct (lookup_lt_is_Some_2 h cur Hcur) as [ncur Ecur].
  pose proof (wf_oneShot _ _ _ _ W _ _ Ecur) as Hos. unfold oneShot_ok in Hos.
  destruct (subtrees ncur) as [subt|] eqn:Esub; [|contradiction].
  destruct (addPath_step_effect ic r name h cur ncur subt b W Ecur Esub)
    as (v0 & h0 & R0 & Hne & Hcase & Pc & Pv & O).
  rewrite R in R0. inversion R0; subst v0 h0. clear R0.
  destruct (decide (p = cur)) as [->|Hpc].
  - rewrite Ecur in En. inversion En; subst n. eexists. split; [exact Pc|]. auto.
  - exists n. rewrite O by auto. auto.
Qed.

(** The loop started at [cur] writes [nodeChar] and [isGlob] below [cur]
    only. *)
Lemma addPath_loop_frame ic r s : forall name h cur q h',
  wf ic r name h -> (cur < length h)%nat ->
  addPath_loop r cur s h = Done (q, h') ->
  forall p n, h !! p = Some n -> (length (name p) <= length (name cur))%nat ->
    exists n', h' !! p = Some n' /\ nodeChar n' = nodeChar n /\ isGlob n' = isGlob n.
Proof.
  induction s as [|b s IH]; intros name h cur q h' W Hcur R p n En Hlen.
  - inversion R; subst. exists n. auto.
  - cbn [addPath_loop] in R.
    destruct (addPath_step_wf ic r name h cur b W Hcur)
      as (v & h1 & name1 & R1 & W1 & _ & Hv1 & Hold & Hnv & _).
    rewrite (bind_run _ _ _ _ _ R1) in R.
    pose proof (lookup_lt_Some _ _ _ En) as Hp.
    assert (Hpv : p <> v).
    { intros ->. rewrite (Hold v Hp) in Hnv. rewrite Hnv, length_app in Hlen.
      simpl in Hlen. lia. }
    destruct (addPath_step_frame ic r name h cur b v h1 W Hcur R1 p n En Hpv)
      as (n1 & En1 & Hc1 & Hg1).
    destruct (IH name1 h1 v q h' W1 Hv1 R p n1 En1) as (n' & En' & Hc' & Hg').
    { rewrite Hnv, (Hold p Hp), length_app. simpl. lia. }
    exists n'. split; [exact En'|]. split; congruence.
Qed.

(** After the loop of [addPath] the path is in place. *)
Lemma addPath_loop_inserts ic r s : forall name h cur q h',
  wf ic r name h -> (cur < length h)%nat ->
  addPath_loop r cur s h = Done (q, h') -> inserted ic h' cur s q.
Proof.
  induction s as [|b s IH]; intros name h cur q h' W Hcur R.
  - inversion R; subst. reflexivity.
  - cbn [addPath_loop] in R.
    destruct (lookup_lt_is_Some_2 h cur Hcur) as [ncur Ecur].
    pose proof (wf_oneShot _ _ _ _ W _ _ Ecur) as Hos. unfold oneShot_ok in Hos.
    destruct (subtrees ncur) as [subt|] eqn:Esub; [|contradiction].
    destruct (addPath_step_effect ic r name h cur ncur subt b W Ecur Esub)
      as (v & h1 & R1 & Hne & Hcase & Pc & Pv & O).
    destruct (addPath_step_wf ic r name h cur b W Hcur)
      as (v0 & h0 & name1 & R0 & W1 & _ & Hv1 & _).
    rewrite R1 in R0. inversion R0; subst v0 h0. clear R0.
    rewrite (bind_run _ _ _ _ _ R1) in R.
    destruct (addPath_loop_wf ic r s name1 h1 v W1 Hv1)
      as (q0 & h0 & name2 & R0 & W2 & _).
    rewrite R in R0. inversion R0; subst q0 h0. clear R0.
    pose proof (addPath_loop_grows ic r s name1 h1 v q h' W1 Hv1 R) as Hg.
    destruct (Hg _ _ Pc) as (ncur' & Ecur' & _ & Hgc & Hl).
    destruct (addPath_loop_frame ic r s name1 h1 v q h' W1 Hv1 R v _ Pv (le_n _))
      as (nv' & Env' & Hnc & Hig).
    simpl in Hnc, Hig, Hgc.
    pose proof (wf_oneShot _ _ _ _ W2 _ _ Ecur') as Hos'. unfold oneShot_ok in Hos'.
    destruct (subtrees ncur') as [m'|] eqn:Em'; [|contradiction].
    assert (Ev : m' !! keyOf ic b = Some v).
    { specialize (Hl (keyOf ic b) v). unfold lookupChild in Hl. simpl in Hl.
      rewrite Em' in Hl. apply Hl. apply lookup_insert_eq. }
    exists ncur', m', v, nv'. split; [exact Ecur'|]. split; [exact Em'|].
    split; [exact Ev|]. split.
    { destruct (oneShot ncur') as [o|] eqn:Eo.
      - destruct Hos' as [c0 Hm]. rewrite Hm in Ev |- *.
        apply lookup_singleton_Some in Ev. destruct Ev as [_ ->].
        rewrite map_size_singleton. reflexivity.
      - destruct (Nat.eqb_spec (size m') 1); [contradiction|reflexivity]. }
    split; [exact Env'|]. split; [exact Hnc|]. split.
    { intros Es. rewrite Es, Z.eqb_refl, orb_true_r in *. split; [apply Hgc; reflexivity|exact Hig]. }
    split; [exact Hne|].
    apply (IH name1 h1 v q h' W1 Hv1 R).
Qed.

(** Setting [canMatch] leaves a path in place. *)
Lemma inserted_set_canMatch ic h x nx s : forall cur q,
  h !! x = Some nx -> inserted ic h cur s q ->
  inserted ic (<[x := set_canMatch true nx]> h) cur s q.
Proof.
  assert (L : forall p n, h !! x = Some nx -> h !! p = Some n ->
            exists n', <[x := set_canMatch true nx]> h !! p = Some n' /\
              subtrees n' = subtrees n /\ oneShot n' = oneShot n /\
              nodeChar n' = nodeChar n /\ hasGlobChild n' = hasGlobChild n /\
              isGlob n' = isGlob n).
  { intros p n Ex En. pose proof (lookup_lt_Some _ _ _ Ex) as Hx.
    destruct (decide (p = x)) as [->|Hpx].
    - rewrite Ex in En. inversion En; subst n. exists (set_canMatch true nx).
      rewrite list_lookup_insert_eq by exact Hx. simpl. auto 10.
    - exists n. rewrite list_lookup_insert_ne by congruence. auto 10. }
  induction s as [|b s IH]; intros cur q Ex Hins; [exact Hins|].
  destruct Hins as (ncur & m & v & nv & Ecur & Em & Ev & Eo & Env & Hnc & Hst & Hne & Hins).
  destruct (L _ _ Ex Ecur) as (ncur' & Ecur' & S1 & S2 & _ & S4 & _).
  destruct (L _ _ Ex Env) as (nv' & Env' & _ & _ & T3 & _ & T5).
  exists ncur', m, v, nv'. rewrite S1, S2, S4, T3, T5. auto 12.
Qed.

(** In a trie whose children under [globChar] are wildcards, a pattern
    without the sentinel byte whose keys lead somewhere is in place. *)
Lemma walk_inserted ic r name h :
  wf ic r name h -> globKey h ->
  forall s cur q, (cur < length h)%nat -> noSentinel s ->
    walk h cur (keys ic s) = Some q -> inserted ic h cur s q.
Proof.
  intros W J. induction s as [|b s IH]; intros cur q Hcur Hs Hw.
  - simpl in Hw. inversion Hw. reflexivity.
  - apply Forall_cons in Hs. destruct Hs as [Hb Hs].
    simpl keys in Hw. rewrite walk_cons in Hw.
    destruct (h !! cur) as [ncur|] eqn:Ecur; [|discriminate].
    destruct (lookupChild ncur (keyOf ic b)) as [v|] eqn:Ev; [|discriminate].
    destruct (wf_edge _ _ _ _ W _ _ _ _ Ecur Ev) as [Hv Hname].
    destruct (lookup_lt_is_Some_2 h v Hv) as [nv Env].
    pose proof (wf_oneShot _ _ _ _ W _ _ Ecur) as Hos. unfold oneShot_ok in Hos.
    destruct (subtrees ncur) as [m|] eqn:Em; [|contradiction].
    assert (Ev' : m !! keyOf ic b = Some v).
    { unfold lookupChild in Ev. rewrite Em in Ev. exact Ev. }
    assert (Hpart : foldCase ic b <> globChar) by (rewrite foldCase_globChar; exact Hb).
    exists ncur, m, v, nv. split; [exact Ecur|]. split; [exact Em|].
    split; [exact Ev'|]. split.
    { destruct (oneShot ncur) as [o|] eqn:Eo.
      - destruct Hos as [c0 Hm]. rewrite Hm in Ev' |- *.
        apply lookup_singleton_Some in Ev'. destruct Ev' as [_ ->].
        rewrite map_size_singleton. reflexivity.
      - destruct (Nat.eqb_spec (size m) 1); [contradiction|reflexivity]. }
    split; [exact Env|].
    assert (Hkey : keyOf ic b = globChar <-> foldCase ic b = star).
    { unfold keyOf. cbv zeta. destruct (Z.eqb_spec (foldCase ic b) star); [tauto|].
      split; intros; contradiction. }
    split.
    { destruct (decide (keyOf ic b = globChar)) as [Hk|Hk].
      - rewrite Hk in Ev. destruct (J cur ncur v nv Ecur Ev Env) as (_ & _ & ->).
        symmetry. apply Hkey. exact Hk.
      - rewrite (wf_nodeChar _ _ _ _ W _ _ _ _ _ Ecur Ev Env Hk).
        apply keyOf_not_glob. exact Hk. }
    split.
    { intros Es. apply Hkey in Es. rewrite Es in Ev.
      destruct (J cur ncur v nv Ecur Ev Env) as (J1 & J2 & _). auto. }
    split.
    { intros ->. rewrite <- (List.app_nil_r (name cur)) in Hname at 1.
      apply app_inv_head in Hname. discriminate. }
    apply (IH v q Hv Hs Hw).
Qed.

(** X9: inserting again the pattern inserted last leaves the store as it is:
    no node is made and every write stores the value that is there.  When
    no pattern holds the sentinel byte this is so for every pattern
    inserted before. *)
Theorem addPath_idempotent ic r h ps :
  built ic r h ps ->
  (forall s h', addPath r s h = Done (None, h') -> addPath r s h' = Done (None, h')) /\
  (Forall (Forall (fun b => b <> globChar)) ps ->
   forall s, s ∈ ps -> addPath r s h = Done (None, h)).
Proof.
  intros Hb. destruct (built_wf _ _ _ _ Hb) as (name & W & Hacc & _).
  assert (Hnoop : forall (h0 : heap) name0 s q nq, wf ic r name0 h0 ->
            inserted ic h0 r s q -> h0 !! q = Some nq -> canMatch nq = true ->
            addPath r s h0 = Done (None, h0)).
  { intros h0 name0 s q nq W0 Hins Eq Hc.
    pose proof (wf_root _ _ _ _ W0) as Hr.
    destruct (lookup_lt_is_Some_2 h0 r Hr) as [g Eg].
    pose proof (wf_icase _ _ _ _ W0 _ _ Eg) as Hic.
    pose proof (wf_oneShot _ _ _ _ W0 _ _ Eg) as Hos. unfold oneShot_ok in Hos.
    destruct (subtrees g) as [m|] eqn:Em; [|contradiction].
    unfold addPath. rewrite (bind_run _ _ _ _ _ (load_run _ _ _ Eg)), Em.
    rewrite (bind_run _ _ _ _ _ (addPath_loop_inserted ic r g s h0 r q Eg Hic Hins)).
    rewrite (bind_run _ _ _ _ _ (modify_id h0 q _ _ Eq (set_canMatch_id _ _ Hc))).
    reflexivity. }
  split.
  - intros s h' A.
    destruct (addPath_run ic r name h s W)
      as (q & h1 & name1 & nq & R1 & W1 & Enq & _ & A1).
    rewrite A1 in A. inversion A; subst h'. clear A A1.
    pose proof (addPath_loop_inserts ic r s name h r q h1 W (wf_root _ _ _ _ W) R1) as Hins.
    apply (Hnoop _ name1 s q (set_canMatch true nq)).
    + apply (wf_set_canMatch ic r name1 h1 q nq W1 Enq).
    + apply (inserted_set_canMatch ic h1 q nq s r q Enq Hins).
    + apply list_lookup_insert_eq. apply (lookup_lt_Some _ _ _ Enq).
    + reflexivity.
  - intros Hps s Hin.
    assert (Ha : accepted h r (keys ic s)).
    { apply Hacc. apply list_elem_of_In, in_map, list_elem_of_In. exact Hin. }
    destruct Ha as (q & nq & Hw & Eq & Hc).
    apply (Hnoop h name s q nq W); auto.
    apply (walk_inserted ic r name h W (built_globKey ic r h ps Hb Hps) s r q
             (wf_root _ _ _ _ W)); [|exact Hw].
    apply (proj1 (Forall_forall _ _) Hps s Hin).
Qed.

Lemma addPath_idempotent_witness :
  addPath 0%nat (bytes "a*c") (trieOf true [bytes "a*c"; bytes "ab"]) =
  Done (None, trieOf true [bytes "a*c"; bytes "ab"]).
Proof.
  refine (proj2 (addPath_idempotent true 0%nat _ [bytes "a*c"; bytes "ab"]
                   (built_trieOf true _)) _ (bytes "a*c") _).
  - apply (bool_decide_unpack _). vm_compute. exact I.
  - apply list_elem_of_In. simpl. auto.
Defined.

(** ** The window of the candidate that a query reads *)

(** Two strings that hold the same bytes in two windows of the same
    width, the second one [d] places to the left: the queries on the two
    windows run alike. *)
Lemma query_shift s s' d lo mlen h :
  (forall j, lo <= j < mlen -> byteAt s j h = byteAt s' (j - d) h) ->
  forall fuel,
  (forall gpn i, lo <= i ->
     checkPath fuel gpn s i mlen h = checkPath fuel gpn s' (i - d) (mlen - d) h) /\
  (forall gpn cur i, lo <= i ->
     checkPath_loop fuel gpn cur s i mlen h =
     checkPath_loop fuel gpn cur s' (i - d) (mlen - d) h) /\
  (forall gpn i, lo <= i ->
     globConsume fuel gpn s i mlen h = globConsume fuel gpn s' (i - d) (mlen - d) h) /\
  (forall gpn i la st, lo <= i ->
     globConsume_loop fuel gpn s i mlen la st h =
     globConsume_loop fuel gpn s' (i - d) (mlen - d) la st h).
Proof.
  intros Hwin. induction fuel as [|fuel (IH1 & IH2 & IH3 & IH4)].
  { repeat split; reflexivity. }
  destruct (queries_keep_store fuel) as (RO1 & RO2 & RO3 & RO4).
  assert (Hbyte : forall {B} i (k k' : Z -> M B), lo <= i < mlen ->
            (forall b, k b h = k' b h) ->
            bind (byteAt s i) k h = bind (byteAt s' (i - d)) k' h).
  { intros B i k k' Hi Hk. unfold bind. rewrite <- (Hwin i Hi).
    destruct (byteAt s i h) as [[b h1]| |] eqn:E; [|reflexivity|reflexivity].
    apply readonly_byteAt in E. subst h1. apply Hk. }
  split; [|split; [|split]].
  - intros gpn i Hi. cbn [checkPath]. apply IH2. exact Hi.
  - intros gpn cur i Hi. cbn [checkPath_loop].
    replace (i - d <? mlen - d) with (i <? mlen)
      by (destruct (Z.ltb_spec i mlen), (Z.ltb_spec (i - d) (mlen - d)); lia || reflexivity).
    destruct (Z.ltb_spec i mlen) as [Hlt|_]; [|reflexivity].
    replace (i - d + 1) with (i + 1 - d) by lia.
    apply Hbyte; [lia|]. intros b.
    apply bind_load_cong. intros g Eg.
    apply bind_load_cong. intros n En.
    apply bind_cong.
    { destruct (hasGlobChild n); [|reflexivity].
      destruct (lookupChild n globChar); [apply IH3; exact Hi|reflexivity]. }
    intros hit h1 Ehit.
    assert (h1 = h) as ->.
    { revert Ehit. destruct (hasGlobChild n); [|intros E; inversion E; reflexivity].
      destruct (lookupChild n globChar); [apply RO3|intros E; inversion E; reflexivity]. }
    destruct hit; [reflexivity|].
    apply bind_load_cong. intros n2 En2.
    destruct (oneShot n2).
    + apply bind_load_cong. intros on Eon.
      destruct (nodeChar on =? globChar); [reflexivity|].
      destruct (nodeChar on =? foldCase (icase g) b); [apply IH2; lia|reflexivity].
    + destruct (lookupChild n2 (foldCase (icase g) b)); [apply IH2; lia|reflexivity].
  - intros gpn i Hi. cbn [globConsume].
    apply bind_load_cong. intros g Eg. destruct (canMatch g); [reflexivity|].
    apply IH4. exact Hi.
  - intros gpn i la st Hi. cbn [globConsume_loop].
    replace (i - d <? mlen - d) with (i <? mlen)
      by (destruct (Z.ltb_spec i mlen), (Z.ltb_spec (i - d) (mlen - d)); lia || reflexivity).
    destruct (Z.ltb_spec i mlen) as [Hlt|_]; [|reflexivity].
    replace (i - d =? mlen - d - 1) with (i =? mlen - 1)
      by (destruct (Z.eqb_spec i (mlen - 1)), (Z.eqb_spec (i - d) (mlen - d - 1));
          lia || reflexivity).
    replace (i - d + 1) with (i + 1 - d) by lia.
    apply Hbyte; [lia|]. intros b.
    apply bind_load_cong. intros g Eg. cbv zeta.
    assert (Hrest : forall st',
      (cur <- load gpn ;;
       hit <- match lookupChild cur (foldCase (icase g) b) with
              | Some v => checkPath fuel v s (i + 1) mlen
              | None => ret false
              end ;;
       if hit then ret true
       else if i =? mlen - 1 then cur0 <- load gpn ;; ret (canMatch cur0)
            else globConsume_loop fuel gpn s (i + 1) mlen la
                   (if la then true else st')) h =
      (cur <- load gpn ;;
       hit <- match lookupChild cur (foldCase (icase g) b) with
              | Some v => checkPath fuel v s' (i + 1 - d) (mlen - d)
              | None => ret false
              end ;;
       if hit then ret true
       else if i =? mlen - 1 then cur0 <- load gpn ;; ret (canMatch cur0)
            else globConsume_loop fuel gpn s' (i + 1 - d) (mlen - d) la
                   (if la then true else st')) h).
    { intros st'. apply bind_load_cong. intros n En.
      apply bind_cong.
      { destruct (lookupChild n (foldCase (icase g) b)); [apply IH1; lia|reflexivity]. }
      intros hit h1 Ehit.
      assert (h1 = h) as ->.
      { revert Ehit. destruct (lookupChild n (foldCase (icase g) b));
          [apply RO1|intros E; inversion E; reflexivity]. }
      destruct hit; [reflexivity|].
      destruct (i =? mlen - 1); [reflexivity|]. apply IH4. lia. }
    destruct st; [|apply Hrest].
    apply bind_load_cong. intros n En.
    destruct (oneShot n); [|reflexivity].
    apply bind_load_cong. intros on Eon.
    destruct (negb (foldCase (icase g) b =? nodeChar on)); [apply IH4; lia|apply Hrest].
Qed.

(** X7: [checkPath] and [globConsume] read the bytes of [s] from [index] up to
    [mlen] only: two strings that agree there give the same result, and a
    query on a window of [s] is the query on the bytes of the window taken
    out of [s]. *)
Theorem query_reads_window fuel gpn s index mlen h :
  0 <= index ->
  (forall s', (forall j, (Z.to_nat index <= j < Z.to_nat mlen)%nat -> s !! j = s' !! j) ->
     checkPath fuel gpn s index mlen h = checkPath fuel gpn s' index mlen h /\
     globConsume fuel gpn s index mlen h = globConsume fuel gpn s' index mlen h) /\
  (mlen <= Z.of_nat (length s) ->
     let w := take (Z.to_nat (mlen - index)) (drop (Z.to_nat index) s) in
     checkPath fuel gpn s index mlen h = checkPath fuel gpn w 0 (mlen - index) h /\
     globConsume fuel gpn s index mlen h = globConsume fuel gpn w 0 (mlen - index) h).
Proof.
  intros Hi. split.
  - intros s' Hs.
    assert (Hwin : forall j, index <= j < mlen -> byteAt s j h = byteAt s' (j - 0) h).
    { intros j Hj. rewrite Z.sub_0_r. unfold byteAt.
      rewrite (Hs (Z.to_nat j)) by lia. reflexivity. }
    destruct (query_shift s s' 0 index mlen h Hwin fuel) as (Q1 & _ & Q3 & _).
    specialize (Q1 gpn index (Z.le_refl _)). specialize (Q3 gpn index (Z.le_refl _)).
    rewrite !Z.sub_0_r in Q1, Q3. auto.
  - intros Hm w.
    assert (Hwin : forall j, index <= j < mlen -> byteAt s j h = byteAt w (j - index) h).
    { intros j Hj. unfold byteAt, w.
      destruct (Z.ltb_spec j 0); [lia|]. destruct (Z.ltb_spec (j - index) 0); [lia|].
      rewrite lookup_take_lt by lia. rewrite lookup_drop.
      replace (Z.to_nat index + Z.to_nat (j - index))%nat with (Z.to_nat j) by lia.
      reflexivity. }
    destruct (query_shift s w index index mlen h Hwin fuel) as (Q1 & _ & Q3 & _).
    specialize (Q1 gpn index (Z.le_refl _)). specialize (Q3 gpn index (Z.le_refl _)).
    rewrite Z.sub_diag in Q1, Q3. auto.
Qed.

Lemma query_reads_window_witness :
  checkPath 30 0%nat (bytes "xxabyy") 2 4 (trieOf false [bytes "ab"]) =
  checkPath 30 0%nat (bytes "ab") 0 2 (trieOf false [bytes "ab"]).
Proof.
  refine (proj1 (proj2 (query_reads_window 30 0%nat (bytes "xxabyy") 2 4
                          (trieOf false [bytes "ab"]) _) _)).
  - lia.
  - vm_compute. discriminate.
Defined.

(** ** The bounds of the window *)

(** X8: on a trie grown by [addPath], from any node, a query on a window
    inside the string returns a boolean: no index is out of range and no
    pointer is nil.  A window that starts before the string or at its end
    or after it, and is not empty, makes [checkPath] panic at its first
    read. *)
Theorem query_bounds gpn s index mlen h k :
  (forall ic r ps, built ic r h ps -> (gpn < length h)%nat ->
     0 <= index -> mlen <= Z.of_nat (length s) ->
     (exists b, checkPath (4 * dist index mlen + 4 + k) gpn s index mlen h = Done (b, h)) /\
     (exists b, globConsume (4 * dist index mlen + 2 + k) gpn s index mlen h = Done (b, h))) /\
  (index < mlen -> index < 0 \/ Z.of_nat (length s) <= index ->
     checkPath (2 + k) gpn s index mlen h = Panic).
Proof.
  split.
  - intros ic r ps Hb Hg Hi Hm. destruct (built_wf _ _ _ _ Hb) as (name & W & _).
    pose proof (wf_closed _ _ _ _ W) as Hcl.
    split.
    + apply (proj1 (query_total _)); auto. lia.
    + apply (proj1 (proj2 (proj2 (query_total _)))); auto. lia.
  - intros Hlt Hout. cbn [Nat.add checkPath checkPath_loop].
    destruct (Z.ltb_spec index mlen) as [_|]; [|lia].
    unfold bind, byteAt. destruct (Z.ltb_spec index 0) as [|Hge]; [reflexivity|].
    rewrite lookup_ge_None_2 by lia. reflexivity.
Qed.

Lemma query_bounds_witness :
  (exists b, checkPath (4 * dist 1 3 + 4 + 0) 1%nat (bytes "xbcx") 1 3
               (trieOf false [bytes "abc"]) = Done (b, trieOf false [bytes "abc"])) /\
  checkPath (2 + 0) 0%nat (bytes "ab") 2 3 (trieOf false [bytes "abc"]) = Panic.
Proof.
  split.
  - refine (proj1 (proj1 (query_bounds 1%nat (bytes "xbcx") 1 3 (trieOf false [bytes "abc"]) 0)
                     false 0%nat [bytes "abc"] (built_trieOf false _) _ _ _)).
    + vm_compute. lia.
    + lia.
    + vm_compute. discriminate.
  - apply (proj2 (query_bounds 0%nat (bytes "ab") 2 3 (trieOf false [bytes "abc"]) 0)).
    + lia.
    + right. vm_compute. discriminate.
Defined.
